(** * fincore: counting the pages of a file that are resident in core

    A shallow embedding of [misc-utils/fincore.c] (util-linux) and the
    theorems that settle the claims of its specification.

    The program talks to the kernel (open, fstat, mmap, mincore, munmap,
    close) and to libsmartcols.  Both are taken as an interface, class [OS]:
    the theorems hold for every implementation of it, and a small concrete
    implementation, [Toy], is used to run the program on examples.

    Integer types are those of an LP64 Linux target, the one the source
    comment names (x86_64): [int] is 32 bits signed, [size_t] 64 bits
    unsigned, [off_t] 64 bits signed.  Conversions and arithmetic that can
    leave the range are written with their wrap-around. *)

From Stdlib Require Import ZArith Lia List String Ascii Bool.
From stdpp Require Import base numbers list strings gmap.

Local Open Scope Z_scope.

(** ** Machine integers *)

Definition wrap_unsigned (bits x : Z) : Z := x mod 2 ^ bits.

Definition wrap_signed (bits x : Z) : Z :=
  let y := x mod 2 ^ bits in
  if y <? 2 ^ (bits - 1) then y else y - 2 ^ bits.

(** Conversion to [int], [size_t] and [off_t]. *)
Definition to_int : Z → Z := wrap_signed 32.
Definition to_size_t : Z → Z := wrap_unsigned 64.
Definition to_off_t : Z → Z := wrap_signed 64.

Definition INT_MAX : Z := 2 ^ 31 - 1.
Definition OFF_MAX : Z := 2 ^ 63 - 1.

(** ** Constants of the source and of the headers it includes *)

(** [#define N_PAGES_IN_WINDOW (32 * 1024)], an [int] constant. *)
Definition N_PAGES_IN_WINDOW : Z := 32 * 1024.

(** [enum { COL_PAGES, COL_SIZE, COL_FILE }]. *)
Definition COL_PAGES : Z := 0.
Definition COL_SIZE : Z := 1.
Definition COL_FILE : Z := 2.

(** [ARRAY_SIZE(infos)]. *)
Definition N_INFOS : Z := 3.

(** From [errno.h], [stdlib.h] and [sys/stat.h] on Linux. *)
Definition EINVAL : Z := 22.
Definition EXIT_SUCCESS : Z := 0.
Definition EXIT_FAILURE : Z := 1.
Definition S_IFMT : Z := 61440.   (* 0170000 *)
Definition S_IFDIR : Z := 16384.  (* 0040000 *)

(** ** Data *)

(** The two fields of [struct stat] that the program reads. *)
Record stat := { st_mode : Z; st_size : Z }.

Definition S_ISDIR (m : Z) : bool := Z.land m S_IFMT =? S_IFDIR.

(** [struct fincore_control]; the table [tb] lives in the program state. *)
Record fincore_control := { pagesize : Z; bytes : bool }.

(** Result of a system call: a value, or failure with a (positive) [errno].
    For [mmap], [Err] stands for [MAP_FAILED]. *)
Inductive sysres (A : Type) : Type :=
| Ok (a : A)
| Err (errno : positive).
Arguments Ok {A} a.
Arguments Err {A} errno.

(** A value read from an object: what was stored in it, or the
    indeterminate value of an object that was never written
    ([struct stat sb] in [main] when [fstat] was not reached). *)
Inductive cval : Type :=
| Val (z : Z)
| Indeterminate.

(** The content of a table cell, before formatting: the file name, a
    number printed with [%jd], or a size handed to [size_to_human_string]. *)
Inductive cell : Type :=
| CellName (name : string)
| CellDec (v : cval)
| CellHuman (v : cval).

(** The diagnostics of the program ([warn], [warnx], [err]). *)
Inductive diag : Type :=
| FailedOpen | FailedFstat | FailedMmap | FailedMincore
| NoFileSpecified | FailedTable | FailedColumn | FailedLine.

(** The libsmartcols calls that allocate and can return failure. *)
Inductive alloc_site : Type :=
| NewTable | NewColumn (id : Z) | NewLine.

(** What the program does that is observable from outside, in order. *)
Inductive event : Type :=
| EvOpen (name : string) (r : sysres Z)
| EvFstat (fd : Z) (r : sysres stat)
| EvMmap (hint len fd off : Z) (r : sysres Z)
| EvMincore (addr len : Z) (r : sysres unit)
| EvMunmap (addr len : Z)
| EvClose (fd : Z)
| EvVecRead (i : nat) (v : Z)
| EvVecWrite (i : nat) (v : Z)
| EvWarn (d : diag) (name : string)
| EvScols (site : alloc_site) (ok : bool)
| EvPrintTable (lines : list (list cell)).

(** ** The environment *)

(** The kernel and libsmartcols, as state transformers on a world [W].
    [os_mmap hint len fd off]: the protection and flags are the constants
    [PROT_NONE] and [MAP_PRIVATE].  [os_mincore addr len vec] returns the
    new content of the buffer [vec]. *)
Class OS (W : Type) : Type := {
  os_open : string → W → sysres Z * W;
  os_fstat : Z → W → sysres stat * W;
  os_mmap : Z → Z → Z → Z → W → sysres Z * W;
  os_mincore : Z → Z → list Z → W → sysres (list Z) * W;
  os_munmap : Z → Z → W → W;
  os_close : Z → W → W;
  os_alloc : alloc_site → W → bool * W
}.

(** How a run ends: a value, [exit(status)], a failed [assert], or the
    iteration bound of the model reached. *)
Inductive outcome (A : Type) : Type :=
| Ret (a : A)
| Exit (status : Z)
| Abort
| OutOfFuel.
Arguments Ret {A} a.
Arguments Exit {A} status.
Arguments Abort {A}.
Arguments OutOfFuel {A}.

(** The state of the process: the world, the static buffer [vec] of
    [do_mincore], and the lines of the output table. *)
Record pstate (W : Type) : Type := {
  ps_os : W;
  ps_vec : list Z;
  ps_lines : list (list cell)
}.
Arguments ps_os {W} _.
Arguments ps_vec {W} _.
Arguments ps_lines {W} _.

(** A computation: from a state to an outcome, the events it produced and
    the state it left. *)
Definition prog (W A : Type) : Type :=
  pstate W → outcome A * list event * pstate W.

Definition ret {W A} (a : A) : prog W A := λ s, (Ret a, [], s).

Definition bind {W A B} (m : prog W A) (f : A → prog W B) : prog W B := λ s,
  match m s with
  | (Ret a, e1, s1) => let '(o, e2, s2) := f a s1 in (o, e1 ++ e2, s2)
  | (Exit c, e1, s1) => (Exit c, e1, s1)
  | (Abort, e1, s1) => (Abort, e1, s1)
  | (OutOfFuel, e1, s1) => (OutOfFuel, e1, s1)
  end.

Declare Scope prog_scope.
Delimit Scope prog_scope with prog.
Notation "x ← y ; z" := (bind y (λ x, z))
  (at level 20, y at level 100, z at level 200, only parsing) : prog_scope.
Notation "' x ← y ; z" := (bind y (λ x, z))
  (at level 20, x pattern, y at level 100, z at level 200, only parsing) : prog_scope.
Notation "x ;; z" := (bind x (λ _, z))
  (at level 100, z at level 200, only parsing, right associativity) : prog_scope.
Local Open Scope prog_scope.

Section Program.
Context {W : Type} `{!OS W}.

Local Abbreviation pstate := (pstate W).
Local Abbreviation prog := (prog W).

Definition emit (e : event) : prog unit := λ s, (Ret tt, [e], s).
Definition exit_with {A} (status : Z) : prog A := λ s, (Exit status, [], s).
Definition assert_failed {A} : prog A := λ s, (Abort, [], s).
Definition out_of_fuel {A} : prog A := λ s, (OutOfFuel, [], s).

(** *** Loops *)

(** The body of a loop returns [inl a] to go round again, [inr b] to
    leave ([break], or the condition false). *)
Fixpoint iter_nat {A B} (n : nat) (body : A → prog (A + B)) (a : A) : prog (A + B) :=
  match n with
  | O => ret (inl a)
  | S n' =>
      r ← body a;
      match r with
      | inl a' => iter_nat n' body a'
      | inr b => ret (inr b)
      end
  end.

(** What follows a round: [n] more, or nothing once the loop is left. *)
Definition continue_with {A B} (n : nat) (body : A → prog (A + B))
    (r : A + B) : prog (A + B) :=
  match r with
  | inl a' => iter_nat n body a'
  | inr b => ret (inr b)
  end.

(** The same, with the number of rounds in binary. *)
Fixpoint iter_pos {A B} (p : positive) (body : A → prog (A + B)) (a : A) : prog (A + B) :=
  match p with
  | xH => body a
  | xO q =>
      r ← iter_pos q body a;
      match r with
      | inl a' => iter_pos q body a'
      | inr b => ret (inr b)
      end
  | xI q =>
      r ← body a;
      match r with
      | inl a' =>
          r' ← iter_pos q body a';
          match r' with
          | inl a'' => iter_pos q body a''
          | inr b => ret (inr b)
          end
      | inr b => ret (inr b)
      end
  end.

(** No loop of the program can go round 2^64 times and still be running
    on a real machine; the model stops there with [OutOfFuel]. *)
Definition LOOP_BOUND : positive := 2 ^ 64.

Definition while {A B} (body : A → prog (A + B)) (a : A) : prog B :=
  r ← iter_pos LOOP_BOUND body a;
  match r with
  | inl _ => out_of_fuel
  | inr b => ret b
  end.

(** *** System calls and library calls, each leaving its event *)

Definition set_os (w : W) (s : pstate) : pstate :=
  {| ps_os := w; ps_vec := ps_vec s; ps_lines := ps_lines s |}.
Definition set_vec (v : list Z) (s : pstate) : pstate :=
  {| ps_os := ps_os s; ps_vec := v; ps_lines := ps_lines s |}.
Definition set_lines (l : list (list cell)) (s : pstate) : pstate :=
  {| ps_os := ps_os s; ps_vec := ps_vec s; ps_lines := l |}.

Definition sys_open (name : string) : prog (sysres Z) := λ s,
  let '(r, w) := os_open name (ps_os s) in
  (Ret r, [EvOpen name r], set_os w s).

Definition sys_fstat (fd : Z) : prog (sysres stat) := λ s,
  let '(r, w) := os_fstat fd (ps_os s) in
  (Ret r, [EvFstat fd r], set_os w s).

Definition sys_mmap (hint len fd off : Z) : prog (sysres Z) := λ s,
  let '(r, w) := os_mmap hint len fd off (ps_os s) in
  (Ret r, [EvMmap hint len fd off r], set_os w s).

(** [mincore(addr, len, vec)]: on success the kernel has written [vec]. *)
Definition sys_mincore (addr len : Z) : prog (sysres unit) := λ s,
  let '(r, w) := os_mincore addr len (ps_vec s) (ps_os s) in
  match r with
  | Ok v => (Ret (Ok tt), [EvMincore addr len (Ok tt)], set_vec v (set_os w s))
  | Err e => (Ret (Err e), [EvMincore addr len (Err e)], set_os w s)
  end.

Definition sys_munmap (addr len : Z) : prog unit := λ s,
  (Ret tt, [EvMunmap addr len], set_os (os_munmap addr len (ps_os s)) s).

Definition sys_close (fd : Z) : prog unit := λ s,
  (Ret tt, [EvClose fd], set_os (os_close fd (ps_os s)) s).

(** [warn] and [warnx]: one line on the standard error stream. *)
Definition warn (d : diag) (name : string) : prog unit := emit (EvWarn d name).

(** [err(status, ...)]: the diagnostic, then [exit(status)]. *)
Definition err {A} (status : Z) (d : diag) : prog A :=
  emit (EvWarn d "");; exit_with status.

(** Reading and writing [vec\[i\]].  The array has [N_PAGES_IN_WINDOW]
    entries; an index outside it is undefined behaviour in C, here the
    read gives 0 and the write is lost (see [do_mincore_in_bounds]). *)
Definition vec_read (i : nat) : prog Z := λ s,
  let v := default 0 (ps_vec s !! i) in
  (Ret v, [EvVecRead i v], s).

Definition vec_write (i : nat) (v : Z) : prog unit := λ s,
  (Ret tt, [EvVecWrite i v], set_vec (<[i := v]> (ps_vec s)) s).

Definition scols_alloc (site : alloc_site) : prog bool := λ s,
  let '(ok, w) := os_alloc site (ps_os s) in
  (Ret ok, [EvScols site ok], set_os w s).

(** [scols_table_new_line]: a new, empty line at the end of the table. *)
Definition modify_lines (f : list (list cell) → list (list cell)) : prog unit :=
  λ s, (Ret tt, [], set_lines (f (ps_lines s)) s).

Definition scols_table_new_line : prog bool :=
  ok ← scols_alloc NewLine;
  if ok then modify_lines (λ l, l ++ [[]]);; ret true
  else ret false.

(** [scols_line_set_data] and [scols_line_refer_data] on the line just
    created; the cells are set in column order. *)
Definition scols_line_set_data (c : cell) : prog unit :=
  modify_lines (λ l, match reverse l with
                     | [] => []
                     | ln :: before => reverse before ++ [ln ++ [c]]
                     end).

Definition scols_print_table : prog unit := λ s,
  (Ret tt, [EvPrintTable (ps_lines s)], s).

(** *** [do_mincore] *)

(** [int n = (len / ctl->pagesize) + ((len % ctl->pagesize)? 1: 0);]
    [len] is a [size_t], so the [int] page size is converted to [size_t],
    the sum is a [size_t], and the initialisation converts it to [int].
    (Division by a zero page size is undefined in C and 0 here.) *)
Definition page_count (ctl : fincore_control) (len : Z) : Z :=
  let ps := to_size_t (pagesize ctl) in
  to_int (to_size_t (len / ps + (if negb (len mod ps =? 0) then 1 else 0))).

(** [while (n > 0) { if (vec[--n] & 0x1) { vec[n] = 0; ( *count_incore)++; } }] *)
Fixpoint count_loop (n : nat) (count_incore : Z) : prog Z :=
  match n with
  | O => ret count_incore
  | S n' =>
      v ← vec_read n';
      if negb (Z.land v 1 =? 0)
      then vec_write n' 0;; count_loop n' (to_off_t (count_incore + 1))
      else count_loop n' count_incore
  end.

(** Returns the return code and the new value of [*count_incore]. *)
Definition do_mincore (ctl : fincore_control) (window len : Z)
    (name : string) (count_incore : Z) : prog (Z * Z) :=
  let n := page_count ctl len in
  r ← sys_mincore window len;
  match r with
  | Err e => warn FailedMincore name;; ret (- Z.pos e, count_incore)
  | Ok _ =>
      c ← count_loop (Z.to_nat n) count_incore;
      ret (0, c)
  end.

(** *** [fincore_fd] *)

(** [size_t window_size = N_PAGES_IN_WINDOW * ctl->pagesize;] the product
    is computed in [int] and then converted. *)
Definition window_size (ctl : fincore_control) : Z :=
  to_size_t (to_int (N_PAGES_IN_WINDOW * pagesize ctl)).

(** [len = file_size - file_offset; if (len >= window_size) len = window_size;]
    the difference is an [off_t], stored in the [size_t] variable [len]. *)
Definition window_len (ctl : fincore_control) (file_size file_offset : Z) : Z :=
  let len := to_size_t (to_off_t (file_size - file_offset)) in
  if window_size ctl <=? len then window_size ctl else len.

(** [file_offset += window_size]: the sum is computed in [size_t] and
    converted back to [off_t]. *)
Definition next_offset (ctl : fincore_control) (file_offset : Z) : Z :=
  to_off_t (to_size_t (to_size_t file_offset + window_size ctl)).

(** The variables of the loop: [file_offset], [window], [rc],
    [warned_once] and [*count_incore]. *)
Definition fd_vars : Type := Z * Z * Z * bool * Z.

(** One round of the [for] loop, condition included. *)
Definition fincore_fd_body (ctl : fincore_control) (fd : Z) (name : string)
    (file_size : Z) (v : fd_vars) : prog (fd_vars + Z * Z) :=
  let '(file_offset, window, rc, warned_once, count_incore) := v in
  if file_offset <? file_size then
    let len := window_len ctl file_size file_offset in
    r ← sys_mmap window len fd file_offset;
    match r with
    | Err _ =>
        if negb warned_once
        then warn FailedMmap name;; ret (inr (- EINVAL, count_incore))
        else ret (inr (rc, count_incore))
    | Ok window' =>
        '(rc', count_incore') ← do_mincore ctl window' len name count_incore;
        if negb (rc' =? 0) then ret (inr (rc', count_incore'))
        else
          sys_munmap window' len;;
          ret (inl (next_offset ctl file_offset,
                    window', rc', warned_once, count_incore'))
    end
  else ret (inr (rc, count_incore)).

Definition fincore_fd (ctl : fincore_control) (fd : Z) (name : string)
    (file_size : Z) (count_incore : Z) : prog (Z * Z) :=
  while (fincore_fd_body ctl fd name file_size) (0, 0, 0, false, count_incore).

(** *** [fincore_name] *)

(** Returns: <0 on error, 0 success, 1 ignore; with it, the content of
    [*sb] ([None] while nothing was stored in it) and of [*count_incore]. *)
Definition fincore_name (ctl : fincore_control) (name : string)
    (sb : option stat) (count_incore : Z) : prog (Z * option stat * Z) :=
  r ← sys_open name;
  match r with
  | Err _ => warn FailedOpen name;; ret (0, sb, count_incore)
  | Ok fd =>
      r ← sys_fstat fd;
      match r with
      | Err e => warn FailedFstat name;; ret (- Z.pos e, sb, count_incore)
      | Ok st =>
          '(rc, count_incore') ←
            (if S_ISDIR (st_mode st) then ret (1, count_incore)
             else if negb (st_size st =? 0)
                  then fincore_fd ctl fd name (st_size st) count_incore
                  else ret (0, count_incore));
          sys_close fd;;
          ret (rc, Some st, count_incore')
      end
  end.

(** *** Output *)

(** [get_column_id]: the three assertions; the loops that call it keep
    [0 <= num < ncolumns]. *)
Definition get_column_id (id : Z) : prog Z :=
  if id <? N_INFOS then ret id else assert_failed.

(** The [for] loop of [add_output_data] over the columns. *)
Fixpoint fill_line (ctl : fincore_control) (columns : list Z) (name : string)
    (file_size : cval) (count_incore : Z) : prog Z :=
  match columns with
  | [] => ret 0
  | c :: rest =>
      id ← get_column_id c;
      if id =? COL_FILE then
        scols_line_set_data (CellName name);;
        fill_line ctl rest name file_size count_incore
      else if id =? COL_PAGES then
        scols_line_set_data (CellDec (Val count_incore));;
        fill_line ctl rest name file_size count_incore
      else if id =? COL_SIZE then
        scols_line_set_data
          (if bytes ctl then CellDec file_size else CellHuman file_size);;
        fill_line ctl rest name file_size count_incore
      else ret (- EINVAL)
  end.

Definition add_output_data (ctl : fincore_control) (columns : list Z)
    (name : string) (file_size : cval) (count_incore : Z) : prog Z :=
  ok ← scols_table_new_line;
  if negb ok then err EXIT_FAILURE FailedLine
  else fill_line ctl columns name file_size count_incore.

(** *** [main] *)

(** [columns] as [main] fills it: [ncolumns] is 0 when [main] starts. *)
Definition columns : list Z := [COL_PAGES; COL_SIZE; COL_FILE].

Definition sb_size (sb : option stat) : cval :=
  match sb with
  | Some st => Val (st_size st)
  | None => Indeterminate
  end.

(** The body of the loop over the arguments; [sb] is not initialised and
    [count_incore] is 0.  Returns the new [rc]. *)
Definition main_body (ctl : fincore_control) (name : string) (rc : Z) : prog Z :=
  '(r, sb, count_incore) ← fincore_name ctl name None 0;
  if r =? 0 then
    add_output_data ctl columns name (sb_size sb) count_incore;;
    ret rc
  else if r =? 1 then ret rc
  else ret EXIT_FAILURE.

Fixpoint main_loop (ctl : fincore_control) (files : list string) (rc : Z) : prog Z :=
  match files with
  | [] => ret rc
  | name :: rest =>
      rc' ← main_body ctl name rc;
      main_loop ctl rest rc'
  end.

Fixpoint new_columns (cols : list Z) : prog unit :=
  match cols with
  | [] => ret tt
  | c :: rest =>
      id ← get_column_id c;
      ok ← scols_alloc (NewColumn id);
      if negb ok then err EXIT_FAILURE FailedColumn
      else new_columns rest
  end.

(** [main], after the options: [files] is [argv\[optind..argc)] and
    [page] what [getpagesize()] returns. *)
Definition main (page : Z) (files : list string) : prog Z :=
  let ctl := {| pagesize := page; bytes := false |} in
  match files with
  | [] => warn NoFileSpecified "";; exit_with EXIT_FAILURE
  | _ =>
      ok ← scols_alloc NewTable;
      if negb ok then err EXIT_FAILURE FailedTable
      else
        new_columns columns;;
        rc ← main_loop ctl files EXIT_SUCCESS;
        scols_print_table;;
        ret rc
  end.

End Program.

Arguments while {W A B} body a s : simpl never.
Arguments fincore_fd {W _} ctl fd name file_size count_incore s : simpl never.

(** ** Column names *)

(** The terminator of a C string. *)
Definition NUL : ascii := Ascii.zero.

(** [tolower] on a byte, in the C locale (and in every locale that agrees
    with it on the ASCII letters). *)
Definition tolower (c : ascii) : ascii :=
  let n := N_of_ascii c in
  if ((65 <=? n) && (n <=? 90))%N then ascii_of_N (n + 32) else c.

(** A [string] stands for the array that holds its characters followed by
    the terminating NUL.  [char_at s i] is the byte at index [i] of that
    array, [None] outside it. *)
Fixpoint char_at (s : string) (i : nat) : option ascii :=
  match s, i with
  | EmptyString, O => Some NUL
  | EmptyString, S _ => None
  | String c _, O => Some c
  | String _ r, S i' => char_at r i'
  end.

(** The byte a pointer into a string points to, and the pointer advanced
    by one byte. *)
Definition first_byte (s : string) : ascii :=
  match s with String c _ => c | EmptyString => NUL end.

Definition after_first (s : string) : string :=
  match s with String _ r => r | EmptyString => EmptyString end.

(** [strncasecmp(s1, s2, n)]: at most [n] bytes are compared, without
    regard to case, and none after a NUL; the result is 0 when no
    difference is found, the difference of the two bytes otherwise. *)
Fixpoint strncasecmp (s1 s2 : string) (n : nat) : Z :=
  match n with
  | O => 0
  | S n' =>
      let c1 := tolower (first_byte s1) in
      let c2 := tolower (first_byte s2) in
      if negb (Ascii.eqb c1 c2)
      then Z.of_N (N_of_ascii c1) - Z.of_N (N_of_ascii c2)
      else if Ascii.eqb (first_byte s1) NUL then 0
      else strncasecmp (after_first s1) (after_first s2) n'
  end.

(** The [name] fields of [infos\[\]], by column id. *)
Definition infos : list string := ["PAGES"; "SIZE"; "FILE"]%string.

(** What a call of [column_name_to_id] does: it returns an id; or it
    warns ("unknown column: name") and returns -1; or it reads
    [infos\[id\].name\[i\]] outside the array of the name, which is
    undefined. *)
Inductive column_lookup : Type :=
| ColumnId (id : Z)
| UnknownColumn (name : string)
| ReadOutside (id : Z) (i : nat).

(** The [for] loop of [column_name_to_id], from column [i] on:
    [if (!strncasecmp(name, cn, namesz) && !*(cn + namesz)) return i;] *)
Fixpoint column_search (cols : list string) (i : Z) (name : string)
    (namesz : nat) : column_lookup :=
  match cols with
  | [] => UnknownColumn name
  | cn :: rest =>
      if strncasecmp name cn namesz =? 0 then
        match char_at cn namesz with
        | Some c =>
            if Ascii.eqb c NUL then ColumnId i
            else column_search rest (i + 1) name namesz
        | None => ReadOutside i namesz
        end
      else column_search rest (i + 1) name namesz
  end.

Definition column_name_to_id (name : string) (namesz : nat) : column_lookup :=
  column_search infos 0 name namesz.


(** ** Reading a run *)

(** [ceil(a / b)] for [0 < b]. *)
Definition ceil_div (a b : Z) : Z := (a + b - 1) / b.

(** The page sizes for which [N_PAGES_IN_WINDOW * pagesize] is an [int]. *)
Definition valid_page (page : Z) : Prop :=
  0 < page ∧ N_PAGES_IN_WINDOW * page ≤ INT_MAX.

(** How the process ends: the exit status, when there is one. *)
Definition exit_status (o : outcome Z) : option Z :=
  match o with
  | Ret rc => Some rc
  | Exit status => Some status
  | Abort | OutOfFuel => None
  end.

Definition is_vec_event (e : event) : bool :=
  match e with
  | EvVecRead _ _ | EvVecWrite _ _ => true
  | _ => false
  end.

(** The indices of [vec] that were read, and those written, in order. *)
Definition vec_reads (evs : list event) : list nat :=
  flat_map (λ e, match e with EvVecRead i _ => [i] | _ => [] end) evs.

Definition vec_writes (evs : list event) : list (nat * Z) :=
  flat_map (λ e, match e with EvVecWrite i v => [(i, v)] | _ => [] end) evs.

(** The windows handed to [mmap], as (offset, length), in order. *)
Definition mmap_windows (evs : list event) : list (Z * Z) :=
  flat_map (λ e, match e with EvMmap _ len _ off _ => [(off, len)] | _ => [] end) evs.

(** The paths handed to [open], in order. *)
Definition opened (evs : list event) : list string :=
  flat_map (λ e, match e with EvOpen name _ => [name] | _ => [] end) evs.

Definition is_open_failure (e : event) : bool :=
  match e with EvOpen _ (Err _) => true | _ => false end.

Definition is_fstat_failure (e : event) : bool :=
  match e with EvFstat _ (Err _) => true | _ => false end.

Definition is_mmap_failure (e : event) : bool :=
  match e with EvMmap _ _ _ _ (Err _) => true | _ => false end.

Definition is_mincore_failure (e : event) : bool :=
  match e with EvMincore _ _ (Err _) => true | _ => false end.

(** The failures that are fatal for a path. *)
Definition is_fatal (e : event) : bool :=
  is_fstat_failure e || is_mmap_failure e || is_mincore_failure e.

(** A libsmartcols allocation that failed. *)
Definition is_alloc_failure (e : event) : bool :=
  match e with EvScols _ false => true | _ => false end.

(** A line added to the output table. *)
Definition is_new_line (e : event) : bool :=
  match e with EvScols NewLine true => true | _ => false end.

Definition is_mmap_warning (e : event) : bool :=
  match e with EvWarn FailedMmap _ => true | _ => false end.

Definition is_diagnostic (e : event) : bool :=
  match e with EvWarn _ _ => true | _ => false end.

Definition count_of (p : event → bool) (evs : list event) : nat :=
  length (List.filter p evs).

(** The mappings established and not released, as (address, length). *)
Definition leak_step (live : list (Z * Z)) (e : event) : list (Z * Z) :=
  match e with
  | EvMmap _ len _ _ (Ok addr) => live ++ [(addr, len)]
  | EvMunmap addr len =>
      List.filter (λ m, negb ((m.1 =? addr) && (m.2 =? len))) live
  | _ => live
  end.

Definition leaked (evs : list event) : list (Z * Z) :=
  fold_left leak_step evs [].

(** Every file met has a size that leaves room for one more window
    before [off_t] overflows. *)
Definition size_ok (ctl : fincore_control) (e : event) : bool :=
  match e with
  | EvFstat _ (Ok st) => st_size st <=? OFF_MAX - window_size ctl
  | _ => true
  end.

(** [ws] are the windows of size [wsize] that tile [\[off, size)]: each
    starts where the one before ends, is not empty, and is as long as
    [wsize] or as what is left of the file. *)
Fixpoint tiles (wsize size off : Z) (ws : list (Z * Z)) : Prop :=
  match ws with
  | [] => size ≤ off
  | (o, len) :: rest =>
      o = off ∧ off < size ∧ len = Z.min wsize (size - off) ∧
      tiles wsize size (off + len) rest
  end.

(** The same without the end: a tiling that may stop early. *)
Fixpoint tiles_prefix (wsize size off : Z) (ws : list (Z * Z)) : Prop :=
  match ws with
  | [] => True
  | (o, len) :: rest =>
      o = off ∧ off < size ∧ len = Z.min wsize (size - off) ∧
      tiles_prefix wsize size (off + len) rest
  end.

(** *** What [count_loop] computes *)

(** [vec\[i\] & 0x1] *)
Definition resident (v : Z) : bool := negb (Z.land v 1 =? 0).

Definition vec_at (vec : list Z) (i : nat) : Z := default 0 (vec !! i).

(** The number of entries below [n] whose lowest bit is set. *)
Definition counted (n : nat) (vec : list Z) : nat :=
  length (List.filter resident (take n vec)).

(** [vec] with those entries set to 0. *)
Definition cleared (n : nat) (vec : list Z) : list Z :=
  imap (λ i v, if (i <? n)%nat && resident v then 0 else v) vec.

(** The value of [*count_incore] after the loop, increments in [off_t]. *)
Fixpoint count_value (n : nat) (c : Z) (vec : list Z) : Z :=
  match n with
  | O => c
  | S n' =>
      if resident (vec_at vec n')
      then count_value n' (to_off_t (c + 1)) vec
      else count_value n' c vec
  end.

(** The accesses to [vec], from index [n - 1] down to 0. *)
Fixpoint vec_events (n : nat) (vec : list Z) : list event :=
  match n with
  | O => []
  | S n' =>
      EvVecRead n' (vec_at vec n') ::
      (if resident (vec_at vec n') then [EvVecWrite n' 0] else []) ++
      vec_events n' vec
  end.

(** *** The events of a scan *)

(** The events of [fincore_fd] on descriptor [fd]: windows that were
    mapped, queried and released, and then the end.  [Some rc]: the loop
    was left with return code [rc], at the end of the file, on a failed
    [mmap] or on a failed [mincore]; [None]: it was still going round. *)
Inductive scan (fd : Z) (name : string) : list event → option Z → Prop :=
| scan_running : scan fd name [] None
| scan_end : scan fd name [] (Some 0)
| scan_mmap_failed hint len off e :
    scan fd name
      [EvMmap hint len fd off (Err e); EvWarn FailedMmap name]
      (Some (- EINVAL))
| scan_mincore_failed hint len off addr e :
    scan fd name
      [EvMmap hint len fd off (Ok addr); EvMincore addr len (Err e);
       EvWarn FailedMincore name]
      (Some (- Z.pos e))
| scan_window hint len off addr vevs rest r :
    forallb is_vec_event vevs = true →
    scan fd name rest r →
    scan fd name
      (EvMmap hint len fd off (Ok addr) :: EvMincore addr len (Ok tt) ::
       vevs ++ EvMunmap addr len :: rest)
      r.

(** The events of [fincore_name] on [name], with its return value: the
    five ways through the function. *)
Inductive path_run (name : string) : list event → Z → option stat → Prop :=
| path_open_failed e :
    path_run name [EvOpen name (Err e); EvWarn FailedOpen name] 0 None
| path_fstat_failed fd e :
    path_run name
      [EvOpen name (Ok fd); EvFstat fd (Err e); EvWarn FailedFstat name]
      (- Z.pos e) None
| path_directory fd st :
    S_ISDIR (st_mode st) = true →
    path_run name
      [EvOpen name (Ok fd); EvFstat fd (Ok st); EvClose fd] 1 (Some st)
| path_empty fd st :
    S_ISDIR (st_mode st) = false →
    st_size st = 0 →
    path_run name
      [EvOpen name (Ok fd); EvFstat fd (Ok st); EvClose fd] 0 (Some st)
| path_scanned fd st evs rc :
    S_ISDIR (st_mode st) = false →
    st_size st ≠ 0 →
    scan fd name evs (Some rc) →
    path_run name
      (EvOpen name (Ok fd) :: EvFstat fd (Ok st) :: evs ++ [EvClose fd])
      rc (Some st).

(** The line of the table for a file: its cells in the order of the
    default columns PAGES, SIZE, FILE. *)
Definition row (ctl : fincore_control) (name : string) (file_size : cval)
    (count_incore : Z) : list cell :=
  [CellDec (Val count_incore);
   (if bytes ctl then CellDec file_size else CellHuman file_size);
   CellName name].

(** The events of [main] before the loop over the arguments, when the
    table and its three columns are allocated. *)
Definition setup_events : list event :=
  [EvScols NewTable true; EvScols (NewColumn COL_PAGES) true;
   EvScols (NewColumn COL_SIZE) true; EvScols (NewColumn COL_FILE) true].

(** In a run with events [e], the path [name] was opened and turned out to
    be a directory; or was opened, was not a directory, and nothing fatal
    happened to it. *)
Definition was_directory (name : string) (e : list event) : Prop :=
  ∃ fd st, In (EvOpen name (Ok fd)) e ∧ In (EvFstat fd (Ok st)) e ∧
           S_ISDIR (st_mode st) = true.

Definition was_scanned (name : string) (e : list event) : Prop :=
  ∃ fd st, In (EvOpen name (Ok fd)) e ∧ In (EvFstat fd (Ok st)) e ∧
           S_ISDIR (st_mode st) = false ∧ existsb is_fatal e = false.

(** What [main] makes of a path: a line of the table, nothing, or a
    failed run. *)
Inductive verdict : Type :=
| RowAdded
| Skipped
| Failed.

(** One path of the argument list, as [main] handles it: the events of
    [fincore_name] on the path, followed by the new line of the table when
    it returned 0; nothing more when it returned 1 (a directory) or a
    negative value (a failure). *)
Inductive one_outcome (name : string) : list event → verdict → Prop :=
| outcome_row pe sb :
    path_run name pe 0 sb →
    one_outcome name (pe ++ [EvScols NewLine true]) RowAdded
| outcome_skipped pe sb :
    path_run name pe 1 sb →
    one_outcome name pe Skipped
| outcome_failed pe r sb :
    r < 0 →
    path_run name pe r sb →
    one_outcome name pe Failed.

Section Rounds.
Context {W : Type} `{!OS W}.

(** The four ways through one round of the loop, entered with [rc = 0]
    and [warned_once = 0]: the end of the file, a failed [mmap], a failed
    [mincore], a window counted and released. *)
Inductive round (ctl : fincore_control) (fd : Z) (name : string)
    (file_size off win c : Z) (s : pstate W)
    : outcome (fd_vars + Z * Z) → list event → pstate W → Prop :=
| round_eof :
    ¬ off < file_size →
    round ctl fd name file_size off win c s (Ret (inr (0, c))) [] s
| round_mmap_failed e w :
    off < file_size →
    os_mmap win (window_len ctl file_size off) fd off (ps_os s) = (Err e, w) →
    round ctl fd name file_size off win c s
      (Ret (inr (- EINVAL, c)))
      [EvMmap win (window_len ctl file_size off) fd off (Err e);
       EvWarn FailedMmap name]
      (set_os w s)
| round_mincore_failed addr w e w' :
    off < file_size →
    os_mmap win (window_len ctl file_size off) fd off (ps_os s) = (Ok addr, w) →
    os_mincore addr (window_len ctl file_size off) (ps_vec s) w = (Err e, w') →
    round ctl fd name file_size off win c s
      (Ret (inr (- Z.pos e, c)))
      [EvMmap win (window_len ctl file_size off) fd off (Ok addr);
       EvMincore addr (window_len ctl file_size off) (Err e);
       EvWarn FailedMincore name]
      (set_os w' s)
| round_window addr w v w' :
    off < file_size →
    os_mmap win (window_len ctl file_size off) fd off (ps_os s) = (Ok addr, w) →
    os_mincore addr (window_len ctl file_size off) (ps_vec s) w = (Ok v, w') →
    let len := window_len ctl file_size off in
    let n := Z.to_nat (page_count ctl len) in
    round ctl fd name file_size off win c s
      (Ret (inl (next_offset ctl off, addr, 0, false, count_value n c v)))
      (EvMmap win len fd off (Ok addr) :: EvMincore addr len (Ok tt) ::
       vec_events n v ++ [EvMunmap addr len])
      (set_os (os_munmap addr len w') (set_vec (cleared n v) s)).

End Rounds.

(** *** More to read from a run *)

(** [strlen]: the number of bytes before the first NUL. *)
Fixpoint strlen (s : string) : nat :=
  match s with
  | EmptyString => O
  | String c r => if Ascii.eqb c NUL then O else S (strlen r)
  end.

(** The string with every byte in lower case. *)
Fixpoint lower (s : string) : string :=
  match s with
  | EmptyString => EmptyString
  | String c r => String (tolower c) (lower r)
  end.

(** A read of [vec] that found the lowest bit set. *)
Definition is_resident_read (e : event) : bool :=
  match e with EvVecRead _ v => resident v | _ => false end.

(** The count that the rounds of the loop of [fincore_fd] leave. *)
Definition count_left (o : outcome (fd_vars + Z * Z)) : option Z :=
  match o with
  | Ret (inl (_, _, _, _, c)) => Some c
  | Ret (inr (_, c)) => Some c
  | _ => None
  end.

(** The descriptors opened and not closed. *)
Definition fd_step (live : list Z) (e : event) : list Z :=
  match e with
  | EvOpen _ (Ok fd) => live ++ [fd]
  | EvClose fd => List.filter (λ x, negb (x =? fd)) live
  | _ => live
  end.

Definition open_fds (evs : list event) : list Z :=
  fold_left fd_step evs [].

(** The descriptors on which [fstat] failed. *)
Definition fstat_failed_fds (evs : list event) : list Z :=
  flat_map (λ e, match e with EvFstat fd (Err _) => [fd] | _ => [] end) evs.

(** The calls that take or give the descriptor of a path. *)
Definition is_fd_event (e : event) : bool :=
  match e with
  | EvOpen _ _ | EvFstat _ _ | EvClose _ => true
  | _ => false
  end.

(** The cell of a line for the column with id [id]. *)
Definition cell_of (ctl : fincore_control) (name : string) (file_size : cval)
    (count_incore : Z) (id : Z) : cell :=
  if id =? COL_FILE then CellName name
  else if id =? COL_PAGES then CellDec (Val count_incore)
  else if bytes ctl then CellDec file_size else CellHuman file_size.

(** The lines of a table with the default columns and the sizes in the
    human-readable form, from the path, the size and the count of each. *)
Definition human_rows (picks : list (string * cval * Z)) : list (list cell) :=
  List.map (λ p, [CellDec (Val p.2); CellHuman p.1.2; CellName p.1.1]) picks.

Section Kernels.
Context {W : Type} `{!OS W}.

(** A kernel that maps every window of [fd] that starts at an offset that
    is not negative and is not empty. *)
Definition mmap_answers (fd : Z) : Prop :=
  ∀ hint len off w, 0 ≤ off → 0 < len →
    ∃ addr w', os_mmap hint len fd off w = (Ok addr, w').

(** A kernel that answers every residency query and reports every page
    resident: every entry of its answer has the lowest bit set. *)
Definition all_resident : Prop :=
  ∀ addr len vec w,
    ∃ v w', os_mincore addr len vec w = (Ok v, w') ∧
            ∀ i, Z.of_nat i < N_PAGES_IN_WINDOW →
                 Z.testbit (vec_at v i) 0 = true.

End Kernels.

(** ** A concrete environment *)

(** A small kernel, enough to run the program: files with a size, a
    mode and a residency byte per page, each of which can be made to fail
    at [open], at [fstat], or from some offset on at [mmap] or [mincore];
    libsmartcols allocates until a budget is spent. *)
Module Toy.

Definition ENOENT : positive := 2%positive.
Definition EBADF : positive := 9%positive.
Definition ENOMEM : positive := 12%positive.
Definition EINVAL : positive := 22%positive.

Record file : Type := {
  f_open : option positive;
  f_fstat : option positive;
  f_mode : Z;
  f_size : Z;
  f_resident : list Z;
  f_mmap_limit : option Z;
  f_mincore_limit : option Z
}.

Record world : Type := {
  w_page : Z;
  w_fs : gmap string file;
  w_fds : gmap Z file;
  w_maps : gmap Z (file * Z);
  w_budget : nat
}.

Definition set_fds (fds : gmap Z file) (w : world) : world :=
  {| w_page := w_page w; w_fs := w_fs w; w_fds := fds;
     w_maps := w_maps w; w_budget := w_budget w |}.

Definition set_maps (maps : gmap Z (file * Z)) (w : world) : world :=
  {| w_page := w_page w; w_fs := w_fs w; w_fds := w_fds w;
     w_maps := maps; w_budget := w_budget w |}.

Definition set_budget (n : nat) (w : world) : world :=
  {| w_page := w_page w; w_fs := w_fs w; w_fds := w_fds w;
     w_maps := w_maps w; w_budget := n |}.

(** The lowest descriptor from 3 on that is not open. *)
Definition fresh_fd (fds : gmap Z file) : Z :=
  default 3
    (List.find (λ fd, bool_decide (fds !! fd = None))
       (List.map (λ i, 3 + Z.of_nat i) (seq 0 (S (size fds))))).

Definition reached (limit : option Z) (off : Z) : bool :=
  match limit with
  | Some l => l <=? off
  | None => false
  end.

Definition open (name : string) (w : world) : sysres Z * world :=
  match w_fs w !! name with
  | None => (Err ENOENT, w)
  | Some f =>
      match f_open f with
      | Some e => (Err e, w)
      | None =>
          let fd := fresh_fd (w_fds w) in
          (Ok fd, set_fds (<[fd := f]> (w_fds w)) w)
      end
  end.

Definition fstat (fd : Z) (w : world) : sysres stat * world :=
  match w_fds w !! fd with
  | None => (Err EBADF, w)
  | Some f =>
      match f_fstat f with
      | Some e => (Err e, w)
      | None => (Ok {| st_mode := f_mode f; st_size := f_size f |}, w)
      end
  end.

Definition MAP_BASE : Z := 2 ^ 40.

Definition mmap (hint len fd off : Z) (w : world) : sysres Z * world :=
  match w_fds w !! fd with
  | None => (Err EBADF, w)
  | Some f =>
      if (len <=? 0) || (off <? 0) || negb (off mod w_page w =? 0)
      then (Err EINVAL, w)
      else if reached (f_mmap_limit f) off then (Err ENOMEM, w)
      else
        let addr := if hint =? 0 then MAP_BASE else hint in
        (Ok addr, set_maps (<[addr := (f, off)]> (w_maps w)) w)
  end.

Definition mincore (addr len : Z) (vec : list Z) (w : world)
    : sysres (list Z) * world :=
  match w_maps w !! addr with
  | None => (Err ENOMEM, w)
  | Some (f, off) =>
      if reached (f_mincore_limit f) off then (Err ENOMEM, w)
      else
        let pages := Z.to_nat ((len + w_page w - 1) / w_page w) in
        let first := Z.to_nat (off / w_page w) in
        let flags :=
          List.map (λ i, default 0 (f_resident f !! (first + i)%nat)) (seq 0 pages) in
        (Ok (flags ++ drop pages vec), w)
  end.

Definition munmap (addr len : Z) (w : world) : world :=
  set_maps (delete addr (w_maps w)) w.

Definition close (fd : Z) (w : world) : world :=
  set_fds (delete fd (w_fds w)) w.

Definition alloc (site : alloc_site) (w : world) : bool * world :=
  match w_budget w with
  | O => (false, w)
  | S n => (true, set_budget n w)
  end.

#[global] Instance toy_os : OS world := {|
  os_open := open;
  os_fstat := fstat;
  os_mmap := mmap;
  os_mincore := mincore;
  os_munmap := munmap;
  os_close := close;
  os_alloc := alloc
|}.

(** The process when [main] starts: nothing open, nothing mapped, [vec]
    zero-initialised, no table. *)
Definition boot (page : Z) (fs : list (string * file)) (budget : nat)
    : pstate world :=
  {| ps_os := {| w_page := page; w_fs := list_to_map fs; w_fds := ∅;
                 w_maps := ∅; w_budget := budget |};
     ps_vec := replicate (Z.to_nat N_PAGES_IN_WINDOW) 0;
     ps_lines := [] |}.

Definition S_IFREG : Z := 32768. (* 0100000 *)

Definition regular (size : Z) (resident : list Z) : file :=
  {| f_open := None; f_fstat := None; f_mode := S_IFREG + 420;
     f_size := size; f_resident := resident;
     f_mmap_limit := None; f_mincore_limit := None |}.

Definition directory : file :=
  {| f_open := None; f_fstat := None; f_mode := S_IFDIR + 493;
     f_size := 4096; f_resident := [];
     f_mmap_limit := None; f_mincore_limit := None |}.

Definition unreadable : file :=
  {| f_open := Some 13%positive; f_fstat := None; f_mode := S_IFREG;
     f_size := 10; f_resident := [];
     f_mmap_limit := None; f_mincore_limit := None |}.

Definition mmap_failing (size limit : Z) (resident : list Z) : file :=
  {| f_open := None; f_fstat := None; f_mode := S_IFREG + 420;
     f_size := size; f_resident := resident;
     f_mmap_limit := Some limit; f_mincore_limit := None |}.

Definition mincore_failing (size limit : Z) (resident : list Z) : file :=
  {| f_open := None; f_fstat := None; f_mode := S_IFREG + 420;
     f_size := size; f_resident := resident;
     f_mmap_limit := None; f_mincore_limit := Some limit |}.

Definition fstat_failing : file :=
  {| f_open := None; f_fstat := Some 5%positive; f_mode := S_IFREG;
     f_size := 10; f_resident := [];
     f_mmap_limit := None; f_mincore_limit := None |}.

(** A process with one file open on [fd], and one with a window of a file
    mapped at [addr]; [vec] holds what earlier windows left there. *)
Definition with_fd (page fd : Z) (f : file) (vec : list Z) : pstate world :=
  {| ps_os := {| w_page := page; w_fs := ∅; w_fds := {[fd := f]};
                 w_maps := ∅; w_budget := 0 |};
     ps_vec := vec;
     ps_lines := [] |}.

Definition with_map (page addr : Z) (f : file) (off : Z) (vec : list Z)
    : pstate world :=
  {| ps_os := {| w_page := page; w_fs := ∅; w_fds := ∅;
                 w_maps := {[addr := (f, off)]}; w_budget := 0 |};
     ps_vec := vec;
     ps_lines := [] |}.

(** A file system with one file of each kind, and a process started on
    it with 4 KiB pages. *)
Definition example_fs : list (string * file) :=
  [("a", regular 10000 [1; 0; 3]); ("d", directory); ("e", regular 0 []);
   ("u", unreadable); ("f", fstat_failing);
   ("m", mmap_failing 5000 0 []); ("q", mincore_failing 5000 0 [])]%string.

Definition example : pstate world := boot 4096 example_fs 100.

Definition ctl4k : fincore_control := {| pagesize := 4096; bytes := false |}.
Definition ctl64k : fincore_control := {| pagesize := 65536; bytes := false |}.

(** What a run shows: the outcome and the events, with the reads and
    writes of [vec] left out. *)
Definition observe {A} (r : outcome A * list event * pstate world)
    : outcome A * list event * list (list cell) :=
  (r.1.1, List.filter (λ e, negb (is_vec_event e)) r.1.2, ps_lines r.2).

(** The runs the theorems are tried on. *)

(** A window of three pages of "a" is mapped; [vec] still holds the
    flags of an earlier, longer window. *)
Definition query_state : pstate world :=
  with_map 4096 MAP_BASE (regular 10000 [1; 0; 3]) 0 [9; 9; 9; 9; 9].

Abbreviation query_run :=
  (do_mincore ctl4k MAP_BASE 10000 "a"%string 0 query_state).

Definition scan_state : pstate world :=
  with_fd 4096 3 (regular 10000 [1; 0; 3]) [0; 0; 0; 0].

Abbreviation scan_run :=
  (fincore_fd ctl4k 3 "a"%string 10000 0 scan_state).

Definition mincore_failure_state : pstate world :=
  with_fd 4096 3 (mincore_failing 5000 0 []) [0; 0; 0; 0].

Abbreviation mincore_failure_run :=
  (fincore_fd ctl4k 3 "q"%string 5000 0 mincore_failure_state).

Abbreviation mmap_failure_round :=
  (main_body ctl4k "m"%string EXIT_SUCCESS example).

Abbreviation mixed_run :=
  (main 4096 ["a"; "missing"; "d"; "e"]%string example).

Abbreviation failing_run :=
  (main 4096 ["f"; "m"; "q"; "e"]%string example).

Abbreviation missing_run :=
  (main 4096 ["missing"]%string example).

Abbreviation empty_file_run :=
  (main 4096 ["d"; "e"]%string example).

End Toy.

(** A second kernel, with no state: it never refuses, and it reports
    every page resident. *)
Module Cached.

Definition mmap (hint len fd off : Z) (w : unit) : sysres Z * unit :=
  (Ok (2 ^ 40 + off), w).

Definition mincore (addr len : Z) (vec : list Z) (w : unit)
    : sysres (list Z) * unit :=
  (Ok (replicate (Z.to_nat N_PAGES_IN_WINDOW) 1), w).

#[global] Instance cached_os : OS unit := {|
  os_open := λ _ w, (Ok 3, w);
  os_fstat := λ _ w, (Ok {| st_mode := 33188; st_size := 10000 |}, w);
  os_mmap := mmap;
  os_mincore := mincore;
  os_munmap := λ _ _ w, w;
  os_close := λ _ w, w;
  os_alloc := λ _ w, (true, w)
|}.

Definition start : pstate unit :=
  {| ps_os := tt; ps_vec := replicate (Z.to_nat N_PAGES_IN_WINDOW) 0;
     ps_lines := [] |}.

End Cached.


(** * Facts *)

(** ** Machine integers *)

Lemma to_size_t_small x : 0 ≤ x < 2 ^ 64 → to_size_t x = x.
Proof. intros Hx. unfold to_size_t, wrap_unsigned. apply Z.mod_small. lia. Qed.

Lemma to_off_t_small x : - 2 ^ 63 ≤ x ≤ OFF_MAX → to_off_t x = x.
Proof.
  unfold to_off_t, wrap_signed, OFF_MAX. intros Hx.
  change (2 ^ (64 - 1)) with (2 ^ 63).
  destruct (Z.neg_nonneg_cases x) as [Hneg | Hpos].
  - replace (x mod 2 ^ 64) with (x + 2 ^ 64).
    + destruct (Z.ltb_spec (x + 2 ^ 64) (2 ^ 63)); lia.
    + apply Z.mod_unique with (q := -1); lia.
  - rewrite Z.mod_small by lia.
    destruct (Z.ltb_spec x (2 ^ 63)); lia.
Qed.

Lemma to_int_small x : - 2 ^ 31 ≤ x ≤ INT_MAX → to_int x = x.
Proof.
  unfold to_int, wrap_signed, INT_MAX. intros Hx.
  change (2 ^ (32 - 1)) with (2 ^ 31).
  destruct (Z.neg_nonneg_cases x) as [Hneg | Hpos].
  - replace (x mod 2 ^ 32) with (x + 2 ^ 32).
    + destruct (Z.ltb_spec (x + 2 ^ 32) (2 ^ 31)); lia.
    + apply Z.mod_unique with (q := -1); lia.
  - rewrite Z.mod_small by lia.
    destruct (Z.ltb_spec x (2 ^ 31)); lia.
Qed.

(** For a valid page size the window is [N_PAGES_IN_WINDOW] pages. *)
Lemma window_size_valid ctl :
  valid_page (pagesize ctl) →
  window_size ctl = N_PAGES_IN_WINDOW * pagesize ctl.
Proof.
  intros [Hpos Hmax]. unfold window_size.
  assert (0 < N_PAGES_IN_WINDOW * pagesize ctl) by (unfold N_PAGES_IN_WINDOW; lia).
  rewrite to_int_small by (unfold INT_MAX in *; lia).
  apply to_size_t_small. unfold INT_MAX in *. lia.
Qed.

Lemma ceil_div_exact a b : 0 < b → 0 ≤ a →
  a / b + (if negb (a mod b =? 0) then 1 else 0) = ceil_div a b.
Proof.
  intros Hb Ha. unfold ceil_div.
  pose proof (Z.div_mod a b ltac:(lia)) as Hdm.
  pose proof (Z.mod_pos_bound a b Hb) as Hm.
  destruct (Z.eqb_spec (a mod b) 0) as [Hz | Hnz]; simpl.
  - apply Z.div_unique with (r := b - 1); lia.
  - apply Z.div_unique with (r := a mod b - 1); lia.
Qed.

Lemma ceil_div_bounds a b : 0 < b → 0 ≤ a →
  0 ≤ ceil_div a b ∧ a ≤ b * ceil_div a b < a + b.
Proof.
  intros Hb Ha. unfold ceil_div.
  pose proof (Z.div_mod (a + b - 1) b ltac:(lia)) as Hdm.
  pose proof (Z.mod_pos_bound (a + b - 1) b Hb) as Hm.
  split; [apply Z.div_pos; lia | lia].
Qed.

Lemma ceil_div_add a b k : 0 < b →
  ceil_div (a + k * b) b = ceil_div a b + k.
Proof.
  intros Hb. unfold ceil_div.
  replace (a + k * b + b - 1) with (a + b - 1 + k * b) by lia.
  apply Z.div_add. lia.
Qed.

Lemma ceil_div_mono a a' b : 0 < b → a ≤ a' → ceil_div a b ≤ ceil_div a' b.
Proof. intros Hb Ha. unfold ceil_div. apply Z.div_le_mono; lia. Qed.

(** [page_count] is the number of pages of a window. *)
Lemma page_count_ceil ctl len :
  0 < pagesize ctl → N_PAGES_IN_WINDOW * pagesize ctl ≤ 2 ^ 63 →
  0 ≤ len ≤ N_PAGES_IN_WINDOW * pagesize ctl →
  page_count ctl len = ceil_div len (pagesize ctl) ∧
  0 ≤ page_count ctl len ≤ N_PAGES_IN_WINDOW.
Proof.
  intros Hpos Hmax Hlen. unfold page_count.
  assert (Hps : to_size_t (pagesize ctl) = pagesize ctl).
  { apply to_size_t_small. unfold N_PAGES_IN_WINDOW in *. lia. }
  rewrite Hps, ceil_div_exact by lia.
  pose proof (ceil_div_bounds len (pagesize ctl) Hpos ltac:(lia)) as [H0 H1].
  assert (ceil_div len (pagesize ctl) ≤ N_PAGES_IN_WINDOW).
  { transitivity (ceil_div (N_PAGES_IN_WINDOW * pagesize ctl) (pagesize ctl)).
    - apply ceil_div_mono; lia.
    - unfold ceil_div. apply Z.eq_le_incl. symmetry.
      apply Z.div_unique with (r := pagesize ctl - 1); lia. }
  rewrite to_size_t_small by (unfold N_PAGES_IN_WINDOW in *; lia).
  rewrite to_int_small by (unfold N_PAGES_IN_WINDOW, INT_MAX in *; lia).
  lia.
Qed.

(** ** Computations *)

Section Computations.
Context {W : Type}.
Implicit Types s : pstate W.

Lemma bind_ret_l {A B} (a : A) (f : A → prog W B) s : bind (ret a) f s = f a s.
Proof. unfold bind, ret. by destruct (f a s) as [[o e] s']. Qed.

Lemma bind_ret_r {A} (m : prog W A) s : bind m ret s = m s.
Proof.
  unfold bind, ret. destruct (m s) as [[[a | c | |] e] s']; try done.
  by rewrite app_nil_r.
Qed.

Lemma bind_assoc {A B C} (m : prog W A) (f : A → prog W B) (g : B → prog W C) s :
  bind (bind m f) g s = bind m (λ a, bind (f a) g) s.
Proof.
  unfold bind. destruct (m s) as [[[a | c | |] e1] s1]; try done.
  destruct (f a s1) as [[[b | c | |] e2] s2]; try done.
  destruct (g b s2) as [[o e3] s3]. by rewrite app_assoc.
Qed.

Lemma bind_ext {A B} (m : prog W A) (f g : A → prog W B) s :
  (∀ a s1, f a s1 = g a s1) → bind m f s = bind m g s.
Proof.
  intros Hfg. unfold bind. destruct (m s) as [[[a | c | |] e1] s1]; try done.
  by rewrite Hfg.
Qed.

(** A computation that returns, followed by another. *)
Lemma bind_run {A B} (m : prog W A) (f : A → prog W B) s a e1 s1 :
  m s = (Ret a, e1, s1) →
  bind m f s = (let '(o, e2, s2) := f a s1 in (o, e1 ++ e2, s2)).
Proof. intros Hm. unfold bind. by rewrite Hm. Qed.

(** The two ways [bind m f] can end: [m] returned and [f] went on, or [m]
    did not return. *)
Lemma bind_inv {A B} (m : prog W A) (f : A → prog W B) s o evs s' :
  bind m f s = (o, evs, s') →
  (∃ a e1 s1 e2, m s = (Ret a, e1, s1) ∧ f a s1 = (o, e2, s') ∧ evs = e1 ++ e2) ∨
  ((∀ b, o ≠ Ret b) ∧
   match o with
   | Ret _ => False
   | Exit c => m s = (Exit c, evs, s')
   | Abort => m s = (Abort, evs, s')
   | OutOfFuel => m s = (OutOfFuel, evs, s')
   end).
Proof.
  unfold bind. destruct (m s) as [[[a | c | |] e1] s1]; intros Heq.
  - left. destruct (f a s1) as [[o2 e2] s2] eqn:Hf.
    inversion Heq; subst. by exists a, e1, s1, e2.
  - right. by inversion Heq; subst.
  - right. by inversion Heq; subst.
  - right. by inversion Heq; subst.
Qed.

(** *** Loops *)

Lemma iter_nat_S {A B} n (body : A → prog W (A + B)) a s :
  iter_nat (S n) body a s = bind (body a) (continue_with n body) s.
Proof. reflexivity. Qed.

Lemma iter_nat_add {A B} n m (body : A → prog W (A + B)) a s :
  iter_nat (n + m) body a s =
  bind (iter_nat n body a) (continue_with m body) s.
Proof.
  revert a s. induction n as [| n IH]; intros a s.
  - simpl. by rewrite bind_ret_l.
  - change (iter_nat (S n + m) body a s)
      with (bind (body a) (continue_with (n + m) body) s).
    change (iter_nat (S n) body a) with (bind (body a) (continue_with n body)).
    rewrite bind_assoc.
    apply bind_ext. intros [a' | b] s1; simpl.
    + apply IH.
    + by rewrite bind_ret_l.
Qed.

Lemma iter_pos_nat {A B} p (body : A → prog W (A + B)) a s :
  iter_pos p body a s = iter_nat (Pos.to_nat p) body a s.
Proof.
  revert a s. induction p as [q IH | q IH |]; intros a s.
  - rewrite Pos2Nat.inj_xI. simpl iter_pos.
    replace (S (2 * Pos.to_nat q)) with (S (Pos.to_nat q + Pos.to_nat q)) by lia.
    rewrite iter_nat_S. apply bind_ext. intros [a' | b] s1; simpl; [| done].
    rewrite iter_nat_add. unfold bind. rewrite IH.
    destruct (iter_nat (Pos.to_nat q) body a' s1) as [[[[a'' | b] | c | |] e1] s2];
      try done.
    simpl. by rewrite IH.
  - rewrite Pos2Nat.inj_xO. simpl iter_pos.
    replace (2 * Pos.to_nat q)%nat with (Pos.to_nat q + Pos.to_nat q)%nat by lia.
    rewrite iter_nat_add. unfold bind. rewrite IH.
    destruct (iter_nat (Pos.to_nat q) body a s) as [[[[a'' | b] | c | |] e1] s2];
      try done.
    simpl. by rewrite IH.
  - simpl. symmetry. etransitivity; [| apply bind_ret_r].
    apply bind_ext. by intros [a' | b] s1.
Qed.

(** Once the loop is left, more rounds change nothing. *)
Lemma iter_nat_left {A B} n m (body : A → prog W (A + B)) a s b e s' :
  iter_nat n body a s = (Ret (inr b), e, s') →
  iter_nat (n + m) body a s = (Ret (inr b), e, s').
Proof.
  intros Hn. rewrite iter_nat_add, (bind_run _ _ _ _ _ _ Hn). simpl.
  by rewrite app_nil_r.
Qed.

(** A loop that is left within the bound returns what it was left with. *)
Lemma while_left {A B} n (body : A → prog W (A + B)) a s b e s' :
  (n ≤ Pos.to_nat LOOP_BOUND)%nat →
  iter_nat n body a s = (Ret (inr b), e, s') →
  while body a s = (Ret b, e, s').
Proof.
  intros Hle Hn. unfold while.
  assert (Hrun : iter_pos LOOP_BOUND body a s = (Ret (inr b), e, s')).
  { rewrite iter_pos_nat.
    replace (Pos.to_nat LOOP_BOUND) with (n + (Pos.to_nat LOOP_BOUND - n))%nat by lia.
    by apply iter_nat_left. }
  rewrite (bind_run _ _ _ _ _ _ Hrun). simpl. by rewrite app_nil_r.
Qed.

(** What a loop ends with, from what its rounds end with. *)
Lemma while_inv {A B} (body : A → prog W (A + B)) a s o e s' :
  while body a s = (o, e, s') →
  ∃ r, iter_nat (Pos.to_nat LOOP_BOUND) body a s = (r, e, s') ∧
       match r with
       | Ret (inr b) => o = Ret b
       | Ret (inl _) => o = OutOfFuel
       | Exit c => o = Exit c
       | Abort => o = Abort
       | OutOfFuel => o = OutOfFuel
       end.
Proof.
  unfold while. rewrite <- iter_pos_nat. unfold bind.
  destruct (iter_pos LOOP_BOUND body a s) as [[[[a' | b] | c | |] e1] s1];
    simpl; intros Heq; inversion Heq; subst; rewrite ?app_nil_r;
    (eexists; split; [reflexivity | done]).
Qed.

End Computations.

(** ** The counting loop *)

Lemma vec_at_insert_ne (vec : list Z) i n x :
  i ≠ n → vec_at (<[n := x]> vec) i = vec_at vec i.
Proof. intros Hne. unfold vec_at. by rewrite list_lookup_insert_ne. Qed.

Lemma resident_0 : resident 0 = false.
Proof. reflexivity. Qed.

Lemma count_value_ext n c (v1 v2 : list Z) :
  (∀ i, (i < n)%nat → vec_at v1 i = vec_at v2 i) →
  count_value n c v1 = count_value n c v2.
Proof.
  revert c. induction n as [| n IH]; intros c Hv; [done |].
  simpl. rewrite (Hv n) by lia.
  destruct (resident (vec_at v2 n)); apply IH; intros i Hi; apply Hv; lia.
Qed.

Lemma vec_events_ext n (v1 v2 : list Z) :
  (∀ i, (i < n)%nat → vec_at v1 i = vec_at v2 i) →
  vec_events n v1 = vec_events n v2.
Proof.
  induction n as [| n IH]; intros Hv; [done |].
  simpl. rewrite (Hv n) by lia. do 2 f_equal.
  apply IH. intros i Hi. apply Hv. lia.
Qed.

Lemma cleared_0 (vec : list Z) : cleared 0 vec = vec.
Proof.
  apply list_eq. intros i. unfold cleared. rewrite list_lookup_imap.
  by destruct (vec !! i).
Qed.

Lemma cleared_S_resident n (vec : list Z) :
  resident (vec_at vec n) = true →
  cleared n (<[n := 0]> vec) = cleared (S n) vec.
Proof.
  intros Hres. apply list_eq. intros i. unfold cleared.
  rewrite !list_lookup_imap.
  destruct (decide (i = n)) as [-> | Hne].
  - destruct (vec !! n) as [v |] eqn:Hv.
    + rewrite list_lookup_insert_eq by (by eapply lookup_lt_Some).
      unfold vec_at in Hres. rewrite Hv in Hres. simpl in Hres. simpl.
      rewrite Hres, Nat.ltb_irrefl.
      by replace (n <? S n)%nat with true by (symmetry; apply Nat.ltb_lt; lia).
    + rewrite list_insert_ge by (by apply lookup_ge_None). by rewrite Hv.
  - rewrite list_lookup_insert_ne by done.
    destruct (vec !! i) as [v |]; [| done]. simpl. do 2 f_equal.
    destruct (Nat.ltb_spec i n), (Nat.ltb_spec i (S n)); (done || lia).
Qed.

Lemma cleared_S_absent n (vec : list Z) :
  resident (vec_at vec n) = false →
  cleared n vec = cleared (S n) vec.
Proof.
  intros Hres. apply list_eq. intros i. unfold cleared.
  rewrite !list_lookup_imap.
  destruct (vec !! i) as [v |] eqn:Hv; [| done]. simpl. f_equal.
  destruct (decide (i = n)) as [-> | Hne].
  - unfold vec_at in Hres. rewrite Hv in Hres. simpl in Hres.
    by rewrite Hres, !andb_false_r.
  - destruct (Nat.ltb_spec i n), (Nat.ltb_spec i (S n)); (done || lia).
Qed.

(** What the loop leaves in [vec], entry by entry: 0 where an entry below
    [n] had its lowest bit set, the entry as it was everywhere else. *)
Lemma cleared_lookup n (vec : list Z) i :
  cleared n vec !! i =
  (λ v, if (i <? n)%nat && resident v then 0 else v) <$> vec !! i.
Proof. unfold cleared. by rewrite list_lookup_imap. Qed.

Lemma counted_S n (vec : list Z) :
  counted (S n) vec =
  (counted n vec + (if resident (vec_at vec n) then 1 else 0))%nat.
Proof.
  unfold counted, vec_at. destruct (vec !! n) as [v |] eqn:Hv.
  - rewrite (take_S_r _ _ _ Hv), List.filter_app, length_app. simpl.
    by destruct (resident v).
  - apply lookup_ge_None in Hv. rewrite !take_ge by lia. simpl. lia.
Qed.

Lemma counted_le n (vec : list Z) : (counted n vec ≤ n)%nat.
Proof.
  induction n as [| n IH]; [done |].
  rewrite counted_S. destruct (resident _); lia.
Qed.

(** Without overflow of [off_t], the loop adds the number of entries
    below [n] whose lowest bit is set. *)
Lemma count_value_counted n c (vec : list Z) :
  0 ≤ c → c + Z.of_nat n ≤ OFF_MAX →
  count_value n c vec = c + Z.of_nat (counted n vec).
Proof.
  revert c. induction n as [| n IH]; intros c Hc Hmax.
  - unfold counted. simpl. lia.
  - simpl count_value. rewrite counted_S.
    destruct (resident (vec_at vec n)).
    + rewrite to_off_t_small by (unfold OFF_MAX in *; lia).
      rewrite IH by lia. lia.
    + rewrite IH by lia. lia.
Qed.

Section Scan.
Context {W : Type} `{!OS W}.
Implicit Types s : pstate W.

Lemma set_vec_twice (v1 v2 : list Z) s : set_vec v1 (set_vec v2 s) = set_vec v1 s.
Proof. done. Qed.

Lemma set_vec_same s : set_vec (ps_vec s) s = s.
Proof. by destruct s. Qed.

(** One run of the counting loop: its result, its accesses to [vec] and
    what it leaves there. *)
Lemma count_loop_run n c s :
  count_loop n c s =
  (Ret (count_value n c (ps_vec s)),
   vec_events n (ps_vec s),
   set_vec (cleared n (ps_vec s)) s).
Proof.
  revert c s. induction n as [| n IH]; intros c s.
  - simpl. unfold ret. by rewrite cleared_0, set_vec_same.
  - simpl count_loop. unfold bind at 1. unfold vec_read at 1.
    fold (vec_at (ps_vec s) n). fold (resident (vec_at (ps_vec s) n)).
    simpl. destruct (resident (vec_at (ps_vec s) n)) eqn:Hres.
    + unfold bind, vec_write. rewrite IH. simpl.
      rewrite (count_value_ext n _ (<[n := 0]> (ps_vec s)) (ps_vec s)),
        (vec_events_ext n (<[n := 0]> (ps_vec s)) (ps_vec s)),
        cleared_S_resident; try done;
        intros i Hi; apply vec_at_insert_ne; lia.
    + rewrite IH. by rewrite cleared_S_absent.
Qed.

Lemma do_mincore_failed ctl window len name c s e w :
  os_mincore window len (ps_vec s) (ps_os s) = (Err e, w) →
  do_mincore ctl window len name c s =
  (Ret (- Z.pos e, c),
   [EvMincore window len (Err e); EvWarn FailedMincore name],
   set_os w s).
Proof.
  intros Hos. unfold do_mincore, bind, sys_mincore. by rewrite Hos.
Qed.

Lemma do_mincore_ok ctl window len name c s v w :
  os_mincore window len (ps_vec s) (ps_os s) = (Ok v, w) →
  do_mincore ctl window len name c s =
  (Ret (0, count_value (Z.to_nat (page_count ctl len)) c v),
   EvMincore window len (Ok tt) :: vec_events (Z.to_nat (page_count ctl len)) v,
   set_vec (cleared (Z.to_nat (page_count ctl len)) v) (set_os w s)).
Proof.
  intros Hos. unfold do_mincore, bind, sys_mincore. rewrite Hos.
  rewrite count_loop_run. simpl. by rewrite app_nil_r.
Qed.

End Scan.

(** ** The scan of one file *)

Section ScanFacts.
Context {W : Type} `{!OS W}.
Implicit Types s : pstate W.

(** One round of the loop goes one of the four ways of [round]. *)
Lemma fincore_fd_body_round ctl fd name fs off win c s o e s' :
  fincore_fd_body ctl fd name fs (off, win, 0, false, c) s = (o, e, s') →
  round ctl fd name fs off win c s o e s'.
Proof.
  unfold fincore_fd_body.
  destruct (Z.ltb_spec off fs) as [Hlt | Hge].
  - unfold bind at 1. unfold sys_mmap at 1.
    destruct (os_mmap win (window_len ctl fs off) fd off (ps_os s))
      as [[addr | err] w] eqn:Hmmap.
    + destruct (os_mincore addr (window_len ctl fs off) (ps_vec s) w)
        as [[v | err] w'] eqn:Hmc.
      * unfold bind at 1.
        rewrite (do_mincore_ok _ _ _ _ _ _ v w') by done.
        simpl. intros Heq. inversion Heq; subst.
        by apply (round_window _ _ _ _ _ _ _ s addr w v w').
      * unfold bind at 1.
        rewrite (do_mincore_failed _ _ _ _ _ _ err w') by done.
        simpl. intros Heq. inversion Heq; subst.
        change (set_os w' (set_os w s)) with (set_os w' s).
        by eapply round_mincore_failed.
    + simpl. intros Heq. inversion Heq; subst. by apply round_mmap_failed.
  - intros Heq. inversion Heq; subst. apply round_eof. lia.
Qed.

Lemma forallb_vec_events n (v : list Z) :
  forallb is_vec_event (vec_events n v) = true.
Proof.
  induction n as [| n IH]; [done |]. simpl.
  destruct (resident (vec_at v n)); simpl; exact IH.
Qed.

(** Whatever the kernel answers and however the offsets wrap, the events
    of the loop are those of [scan]. *)
Lemma rounds_scan ctl fd name fs n off win c s o e s' :
  iter_nat n (fincore_fd_body ctl fd name fs) (off, win, 0, false, c) s
    = (o, e, s') →
  match o with
  | Ret (inl (_, _, rc, warned_once, _)) =>
      rc = 0 ∧ warned_once = false ∧ scan fd name e None
  | Ret (inr (rc, _)) => scan fd name e (Some rc)
  | _ => False
  end.
Proof.
  revert off win c s o e s'. induction n as [| n IH]; intros off win c s o e s'.
  - simpl. intros Heq. inversion Heq; subst. repeat split. constructor.
  - rewrite iter_nat_S. intros Hrun.
    destruct (fincore_fd_body ctl fd name fs (off, win, 0, false, c) s)
      as [[o1 e1] s1] eqn:Hbody.
    pose proof (fincore_fd_body_round _ _ _ _ _ _ _ _ _ _ _ Hbody) as Hround.
    unfold bind in Hrun. rewrite Hbody in Hrun.
    destruct Hround as [Hge | err w Hlt Hmmap | addr w err w' Hlt Hmmap Hmc
                        | addr w v w' Hlt Hmmap Hmc len k].
    + simpl in Hrun. inversion Hrun; subst. constructor.
    + simpl in Hrun. inversion Hrun; subst. constructor.
    + simpl in Hrun. inversion Hrun; subst. constructor.
    + simpl in Hrun.
      destruct (iter_nat n _ _ _) as [[o2 e2] s2] eqn:Hrest in Hrun.
      apply IH in Hrest. inversion Hrun; subst.
      assert (Hshape : ∀ r, scan fd name e2 r →
                scan fd name
                  (EvMmap win len fd off (Ok addr) :: EvMincore addr len (Ok tt)
                   :: (vec_events k v ++ [EvMunmap addr len]) ++ e2) r).
      { intros r Hr. rewrite <- app_assoc. simpl.
        apply scan_window; [apply forallb_vec_events | done]. }
      destruct o as [[[[[[off2 win2] rc2] wo2] c2] | [rc2 c2]] | | |];
        try done.
      * destruct Hrest as (-> & -> & Hscan). auto.
      * auto.
Qed.

(** The events of [fincore_fd]. *)
Lemma fincore_fd_scan ctl fd name fs c s o e s' :
  fincore_fd ctl fd name fs c s = (o, e, s') →
  match o with
  | Ret (rc, _) => scan fd name e (Some rc)
  | OutOfFuel => scan fd name e None
  | _ => False
  end.
Proof.
  unfold fincore_fd. intros Hrun.
  apply while_inv in Hrun as (r & Hiter & Hr).
  apply rounds_scan in Hiter.
  destruct r as [[[[[[off2 win2] rc2] wo2] c2] | [rc2 c2]] | | |]; subst;
    try done.
  by destruct Hiter as (_ & _ & ?).
Qed.


(** *** Arithmetic of the windows, for a valid page size *)

Lemma window_len_valid ctl fs off :
  valid_page (pagesize ctl) → 0 ≤ off < fs → fs ≤ OFF_MAX →
  window_len ctl fs off = Z.min (window_size ctl) (fs - off).
Proof.
  intros Hpage Hoff Hfs. unfold window_len.
  rewrite to_off_t_small by (unfold OFF_MAX in *; lia).
  rewrite to_size_t_small by (unfold OFF_MAX in *; lia).
  destruct (Z.leb_spec (window_size ctl) (fs - off)); lia.
Qed.

Lemma next_offset_valid ctl fs off :
  valid_page (pagesize ctl) → 0 ≤ off < fs → fs ≤ OFF_MAX - window_size ctl →
  next_offset ctl off = off + window_size ctl.
Proof.
  intros Hpage Hoff Hfs. unfold next_offset.
  pose proof (window_size_valid ctl Hpage) as HW.
  destruct Hpage as [Hpos Hmax]. unfold N_PAGES_IN_WINDOW, INT_MAX, OFF_MAX in *.
  rewrite (to_size_t_small off) by lia.
  rewrite to_size_t_small by lia.
  apply to_off_t_small. unfold OFF_MAX. lia.
Qed.

Lemma ceil_div_0 b : 0 < b → ceil_div 0 b = 0.
Proof. intros Hb. unfold ceil_div. apply Z.div_small. lia. Qed.

Lemma ceil_div_pages b : 0 < b →
  ceil_div (N_PAGES_IN_WINDOW * b) b = N_PAGES_IN_WINDOW.
Proof.
  intros Hb. rewrite <- (Z.add_0_l (_ * _)), ceil_div_add, ceil_div_0 by done.
  lia.
Qed.

(** The pages of a window and those of what follows it are the pages of
    the whole. *)
Lemma pages_split b d :
  0 < b → 0 < d →
  ceil_div (Z.min (N_PAGES_IN_WINDOW * b) d) b
  + ceil_div (Z.max 0 (d - N_PAGES_IN_WINDOW * b)) b
  = ceil_div d b.
Proof.
  intros Hb Hd. destruct (Z.le_gt_cases d (N_PAGES_IN_WINDOW * b)) as [Hle | Hgt].
  - rewrite Z.min_r, Z.max_l, ceil_div_0 by lia. lia.
  - rewrite Z.min_l, Z.max_r, ceil_div_pages by lia.
    rewrite Z.add_comm, <- ceil_div_add by done. f_equal. lia.
Qed.

Lemma mmap_windows_vec_events n (v : list Z) : mmap_windows (vec_events n v) = [].
Proof.
  induction n as [| n IH]; [done |]. simpl.
  destruct (resident (vec_at v n)); simpl; exact IH.
Qed.

Lemma tiles_prefix_end wsize size off ws :
  size ≤ off → tiles_prefix wsize size off ws → ws = [].
Proof. destruct ws as [| [o len] rest]; [done |]. simpl. lia. Qed.

Lemma iter_nat_S_left {A B} k (body : A → prog W (A + B)) a s b e s' :
  body a s = (Ret (inr b), e, s') →
  iter_nat (S k) body a s = (Ret (inr b), e, s').
Proof.
  intros Hbody. rewrite iter_nat_S, (bind_run _ _ _ _ _ _ Hbody). simpl.
  by rewrite app_nil_r.
Qed.

(** For a valid page size and a file that ends a window before [off_t]
    does, [k + 1] rounds are enough when no more than [k] windows are
    left; the loop is left, the windows mapped are a tiling from [off] on,
    cut short only by a failure, and the count grows by no more than the
    pages left. *)
Lemma rounds_tile ctl fd name fs :
  valid_page (pagesize ctl) → fs ≤ OFF_MAX - window_size ctl →
  ∀ k off win c s,
    0 ≤ off → fs - off ≤ Z.of_nat k * window_size ctl →
    0 ≤ c → c + ceil_div (Z.max 0 (fs - off)) (pagesize ctl) ≤ OFF_MAX →
    ∃ rc c' e s',
      iter_nat (S k) (fincore_fd_body ctl fd name fs) (off, win, 0, false, c) s
        = (Ret (inr (rc, c')), e, s') ∧
      tiles_prefix (window_size ctl) fs off (mmap_windows e) ∧
      (rc = 0 → tiles (window_size ctl) fs off (mmap_windows e)) ∧
      c ≤ c' ≤ c + ceil_div (Z.max 0 (fs - off)) (pagesize ctl).
Proof.
  intros Hpage Hfs.
  pose proof (window_size_valid ctl Hpage) as HW.
  assert (Hps : 0 < pagesize ctl) by apply Hpage.
  assert (HWpos : 0 < window_size ctl)
    by (rewrite HW; unfold N_PAGES_IN_WINDOW; lia).
  assert (HWmax : window_size ctl ≤ INT_MAX) by (rewrite HW; apply Hpage).
  assert (Hlenv : ∀ off, 0 ≤ off < fs →
            window_len ctl fs off = Z.min (window_size ctl) (fs - off)).
  { intros off Hoff. apply window_len_valid; try done.
    unfold INT_MAX, OFF_MAX in *. lia. }
  intros k. induction k as [| k IH]; intros off win c s Hoff Hleft Hc Hcmax;
    pose proof (ceil_div_bounds (Z.max 0 (fs - off)) (pagesize ctl) Hps ltac:(lia))
      as [Hpages _];
    destruct (fincore_fd_body ctl fd name fs (off, win, 0, false, c) s)
      as [[o1 e1] s1] eqn:Hbody;
    pose proof (fincore_fd_body_round _ _ _ _ _ _ _ _ _ _ _ Hbody) as Hround;
    destruct Hround as [Hge | err w Hlt Hmmap | addr w err w' Hlt Hmmap Hmc
                        | addr w v w' Hlt Hmmap Hmc].
  1, 5: eexists _, _, _, _; split; [by apply iter_nat_S_left |]; simpl;
    repeat split; (done || lia).
  1, 2, 4, 5: eexists _, _, _, _; split; [by apply iter_nat_S_left |]; simpl;
    rewrite Hlenv by lia; repeat split; try done; unfold EINVAL; lia.
  - lia.
  - subst len n. rewrite Hlenv in * by lia.
    set (len := Z.min (window_size ctl) (fs - off)) in *.
    set (n := Z.to_nat (page_count ctl len)) in *.
    assert (Hlendef : len = Z.min (window_size ctl) (fs - off)) by done.
    assert (Hndef : n = Z.to_nat (page_count ctl len)) by done.
    clearbody n len.
    assert (Hlen : 0 < len ≤ N_PAGES_IN_WINDOW * pagesize ctl)
      by (rewrite <- HW; lia).
    destruct (page_count_ceil ctl len Hps) as [Hn Hnmax];
      [unfold INT_MAX in *; lia | lia |].
    pose proof (pages_split (pagesize ctl) (fs - off) Hps ltac:(lia)) as Hsplit.
    rewrite <- HW, <- Hlendef in Hsplit.
    rewrite Z.max_r in Hcmax, Hpages |- * by lia.
    pose proof (ceil_div_bounds (Z.max 0 (fs - off - window_size ctl))
                  (pagesize ctl) Hps ltac:(lia)) as [Hrest _].
    pose proof (counted_le n v) as Hcounted.
    assert (Hnz : Z.of_nat n = ceil_div len (pagesize ctl))
      by (rewrite Hndef, Z2Nat.id; lia).
    assert (Hval : count_value n c v = c + Z.of_nat (counted n v))
      by (apply count_value_counted; lia).
    destruct (IH (off + window_size ctl) addr (count_value n c v)
                (set_os (os_munmap addr len w') (set_vec (cleared n v) s)))
      as (rc & c' & e2 & s2 & Hrun & Hpre & Htiles & Hcount).
    + lia.
    + rewrite Nat2Z.inj_succ in Hleft. lia.
    + lia.
    + replace (fs - (off + window_size ctl)) with (fs - off - window_size ctl)
        by lia. lia.
    + rewrite (next_offset_valid ctl fs off) in Hbody by (done || lia).
      replace (fs - (off + window_size ctl)) with (fs - off - window_size ctl)
        in Hcount by lia.
      assert (Hws : ∀ e2, mmap_windows
                (EvMmap win len fd off (Ok addr) :: EvMincore addr len (Ok tt)
                 :: (vec_events n v ++ [EvMunmap addr len]) ++ e2)
                = (off, len) :: mmap_windows e2).
      { intros e. unfold mmap_windows. simpl. rewrite !flat_map_app.
        fold (mmap_windows (vec_events n v)).
        by rewrite mmap_windows_vec_events. }
      eexists rc, c', _, s2.
      split; [| split; [| split]].
      * rewrite iter_nat_S, (bind_run _ _ _ _ _ _ Hbody).
        unfold continue_with. cbv beta iota. by rewrite Hrun.
      * rewrite <- app_comm_cons, <- app_comm_cons, Hws. simpl.
        repeat split; try done.
        destruct (Z.le_gt_cases (window_size ctl) (fs - off)).
        -- by replace (off + len) with (off + window_size ctl) by lia.
        -- assert (mmap_windows e2 = []) as ->
             by (eapply tiles_prefix_end; [| exact Hpre]; lia).
           done.
      * intros Hrc. specialize (Htiles Hrc).
        rewrite <- app_comm_cons, <- app_comm_cons, Hws. simpl.
        repeat split; try done.
        destruct (Z.le_gt_cases (window_size ctl) (fs - off)).
        -- by replace (off + len) with (off + window_size ctl) by lia.
        -- assert (mmap_windows e2 = []) as ->
             by (eapply tiles_prefix_end; [| exact Hpre]; lia).
           simpl. lia.
      * lia.
Qed.


Lemma loop_bound_nat : Z.of_nat (Pos.to_nat LOOP_BOUND) = 2 ^ 64.
Proof. rewrite positive_nat_Z. reflexivity. Qed.

(** [fincore_fd] returns: for a valid page size and a file that ends a
    window before [off_t] does, the loop is left within the bound of the
    model, whatever the kernel answers. *)
Lemma fincore_fd_returns ctl fd name fs c s :
  valid_page (pagesize ctl) → fs ≤ OFF_MAX - window_size ctl →
  0 ≤ c → c + ceil_div (Z.max 0 fs) (pagesize ctl) ≤ OFF_MAX →
  ∃ rc c' e s',
    fincore_fd ctl fd name fs c s = (Ret (rc, c'), e, s') ∧
    tiles_prefix (window_size ctl) fs 0 (mmap_windows e) ∧
    (rc = 0 → tiles (window_size ctl) fs 0 (mmap_windows e)) ∧
    c ≤ c' ≤ c + ceil_div (Z.max 0 fs) (pagesize ctl).
Proof.
  intros Hpage Hfs Hc Hcmax.
  pose proof (window_size_valid ctl Hpage) as HW.
  assert (HWpos : 0 < window_size ctl)
    by (rewrite HW; destruct Hpage; unfold N_PAGES_IN_WINDOW; lia).
  set (k := Z.to_nat (Z.max 0 fs / window_size ctl + 1)).
  assert (Hdiv : 0 ≤ Z.max 0 fs / window_size ctl ≤ Z.max 0 fs).
  { split; [apply Z.div_pos; lia |].
    apply Z.div_le_upper_bound; [done | nia]. }
  assert (Hk : Z.of_nat k = Z.max 0 fs / window_size ctl + 1)
    by (unfold k; rewrite Z2Nat.id; lia).
  destruct (rounds_tile ctl fd name fs Hpage Hfs k 0 0 c s)
    as (rc & c' & e & s' & Hrun & Hpre & Htiles & Hcount).
  - done.
  - rewrite Hk.
    pose proof (Z.div_mod (Z.max 0 fs) (window_size ctl) ltac:(lia)) as Hdm.
    pose proof (Z.mod_pos_bound (Z.max 0 fs) (window_size ctl) HWpos). lia.
  - done.
  - by rewrite Z.sub_0_r.
  - rewrite Z.sub_0_r in Hcount. exists rc, c', e, s'. repeat split; try done.
    + unfold fincore_fd. apply (while_left (S k)); [| done].
      apply Nat2Z.inj_le. rewrite loop_bound_nat, Nat2Z.inj_succ, Hk.
      unfold OFF_MAX in *. lia.
    + lia.
    + lia.
Qed.

(** A tiling has as many windows as the file has window sizes, rounded
    up, and every window lies inside the file. *)
Lemma tiles_length wsize size off ws :
  0 < wsize → off ≤ size → tiles wsize size off ws →
  Z.of_nat (length ws) = ceil_div (size - off) wsize.
Proof.
  intros Hw. revert off. induction ws as [| [o len] rest IH]; intros off Hoff.
  - simpl. intros Hend. replace (size - off) with 0 by lia.
    by rewrite ceil_div_0.
  - simpl. intros (-> & Hlt & Hlen & Hrest).
    rewrite Nat2Z.inj_succ.
    destruct (Z.le_gt_cases wsize (size - off)) as [Hfull | Hlast].
    + rewrite Z.min_l in Hlen by done. subst len.
      rewrite (IH (off + wsize)); [| lia | done].
      replace (size - off) with (size - (off + wsize) + 1 * wsize) by lia.
      rewrite ceil_div_add by done. lia.
    + rewrite Z.min_r in Hlen by lia. subst len.
      rewrite (IH (off + (size - off))); [| lia | done].
      replace (size - (off + (size - off))) with 0 by lia.
      rewrite ceil_div_0 by done.
      unfold ceil_div.
      rewrite <- (Z.div_unique (size - off + wsize - 1) wsize 1 (size - off - 1));
        lia.
Qed.

Lemma tiles_is_prefix wsize size off ws :
  tiles wsize size off ws → tiles_prefix wsize size off ws.
Proof.
  revert off. induction ws as [| [o len] rest IH]; intros off; [done |].
  simpl. intros (? & ? & ? & ?). auto.
Qed.

Lemma tiles_prefix_inside wsize size off ws :
  0 < wsize → 0 ≤ off → tiles_prefix wsize size off ws →
  Forall (λ w, 0 ≤ w.1 ∧ 0 < w.2 ∧ w.1 + w.2 ≤ size) ws.
Proof.
  intros Hw. revert off. induction ws as [| [o len] rest IH]; intros off Hoff.
  - constructor.
  - simpl. intros (-> & Hlt & Hlen & Hrest). constructor.
    + simpl. lia.
    + apply (IH (off + len)); [lia | done].
Qed.

End ScanFacts.

(** ** The residency counter *)

Lemma resident_testbit v : resident v = Z.testbit v 0.
Proof.
  unfold resident. rewrite Z.bit0_odd.
  change 1 with (Z.ones 1). rewrite Z.land_ones by lia.
  change (2 ^ 1) with 2. rewrite Zmod_odd.
  by destruct (Z.odd v).
Qed.

Lemma rev_seq_S n : rev (seq 0 (S n)) = n :: rev (seq 0 n).
Proof. by rewrite seq_S, rev_app_distr. Qed.

Lemma vec_reads_vec_events n (v : list Z) :
  vec_reads (vec_events n v) = rev (seq 0 n).
Proof.
  induction n as [| n IH]; [done |].
  rewrite rev_seq_S. simpl. rewrite <- IH.
  by destruct (resident (vec_at v n)).
Qed.

Lemma vec_writes_vec_events n (v : list Z) :
  vec_writes (vec_events n v) =
  List.map (λ i, (i, 0))
    (List.filter (λ i, Z.testbit (vec_at v i) 0) (rev (seq 0 n))).
Proof.
  induction n as [| n IH]; [done |].
  rewrite rev_seq_S.
  cbn [vec_events vec_writes flat_map List.filter List.map app].
  rewrite <- resident_testbit. fold (vec_writes (vec_events n v)).
  destruct (resident (vec_at v n)); cbn [vec_writes flat_map List.map app];
    fold (vec_writes (vec_events n v)); by rewrite IH.
Qed.

Section Counter.
Context {W : Type} `{!OS W}.
Implicit Types s : pstate W.

(** The reads of [do_mincore]: the indices below the page count, each
    once, from the last down to the first. *)
Lemma do_mincore_reads ctl window len name c s o e s' :
  0 < pagesize ctl ≤ INT_MAX →
  0 < len ≤ N_PAGES_IN_WINDOW * pagesize ctl →
  do_mincore ctl window len name c s = (o, e, s') →
  page_count ctl len = ceil_div len (pagesize ctl) ∧
  vec_reads e =
    (if existsb is_mincore_failure e then []
     else rev (seq 0 (Z.to_nat (ceil_div len (pagesize ctl))))) ∧
  Forall (λ i, Z.of_nat i < ceil_div len (pagesize ctl)) (vec_reads e).
Proof.
  intros Hpage Hlen Hrun.
  destruct (page_count_ceil ctl len) as [Hn Hmax];
    [lia | unfold N_PAGES_IN_WINDOW, INT_MAX in *; lia | lia |].
  split; [done |].
  destruct (os_mincore window len (ps_vec s) (ps_os s)) as [[v | err] w] eqn:Hos.
  - rewrite (do_mincore_ok _ _ _ _ _ _ v w Hos) in Hrun.
    inversion Hrun; subst. rewrite Hn.
    assert (Hnofail : ∀ k, existsb is_mincore_failure (vec_events k v) = false).
    { intros k. induction k as [| k IH]; [done |]. simpl.
      by destruct (resident (vec_at v k)). }
    change (vec_reads (_ :: ?l)) with (vec_reads l).
    change (existsb _ (_ :: ?l)) with (existsb is_mincore_failure l).
    rewrite Hnofail, vec_reads_vec_events. split; [done |].
    apply Forall_forall. intros i Hi.
    apply list_elem_of_In, in_rev, in_seq in Hi. lia.
  - rewrite (do_mincore_failed _ _ _ _ _ _ err w Hos) in Hrun.
    inversion Hrun; subst. simpl. split; [done | constructor].
Qed.

(** Every access of [do_mincore] to [vec] is inside the array. *)
Lemma do_mincore_in_bounds ctl window len name c s o e s' :
  0 < pagesize ctl ≤ INT_MAX →
  0 < len ≤ N_PAGES_IN_WINDOW * pagesize ctl →
  do_mincore ctl window len name c s = (o, e, s') →
  Forall (λ i, Z.of_nat i < N_PAGES_IN_WINDOW) (vec_reads e) ∧
  Forall (λ iv, In iv.1 (vec_reads e) ∧ iv.2 = 0) (vec_writes e).
Proof.
  intros Hpage Hlen Hrun.
  destruct (page_count_ceil ctl len) as [Hn Hmax];
    [lia | unfold N_PAGES_IN_WINDOW, INT_MAX in *; lia | lia |].
  destruct (do_mincore_reads _ _ _ _ _ _ _ _ _ Hpage Hlen Hrun)
    as (_ & Hreads & Hlt).
  split.
  - eapply Forall_impl; [exact Hlt |]. simpl. intros i Hi. lia.
  - destruct (os_mincore window len (ps_vec s) (ps_os s)) as [[v | err] w] eqn:Hos.
    + rewrite (do_mincore_ok _ _ _ _ _ _ v w Hos) in Hrun.
      inversion Hrun; subst.
      change (vec_reads (_ :: ?l)) with (vec_reads l).
      change (vec_writes (_ :: ?l)) with (vec_writes l).
      rewrite vec_reads_vec_events, vec_writes_vec_events.
      apply Forall_forall. intros [i z] Hi.
      apply list_elem_of_In, in_map_iff in Hi as (j & Heq & Hj).
      inversion Heq; subst. apply filter_In in Hj as [Hj _]. by split.
    + rewrite (do_mincore_failed _ _ _ _ _ _ err w Hos) in Hrun.
      inversion Hrun; subst. constructor.
Qed.

(** C2. For a window of length [len > 0] (no longer than the window size),
    [do_mincore] takes [ceil(len / pagesize)] as the number of pages; and
    when the kernel answers the query, [do_mincore] makes the query and then
    reads the entries of [vec] with exactly these indices, each once, from
    the last down to the first: no entry with an index from the page count
    on is read. *)
Theorem do_mincore_reads_page_count ctl window len name c s v w :
  0 < pagesize ctl ≤ INT_MAX →
  0 < len ≤ N_PAGES_IN_WINDOW * pagesize ctl →
  os_mincore window len (ps_vec s) (ps_os s) = (Ok v, w) →
  page_count ctl len = ceil_div len (pagesize ctl) ∧
  ∃ c' e s',
    do_mincore ctl window len name c s =
      (Ret (0, c'), EvMincore window len (Ok tt) :: e, s') ∧
    forallb is_vec_event e = true ∧
    vec_reads e = rev (seq 0 (Z.to_nat (ceil_div len (pagesize ctl)))) ∧
    Forall (λ i, Z.of_nat i < ceil_div len (pagesize ctl)) (vec_reads e).
Proof.
  intros Hpage Hlen Hos.
  destruct (page_count_ceil ctl len) as [Hn Hmax];
    [lia | unfold N_PAGES_IN_WINDOW, INT_MAX in *; lia | lia |].
  split; [done |].
  eexists _, _, _. split; [by apply do_mincore_ok |].
  rewrite Hn, vec_reads_vec_events.
  split; [apply forallb_vec_events |]. split; [done |].
  apply Forall_forall. intros i Hi.
  apply list_elem_of_In, in_rev, in_seq in Hi. lia.
Qed.

(** C10. For a window of length [len > 0] (no longer than the window
    size) whose query succeeds and has left [v] in [vec]: [do_mincore] adds
    to the count the number of entries below [ceil(len / pagesize)], the
    entries of the pages of the window, whose least-significant bit is 1,
    whatever their other bits; the only writes to [vec] are zeros, to
    exactly these entries; and [vec] is left with these entries 0 and
    every other entry as the query left it. *)
Theorem do_mincore_counts_low_bit ctl window len name c s v w :
  let n := Z.to_nat (ceil_div len (pagesize ctl)) in
  0 < pagesize ctl ≤ INT_MAX →
  0 < len ≤ N_PAGES_IN_WINDOW * pagesize ctl →
  os_mincore window len (ps_vec s) (ps_os s) = (Ok v, w) →
  0 ≤ c → c + Z.of_nat n ≤ OFF_MAX →
  ∃ e s',
    do_mincore ctl window len name c s =
      (Ret (0, c + Z.of_nat (length (List.filter (λ x, Z.testbit x 0) (take n v)))),
       e, s') ∧
    vec_writes e =
      List.map (λ i, (i, 0))
        (List.filter (λ i, Z.testbit (vec_at v i) 0) (rev (seq 0 n))) ∧
    ∀ i, ps_vec s' !! i =
         (λ x, if (i <? n)%nat && Z.testbit x 0 then 0 else x) <$> v !! i.
Proof.
  intros n Hpage Hlen Hos Hc Hmax.
  destruct (page_count_ceil ctl len) as [Hn _];
    [lia | unfold N_PAGES_IN_WINDOW, INT_MAX in *; lia | lia |].
  assert (Hpages : Z.to_nat (page_count ctl len) = n) by (by rewrite Hn).
  assert (Hcount : count_value n c v =
            c + Z.of_nat (length (List.filter (λ x, Z.testbit x 0) (take n v)))).
  { rewrite count_value_counted by done. unfold counted.
    by rewrite (List.filter_ext _ _ resident_testbit). }
  eexists _, _. split; [| split].
  - rewrite (do_mincore_ok _ _ _ _ _ _ v w Hos), Hpages.
    by rewrite Hcount.
  - change (vec_writes (_ :: ?l)) with (vec_writes l).
    apply vec_writes_vec_events.
  - intros i. simpl. rewrite cleared_lookup.
    destruct (v !! i) as [x |]; [| done]. simpl.
    by rewrite resident_testbit.
Qed.

End Counter.

(** ** The windows of a scan *)

Lemma ceil_div_le_self a b : 0 < b → 0 ≤ a → ceil_div a b ≤ a.
Proof.
  intros Hb Ha. unfold ceil_div.
  destruct (Z.eq_dec a 0) as [-> | Hnz].
  - rewrite Z.div_small; lia.
  - apply Z.div_le_upper_bound; [done | nia].
Qed.

Lemma leak_step_vec_events live n (v : list Z) :
  fold_left leak_step (vec_events n v) live = live.
Proof.
  induction n as [| n IH]; [done |]. simpl.
  destruct (resident (vec_at v n)); simpl; exact IH.
Qed.

Lemma leak_step_vec evs live :
  forallb is_vec_event evs = true → fold_left leak_step evs live = live.
Proof.
  revert live. induction evs as [| e evs IH]; intros live; [done |].
  simpl. intros [He Hevs]%andb_prop. rewrite <- (IH live Hevs) at 2.
  by destruct e.
Qed.

Lemma existsb_vec p evs :
  (∀ e, is_vec_event e = true → p e = false) →
  forallb is_vec_event evs = true → existsb p evs = false.
Proof.
  intros Hp. induction evs as [| e evs IH]; [done |].
  simpl. intros [He Hevs]%andb_prop. by rewrite (Hp e He), IH.
Qed.

Section Windows.
Context {W : Type} `{!OS W}.
Implicit Types s : pstate W.

(** For a page size below 64 KiB and a file that ends a window before
    [off_t] does: [fincore_fd] returns; when it returns 0 the windows it
    mapped tile [\[0, size)], each of length [min(window_size, size -
    offset)], and there are [ceil(size / window_size)] of them. *)
Theorem fincore_fd_tiles ctl fd name fs s o e s' :
  valid_page (pagesize ctl) →
  0 < fs ≤ OFF_MAX - window_size ctl →
  fincore_fd ctl fd name fs 0 s = (o, e, s') →
  window_size ctl = N_PAGES_IN_WINDOW * pagesize ctl ∧
  ∃ rc count,
    o = Ret (rc, count) ∧
    tiles_prefix (window_size ctl) fs 0 (mmap_windows e) ∧
    (rc = 0 →
     tiles (window_size ctl) fs 0 (mmap_windows e) ∧
     Z.of_nat (length (mmap_windows e)) = ceil_div fs (window_size ctl)).
Proof.
  intros Hpage Hfs Hrun.
  pose proof (window_size_valid ctl Hpage) as HW.
  assert (HWpos : 0 < window_size ctl)
    by (rewrite HW; destruct Hpage; unfold N_PAGES_IN_WINDOW; lia).
  assert (Hps : 0 < pagesize ctl) by apply Hpage.
  pose proof (ceil_div_le_self fs (pagesize ctl) Hps ltac:(lia)).
  destruct (fincore_fd_returns ctl fd name fs 0 s Hpage)
    as (rc & c' & e1 & s1 & Hrun1 & Hpre & Htiles & Hcount);
    [lia | done | rewrite Z.max_r by lia; lia |].
  assert (o = Ret (rc, c') ∧ e = e1) as [-> ->]
    by (rewrite Hrun in Hrun1; by inversion Hrun1).
  split; [done |]. exists rc, c'. split; [done |]. split; [done |].
  intros Hrc. split; [auto |].
  rewrite (tiles_length (window_size ctl) fs 0 (mmap_windows e1) HWpos);
    [f_equal; lia | lia | auto].
Qed.

(** A file of exactly [k] window sizes is scanned in [k] windows. *)
Corollary fincore_fd_exact_multiple ctl fd name k s c e s' :
  valid_page (pagesize ctl) →
  0 < k → k * window_size ctl ≤ OFF_MAX - window_size ctl →
  fincore_fd ctl fd name (k * window_size ctl) 0 s = (Ret (0, c), e, s') →
  Z.of_nat (length (mmap_windows e)) = k.
Proof.
  intros Hpage Hk Hmax Hrun.
  pose proof (window_size_valid ctl Hpage) as HW.
  assert (HWpos : 0 < window_size ctl)
    by (rewrite HW; destruct Hpage; unfold N_PAGES_IN_WINDOW; lia).
  assert (Hfs : 0 < k * window_size ctl ≤ OFF_MAX - window_size ctl)
    by (split; [apply Z.mul_pos_pos; lia | done]).
  destruct (fincore_fd_tiles _ _ _ _ _ _ _ _ Hpage Hfs Hrun)
    as (_ & rc & c' & Heq & _ & Htiles).
  inversion Heq; subst. destruct (Htiles eq_refl) as [_ ->].
  rewrite <- (Z.add_0_l (k * _)), ceil_div_add, ceil_div_0 by done. lia.
Qed.

(** A file one byte longer than a window is scanned in two windows, the
    second of one byte. *)
Corollary fincore_fd_one_byte_more ctl fd name s c e s' :
  valid_page (pagesize ctl) →
  fincore_fd ctl fd name (window_size ctl + 1) 0 s = (Ret (0, c), e, s') →
  mmap_windows e = [(0, window_size ctl); (window_size ctl, 1)].
Proof.
  intros Hpage Hrun.
  pose proof (window_size_valid ctl Hpage) as HW.
  assert (HWmax : 0 < window_size ctl ≤ INT_MAX)
    by (rewrite HW; pose proof Hpage as [? ?]; unfold N_PAGES_IN_WINDOW in *; lia).
  assert (Hfs : 0 < window_size ctl + 1 ≤ OFF_MAX - window_size ctl)
    by (unfold INT_MAX, OFF_MAX in *; lia).
  destruct (fincore_fd_tiles _ _ _ _ _ _ _ _ Hpage Hfs Hrun)
    as (_ & rc & c' & Heq & _ & Htiles).
  inversion Heq; subst. destruct (Htiles eq_refl) as [Ht _].
  destruct (mmap_windows e) as [| [o1 l1] [| [o2 l2] [| [o3 l3] rest]]];
    simpl in Ht.
  - lia.
  - destruct Ht as (-> & _ & -> & Hend). lia.
  - destruct Ht as (-> & _ & -> & -> & _ & -> & _).
    rewrite Z.min_l by lia. do 3 f_equal. lia.
  - destruct Ht as (-> & _ & -> & -> & _ & -> & _ & Hlt & _). lia.
Qed.

(** C6. For a page size below 64 KiB and a file that ends a window before
    [off_t] does, [fincore_fd] returns, with a count of resident pages
    that does not exceed [ceil(size / pagesize)]; and every window it
    mapped, whether the scan succeeded or was cut short, lies inside
    [\[0, size)]. *)
Theorem resident_count_bounded ctl fd name fs s o e s' :
  valid_page (pagesize ctl) →
  0 < fs ≤ OFF_MAX - window_size ctl →
  fincore_fd ctl fd name fs 0 s = (o, e, s') →
  ∃ rc count,
    o = Ret (rc, count) ∧
    0 ≤ count ≤ ceil_div fs (pagesize ctl) ∧
    Forall (λ w, 0 ≤ w.1 ∧ 0 < w.2 ∧ w.1 + w.2 ≤ fs) (mmap_windows e).
Proof.
  intros Hpage Hfs Hrun.
  pose proof (window_size_valid ctl Hpage) as HW.
  assert (HWpos : 0 < window_size ctl)
    by (rewrite HW; destruct Hpage; unfold N_PAGES_IN_WINDOW; lia).
  assert (Hps : 0 < pagesize ctl) by apply Hpage.
  pose proof (ceil_div_le_self fs (pagesize ctl) Hps ltac:(lia)).
  destruct (fincore_fd_returns ctl fd name fs 0 s Hpage)
    as (rc & c' & e1 & s1 & Hrun1 & Hpre & Htiles & Hcount);
    [lia | done | rewrite Z.max_r by lia; lia |].
  assert (o = Ret (rc, c') ∧ e = e1) as [-> ->]
    by (rewrite Hrun in Hrun1; by inversion Hrun1).
  rewrite Z.max_r in Hcount by lia.
  exists rc, c'. repeat split; try lia.
  by apply (tiles_prefix_inside (window_size ctl) fs 0).
Qed.

(** A scan releases every window but the one whose query failed. *)
Lemma scan_leaked fd name e r :
  scan fd name e r →
  if existsb is_mincore_failure e
  then ∃ hint len off addr err,
         leaked e = [(addr, len)] ∧
         last e = Some (EvWarn FailedMincore name) ∧
         In (EvMmap hint len fd off (Ok addr)) e ∧
         In (EvMincore addr len (Err err)) e
  else leaked e = [].
Proof.
  induction 1 as [| | hint len off err | hint len off addr err
                  | hint len off addr vevs rest r Hvec Hscan IH].
  - done.
  - done.
  - done.
  - simpl. exists hint, len, off, addr, err. repeat split; auto.
  - assert (Hleak : ∀ rest',
              leaked (EvMmap hint len fd off (Ok addr)
                      :: EvMincore addr len (Ok tt)
                      :: vevs ++ EvMunmap addr len :: rest') = leaked rest').
    { intros rest'. unfold leaked. simpl. rewrite fold_left_app. simpl.
      rewrite (leak_step_vec vevs) by done. simpl.
      by rewrite !Z.eqb_refl. }
    assert (Hex : existsb is_mincore_failure
                    (EvMmap hint len fd off (Ok addr)
                     :: EvMincore addr len (Ok tt)
                     :: vevs ++ EvMunmap addr len :: rest)
                  = existsb is_mincore_failure rest).
    { simpl. rewrite existsb_app. simpl.
      rewrite (existsb_vec is_mincore_failure vevs); [done | | done].
      by intros []. }
    rewrite Hex, Hleak. destruct (existsb is_mincore_failure rest); [| done].
    destruct IH as (hint' & len' & off' & addr' & err' & Hl & Hlast & Hin1 & Hin2).
    exists hint', len', off', addr', err'. repeat split; try done.
    + rewrite !last_cons. rewrite last_app, last_cons, Hlast. done.
    + right. right. apply in_or_app. right. by right.
    + right. right. apply in_or_app. right. by right.
Qed.

End Windows.

(** ** One path *)

Lemma append_cell (l : list (list cell)) ln c :
  match reverse (l ++ [ln]) with
  | [] => []
  | ln' :: before => reverse before ++ [ln' ++ [c]]
  end = l ++ [ln ++ [c]].
Proof. by rewrite reverse_snoc, reverse_involutive. Qed.

Section Paths.
Context {W : Type} `{!OS W}.
Implicit Types s : pstate W.

Lemma scols_line_set_data_run c s l ln :
  ps_lines s = l ++ [ln] →
  scols_line_set_data c s = (Ret tt, [], set_lines (l ++ [ln ++ [c]]) s).
Proof.
  intros Hl. unfold scols_line_set_data, modify_lines.
  by rewrite Hl, append_cell.
Qed.

(** [add_output_data] with the columns of [main]: a line of three cells
    when the line can be allocated, [exit(EXIT_FAILURE)] when not. *)
Lemma fill_line_run ctl name fsz c s l :
  ps_lines s = l ++ [[]] →
  fill_line ctl columns name fsz c s =
  (Ret 0, [], set_lines (l ++ [row ctl name fsz c]) s).
Proof.
  intros Hl.
  unfold fill_line, columns, get_column_id, bind, ret, scols_line_set_data,
    modify_lines, row.
  cbn -[reverse app]. rewrite Hl, !append_cell. cbn [app].
  by destruct (bytes ctl).
Qed.

(** [add_output_data] with the columns of [main]: a line of three cells
    when the line can be allocated, [exit(EXIT_FAILURE)] when not. *)
Lemma add_output_data_run ctl name fsz c s :
  add_output_data ctl columns name fsz c s =
  match os_alloc NewLine (ps_os s) with
  | (true, w) =>
      (Ret 0, [EvScols NewLine true],
       set_lines (ps_lines s ++ [row ctl name fsz c]) (set_os w s))
  | (false, w) =>
      (Exit EXIT_FAILURE, [EvScols NewLine false; EvWarn FailedLine ""],
       set_os w s)
  end.
Proof.
  unfold add_output_data, scols_table_new_line, scols_alloc.
  unfold bind at 1 2.
  destruct (os_alloc NewLine (ps_os s)) as [[|] w]; [| done].
  unfold modify_lines. cbn [negb fst snd app].
  unfold bind at 1. cbn [ret app negb].
  by rewrite (fill_line_run _ _ _ _ _ (ps_lines s)) by done.
Qed.

(** The events of [fincore_name] are those of [path_run]; it does not
    return only when the loop of [fincore_fd] reaches the bound. *)
Lemma fincore_name_cases ctl name s o e s' :
  fincore_name ctl name None 0 s = (o, e, s') →
  match o with
  | Ret (r, sb, c) => path_run name e r sb
  | OutOfFuel =>
      ∃ fd st evs s1,
        e = EvOpen name (Ok fd) :: EvFstat fd (Ok st) :: evs ∧
        fincore_fd ctl fd name (st_size st) 0 s1 = (OutOfFuel, evs, s')
  | _ => False
  end.
Proof.
  unfold fincore_name. unfold bind at 1. unfold sys_open at 1.
  destruct (os_open name (ps_os s)) as [[fd | err] w1] eqn:Hopen.
  - unfold bind at 1. unfold sys_fstat at 1. cbn [ps_os set_os].
    destruct (os_fstat fd w1) as [[st | err] w2] eqn:Hfstat.
    + unfold bind at 1.
      destruct (S_ISDIR (st_mode st)) eqn:Hdir.
      * cbn. intros Heq. inversion Heq; subst. by apply path_directory.
      * destruct (Z.eqb_spec (st_size st) 0) as [Hzero | Hnz]; cbn [negb].
        -- cbn. intros Heq. inversion Heq; subst. by apply path_empty.
        -- destruct (fincore_fd ctl fd name (st_size st) 0
                       (set_os w2 (set_os w1 s))) as [[o1 e1] s3] eqn:Hfd.
           pose proof (fincore_fd_scan _ _ _ _ _ _ _ _ _ Hfd) as Hscan.
           destruct o1 as [[rc c] | | |]; try done; cbn;
             intros Heq; inversion Heq; subst.
           ++ by apply path_scanned.
           ++ by exists fd, st, e1, (set_os w2 (set_os w1 s)).
    + cbn. intros Heq. inversion Heq; subst. apply path_fstat_failed.
  - cbn. intros Heq. inversion Heq; subst. apply path_open_failed.
Qed.

End Paths.

(** ** What the events of a scan and of a path can be *)

Lemma count_of_app p e1 e2 :
  count_of p (e1 ++ e2) = (count_of p e1 + count_of p e2)%nat.
Proof. unfold count_of. by rewrite List.filter_app, length_app. Qed.

Lemma count_of_none p e : existsb p e = false → count_of p e = 0%nat.
Proof.
  unfold count_of. induction e as [| x e IH]; [done |].
  simpl. intros [Hx He]%orb_false_elim. rewrite Hx. auto.
Qed.

Lemma opened_app e1 e2 : opened (e1 ++ e2) = opened e1 ++ opened e2.
Proof. apply flat_map_app. Qed.

Lemma opened_vec evs : forallb is_vec_event evs = true → opened evs = [].
Proof.
  induction evs as [| e evs IH]; [done |].
  simpl. intros [He Hevs]%andb_prop. rewrite (IH Hevs). by destruct e.
Qed.

(** A scan reports something fatal exactly when its return code is not 0,
    and then the code is negative. *)
Lemma scan_fatal fd name e r :
  scan fd name e r →
  match r with
  | Some rc => rc ≤ 0 ∧ existsb is_fatal e = negb (rc =? 0)
  | None => existsb is_fatal e = false
  end.
Proof.
  induction 1 as [| | hint len off err | hint len off addr err
                  | hint len off addr vevs rest r Hvec Hscan IH].
  1-4: done || (split; [unfold EINVAL; lia | done]).
  assert (Hex : existsb is_fatal
                    (EvMmap hint len fd off (Ok addr)
                     :: EvMincore addr len (Ok tt)
                     :: vevs ++ EvMunmap addr len :: rest)
                  = existsb is_fatal rest).
  { simpl. rewrite existsb_app. simpl.
    rewrite (existsb_vec is_fatal vevs); [done | | done].
    by intros []. }
  by rewrite Hex.
Qed.

(** A scan opens nothing, allocates nothing and reads no metadata. *)
Lemma scan_quiet fd name e r (p : event → bool) :
  scan fd name e r →
  (∀ hint len fd off res, p (EvMmap hint len fd off res) = false) →
  (∀ addr len res, p (EvMincore addr len res) = false) →
  (∀ addr len, p (EvMunmap addr len) = false) →
  (∀ i v, p (EvVecRead i v) = false) →
  (∀ i v, p (EvVecWrite i v) = false) →
  (∀ d name, p (EvWarn d name) = false) →
  existsb p e = false.
Proof.
  intros Hscan Hmmap Hmincore Hmunmap Hread Hwrite Hwarn.
  induction Hscan as [| | hint len off err | hint len off addr err
                      | hint len off addr vevs rest r Hvec Hscan IH];
    simpl; rewrite ?Hmmap, ?Hmincore, ?Hwarn; try done.
  rewrite existsb_app. simpl. rewrite Hmunmap, IH.
  rewrite (existsb_vec p vevs); [done | | done].
  intros [] Hv; try done; auto.
Qed.

Lemma scan_opened fd name e r : scan fd name e r → opened e = [].
Proof.
  induction 1 as [| | hint len off err | hint len off addr err
                  | hint len off addr vevs rest r Hvec Hscan IH];
    try done.
  simpl. rewrite opened_app, (opened_vec vevs Hvec). simpl. exact IH.
Qed.

(** A failed [mmap] ends the scan: it is the last system call, the one
    diagnostic of the scan follows it, and the return code is [-EINVAL]. *)
Lemma scan_mmap_failure fd name e r :
  scan fd name e r →
  existsb is_mmap_failure e = true →
  r = Some (- EINVAL) ∧
  ∃ pre hint len off err,
    e = pre ++ [EvMmap hint len fd off (Err err); EvWarn FailedMmap name] ∧
    existsb is_mmap_failure pre = false ∧
    existsb is_diagnostic pre = false.
Proof.
  induction 1 as [| | hint len off err | hint len off addr err
                  | hint len off addr vevs rest r Hvec Hscan IH];
    try done.
  - intros _. split; [done |]. by exists [], hint, len, off, err.
  - assert (Hex : ∀ p, p (EvMmap hint len fd off (Ok addr)) = false →
              p (EvMincore addr len (Ok tt)) = false →
              p (EvMunmap addr len) = false →
              (∀ e, is_vec_event e = true → p e = false) →
              ∀ rest', existsb p
                    (EvMmap hint len fd off (Ok addr)
                     :: EvMincore addr len (Ok tt)
                     :: vevs ++ EvMunmap addr len :: rest')
                  = existsb p rest').
    { intros p H1 H2 H3 H4 rest'. simpl. rewrite H1, H2, existsb_app. simpl.
      by rewrite H3, (existsb_vec p vevs). }
    rewrite Hex; [| done | done | done | by intros []].
    intros Hfail. destruct (IH Hfail) as (-> & pre & h & l & o & err & -> & Hpre & Hdiag).
    split; [done |].
    exists (EvMmap hint len fd off (Ok addr) :: EvMincore addr len (Ok tt)
            :: vevs ++ EvMunmap addr len :: pre), h, l, o, err.
    split; [| split].
    + simpl. by rewrite <- app_assoc.
    + rewrite Hex; [done | done | done | done | by intros []].
    + rewrite Hex; [done | done | done | done | by intros []].
Qed.

(** The paths of [fincore_name] by their return value: 0 or 1 and nothing
    fatal among the events, or negative and something fatal among them. *)
Lemma path_run_fatal name e r sb :
  path_run name e r sb →
  ((r = 0 ∨ r = 1) ∧ existsb is_fatal e = false) ∨
  (r < 0 ∧ existsb is_fatal e = true).
Proof.
  destruct 1 as [err | fd err | fd st Hdir | fd st Hdir Hsize
                 | fd st evs rc Hdir Hsize Hscan].
  - left. auto.
  - right. split; [lia | done].
  - left. auto.
  - left. auto.
  - destruct (scan_fatal _ _ _ _ Hscan) as [Hrc Hfatal].
    assert (Hex : existsb is_fatal
                    (EvOpen name (Ok fd) :: EvFstat fd (Ok st) :: evs ++ [EvClose fd])
                  = existsb is_fatal evs).
    { simpl. rewrite existsb_app. simpl. by rewrite orb_false_r. }
    rewrite Hex, Hfatal. destruct (Z.eqb_spec rc 0); [left | right]; auto.
    split; [lia | done].
Qed.

Lemma path_run_opened name e r sb : path_run name e r sb → opened e = [name].
Proof.
  destruct 1 as [err | fd err | fd st Hdir | fd st Hdir Hsize
                 | fd st evs rc Hdir Hsize Hscan]; try done.
  simpl. by rewrite opened_app, (scan_opened _ _ _ _ Hscan).
Qed.

Lemma path_run_no_alloc name e r sb :
  path_run name e r sb →
  existsb is_new_line e = false ∧ existsb is_alloc_failure e = false.
Proof.
  destruct 1 as [err | fd err | fd st Hdir | fd st Hdir Hsize
                 | fd st evs rc Hdir Hsize Hscan]; try done.
  simpl. rewrite !existsb_app. simpl.
  by rewrite (scan_quiet _ _ _ _ is_new_line Hscan),
    (scan_quiet _ _ _ _ is_alloc_failure Hscan).
Qed.

(** Where an [open] can be in a list of events that begins with events
    that are no [open]; and in one that ends with another event. *)
Lemma opened_split l1 l2 pre name r post :
  opened l1 = [] →
  l1 ++ l2 = pre ++ EvOpen name r :: post →
  ∃ pre2, pre = l1 ++ pre2 ∧ l2 = pre2 ++ EvOpen name r :: post.
Proof.
  revert pre. induction l1 as [| t l1 IH]; intros pre Hopen Heq.
  - by exists pre.
  - destruct pre as [| p pre].
    + simpl in Heq. injection Heq as -> _. done.
    + simpl in Heq. injection Heq as -> Heq.
      assert (Hl1 : opened l1 = []).
      { unfold opened in Hopen |- *. simpl in Hopen.
        by apply app_eq_nil in Hopen as [_ ?]. }
      destruct (IH pre Hl1 Heq) as (pre2 & -> & ->). by exists pre2.
Qed.

Lemma snoc_split {A} (l pre post : list A) (p x : A) :
  x ≠ p →
  l ++ [p] = pre ++ x :: post →
  ∃ post2, post = post2 ++ [p] ∧ l = pre ++ x :: post2.
Proof.
  intros Hne Heq.
  destruct (decide (post = [])) as [-> | Hpost].
  - apply app_inj_tail in Heq as [_ ->]. done.
  - apply exists_last in Hpost as (post2 & y & ->).
    change (pre ++ x :: post2 ++ [y]) with (pre ++ (x :: post2) ++ [y]) in Heq.
    rewrite app_assoc in Heq. apply app_inj_tail in Heq as [-> ->].
    by exists post2.
Qed.

(** ** The loop over the arguments *)

Section MainLoop.
Context {W : Type} `{!OS W}.
Implicit Types s : pstate W.

(** One round of the loop of [main]: the path goes one of the ways of
    [path_run]; a line is added when [fincore_name] returned 0, nothing is
    done when it returned 1, [rc] becomes [EXIT_FAILURE] otherwise. *)
Lemma main_body_cases ctl name rc s o e s' :
  main_body ctl name rc s = (o, e, s') →
  (∃ r sb pe,
     path_run name pe r sb ∧
     ((r = 0 ∧ o = Ret rc ∧ e = pe ++ [EvScols NewLine true]) ∨
      (r = 0 ∧ o = Exit EXIT_FAILURE ∧
       e = pe ++ [EvScols NewLine false; EvWarn FailedLine ""]) ∨
      (r = 1 ∧ o = Ret rc ∧ e = pe) ∨
      (r < 0 ∧ o = Ret EXIT_FAILURE ∧ e = pe))) ∨
  (o = OutOfFuel ∧
   ∃ fd st evs s1,
     e = EvOpen name (Ok fd) :: EvFstat fd (Ok st) :: evs ∧
     fincore_fd ctl fd name (st_size st) 0 s1 = (OutOfFuel, evs, s')).
Proof.
  unfold main_body. unfold bind at 1.
  destruct (fincore_name ctl name None 0 s) as [[o1 pe] s1] eqn:Hname.
  apply fincore_name_cases in Hname.
  destruct o1 as [[[r sb] c] | | |]; try done.
  - destruct (path_run_fatal _ _ _ _ Hname) as [[[-> | ->] _] | [Hneg _]].
    + cbn [Z.eqb]. unfold bind. rewrite add_output_data_run.
      destruct (os_alloc NewLine (ps_os s1)) as [[|] w];
        intros Heq; inversion Heq; subst; left; eexists 0, sb, _;
        (split; [exact Hname |]);
        ((left; by repeat split) || (right; left; by repeat split)).
    + cbn [Z.eqb Pos.eqb]. unfold ret. rewrite app_nil_r.
      intros Heq; inversion Heq; subst. left. eexists 1, sb, _.
      split; [exact Hname |]. right; right; left. by repeat split.
    + destruct (Z.eqb_spec r 0); [lia |]. destruct (Z.eqb_spec r 1); [lia |].
      unfold ret. rewrite app_nil_r.
      intros Heq; inversion Heq; subst. left. eexists r, sb, _.
      split; [exact Hname |]. right; right; right. by repeat split.
  - intros Heq; inversion Heq; subst. right. auto.
Qed.

(** When the files met leave room for a window before [off_t] ends, no
    round of the loop of [main] reaches the bound of the model. *)
Lemma main_body_returns ctl name rc s o e s' :
  valid_page (pagesize ctl) →
  main_body ctl name rc s = (o, e, s') →
  forallb (size_ok ctl) e = true →
  o ≠ OutOfFuel.
Proof.
  intros Hpage Hrun Hsizes ->.
  destruct (main_body_cases _ _ _ _ _ _ _ Hrun)
    as [(r & sb & pe & _ & [H | [H | [H | H]]]) | (_ & fd & st & evs & s1 & -> & Hfd)];
    try (by destruct H as (_ & ? & _)).
  simpl in Hsizes. apply andb_prop in Hsizes as [Hsize _].
  apply Z.leb_le in Hsize.
  assert (Hps : 0 < pagesize ctl) by apply Hpage.
  pose proof (ceil_div_le_self (Z.max 0 (st_size st)) (pagesize ctl) Hps
                ltac:(lia)).
  pose proof (window_size_valid ctl Hpage) as HW.
  assert (0 < window_size ctl)
    by (rewrite HW; unfold N_PAGES_IN_WINDOW; lia).
  destruct (fincore_fd_returns ctl fd name (st_size st) 0 s1 Hpage)
    as (rc' & c' & e1 & s2 & Hret & _);
    [done | done | unfold OFF_MAX in *; lia |].
  rewrite Hfd in Hret. discriminate.
Qed.


(** The loop of [main], when the files met leave room for a window before
    [off_t] ends: either every path had its round, in order, and the loop
    returns [EXIT_FAILURE] if something fatal happened and [rc] if not; or
    a line of the table could not be allocated and the process exited. *)
Lemma main_loop_cases ctl files : ∀ rc s o e s',
  valid_page (pagesize ctl) →
  main_loop ctl files rc s = (o, e, s') →
  forallb (size_ok ctl) e = true →
  (∃ segs verdicts,
     e = concat segs ∧ Forall3 one_outcome files segs verdicts ∧
     existsb is_alloc_failure e = false ∧
     o = Ret (if existsb is_fatal e then EXIT_FAILURE else rc)) ∨
  (o = Exit EXIT_FAILURE ∧ existsb is_alloc_failure e = true).
Proof.
  induction files as [| name rest IH]; intros rc s o e s' Hpage Hrun Hsizes.
  - inversion Hrun; subst. left. exists [], []. split; [done |].
    split; [constructor | done].
  - simpl in Hrun.
    destruct (main_body ctl name rc s) as [[o1 e1] s1] eqn:Hbody.
    assert (Hsizes1 : forallb (size_ok ctl) e1 = true).
    { unfold bind in Hrun. rewrite Hbody in Hrun.
      destruct o1 as [rc1 | | |];
        [destruct (main_loop ctl rest rc1 s1) as [[o2 e2] s2] |..];
        inversion Hrun; subst; try done.
      rewrite forallb_app in Hsizes. by apply andb_prop in Hsizes as [? _]. }
    pose proof (main_body_returns _ _ _ _ _ _ _ Hpage Hbody Hsizes1) as Hfuel.
    destruct (main_body_cases _ _ _ _ _ _ _ Hbody)
      as [(r & sb & pe & Hpath & Hcase) | (-> & _)]; [| done].
    destruct (path_run_no_alloc _ _ _ _ Hpath) as [_ Halloc].
    destruct (path_run_fatal _ _ _ _ Hpath) as [[Hrc Hfatal] | [Hrc Hfatal]].
    + (* nothing fatal: a line, or nothing *)
      assert (Hnext : (o1 = Ret rc ∧ (∃ v, one_outcome name e1 v) ∧
                       existsb is_alloc_failure e1 = false ∧
                       existsb is_fatal e1 = false) ∨
                      (o1 = Exit EXIT_FAILURE ∧
                       existsb is_alloc_failure e1 = true)).
      { destruct Hcase as [(-> & -> & ->) | [(-> & -> & ->) | [(-> & -> & ->)
                          | (Hneg & _)]]]; [| | | lia].
        - left. split; [done |]. split; [| split].
          + exists RowAdded. by eapply outcome_row.
          + by rewrite existsb_app, Halloc.
          + by rewrite existsb_app, Hfatal.
        - right. split; [done |]. by rewrite existsb_app, Halloc.
        - left. split; [done |]. split; [| done].
          exists Skipped. by eapply outcome_skipped. }
      unfold bind in Hrun. rewrite Hbody in Hrun.
      destruct Hnext as [(-> & [v Hone] & Halloc1 & Hfatal1) | (-> & Halloc1)].
      * destruct (main_loop ctl rest rc s1) as [[o2 e2] s2] eqn:Hrest.
        inversion Hrun; subst.
        rewrite forallb_app in Hsizes. apply andb_prop in Hsizes as [_ Hsizes2].
        destruct (IH _ _ _ _ _ Hpage Hrest Hsizes2)
          as [(segs & vs & -> & Hall & Halloc2 & ->) | (-> & Halloc2)].
        -- left. exists (e1 :: segs), (v :: vs). split; [done |].
           split; [| split].
           ++ by constructor.
           ++ by rewrite existsb_app, Halloc1.
           ++ by rewrite existsb_app, Hfatal1.
        -- right. split; [done |]. by rewrite existsb_app, Halloc2, orb_true_r.
      * inversion Hrun; subst. by right.
    + (* something fatal: no line, and the loop goes on *)
      destruct Hcase as [(-> & _) | [(-> & _) | [(-> & _) | (_ & -> & ->)]]];
        try lia.
      unfold bind in Hrun. rewrite Hbody in Hrun.
      destruct (main_loop ctl rest EXIT_FAILURE s1) as [[o2 e2] s2] eqn:Hrest.
      inversion Hrun; subst.
      rewrite forallb_app in Hsizes. apply andb_prop in Hsizes as [_ Hsizes2].
      destruct (IH _ _ _ _ _ Hpage Hrest Hsizes2)
        as [(segs & vs & -> & Hall & Halloc2 & ->) | (-> & Halloc2)].
      * left. exists (pe :: segs), (Failed :: vs). split; [done |].
        split; [| split].
        -- constructor; [by eapply outcome_failed | done].
        -- by rewrite existsb_app, Halloc.
        -- rewrite existsb_app, Hfatal. simpl.
           by destruct (existsb is_fatal (concat segs)).
      * right. split; [done |]. by rewrite existsb_app, Halloc2, orb_true_r.
Qed.

(** The columns of the table: three allocations, or an exit at the
    first that fails. *)
Lemma new_columns_cases s o e s' :
  new_columns columns s = (o, e, s') →
  (o = Ret tt ∧
   e = [EvScols (NewColumn COL_PAGES) true; EvScols (NewColumn COL_SIZE) true;
        EvScols (NewColumn COL_FILE) true]) ∨
  (o = Exit EXIT_FAILURE ∧ existsb is_alloc_failure e = true ∧
   existsb is_fatal e = false).
Proof.
  unfold new_columns, columns, get_column_id, COL_PAGES, COL_SIZE, COL_FILE,
    N_INFOS, bind, ret, err, emit, exit_with, scols_alloc.
  cbn -[os_alloc].
  destruct (os_alloc (NewColumn 0) (ps_os s)) as [[|] w1]; cbn -[os_alloc];
    [| intros Heq; inversion Heq; subst; by right].
  destruct (os_alloc (NewColumn 1) w1) as [[|] w2]; cbn -[os_alloc];
    [| intros Heq; inversion Heq; subst; by right].
  destruct (os_alloc (NewColumn 2) w2) as [[|] w3]; cbn -[os_alloc];
    intros Heq; inversion Heq; subst; [by left | by right].
Qed.

(** [main] with at least one argument, when the files met leave room for
    a window before [off_t] ends: either the table is set up, every path
    has its round, in order, the table is printed and [main] returns
    [EXIT_FAILURE] if something fatal happened and [EXIT_SUCCESS] if not;
    or an allocation of libsmartcols failed and the process exited with
    [EXIT_FAILURE]. *)
Lemma main_cases page files s o e s' :
  valid_page page → files ≠ [] →
  main page files s = (o, e, s') →
  forallb (size_ok {| pagesize := page; bytes := false |}) e = true →
  (∃ segs verdicts lines,
     e = setup_events ++ concat segs ++ [EvPrintTable lines] ∧
     Forall3 one_outcome files segs verdicts ∧
     existsb is_alloc_failure e = false ∧
     existsb is_fatal e = existsb is_fatal (concat segs) ∧
     o = Ret (if existsb is_fatal e then EXIT_FAILURE else EXIT_SUCCESS)) ∨
  (o = Exit EXIT_FAILURE ∧ existsb is_alloc_failure e = true).
Proof.
  intros Hpage Hfiles. unfold main.
  destruct files as [| name rest]; [done |].
  set (files := name :: rest). set (ctl := {| pagesize := page; bytes := false |}).
  unfold bind at 1. unfold scols_alloc at 1.
  destruct (os_alloc NewTable (ps_os s)) as [[|] w0]; cbn [negb].
  2: { cbn. intros Heq _. inversion Heq; subst. by right. }
  unfold bind at 1.
  destruct (new_columns columns (set_os w0 s)) as [[o1 e1] s1] eqn:Hcols.
  apply new_columns_cases in Hcols as [[-> ->] | (-> & Halloc & Hfatal)].
  2: { intros Heq _. inversion Heq; subst. by right. }
  unfold bind at 1.
  destruct (main_loop ctl files EXIT_SUCCESS s1) as [[o2 e2] s2] eqn:Hloop.
  intros Hrun Hsizes.
  assert (Hsizes2 : forallb (size_ok ctl) e2 = true).
  { destruct o2; cbn in Hrun; inversion Hrun; subst; cbn in Hsizes;
      rewrite ?forallb_app in Hsizes; try done.
    by apply andb_prop in Hsizes as [? _]. }
  destruct (main_loop_cases ctl files _ _ _ _ _ Hpage Hloop Hsizes2)
    as [(segs & vs & -> & Hall & Halloc & ->) | (-> & Halloc)].
  - cbn in Hrun. inversion Hrun; subst. left. exists segs, vs, (ps_lines s').
    assert (Hex : ∀ p, existsb p setup_events = false →
              (∀ l, p (EvPrintTable l) = false) →
              existsb p (setup_events ++ concat segs ++ [EvPrintTable (ps_lines s')])
              = existsb p (concat segs)).
    { intros p Hp1 Hp2. rewrite !existsb_app, Hp1. simpl.
      by rewrite Hp2, !orb_false_r. }
    change (EvScols NewTable true
            :: [EvScols (NewColumn COL_PAGES) true; EvScols (NewColumn COL_SIZE) true;
                EvScols (NewColumn COL_FILE) true]
               ++ concat segs ++ [EvPrintTable (ps_lines s')])
      with (setup_events ++ concat segs ++ [EvPrintTable (ps_lines s')]).
    rewrite !Hex by done. by repeat split.
  - cbn in Hrun. inversion Hrun; subst. right. split; [done |].
    cbn. by rewrite Halloc.
Qed.

End MainLoop.

(** ** The claims about paths and about the whole run *)

Lemma mmap_failure_is_fatal evs :
  existsb is_mmap_failure evs = true → existsb is_fatal evs = true.
Proof.
  induction evs as [| e evs IH]; [done |]. simpl.
  intros [He | Hevs]%orb_prop.
  - unfold is_fatal. by rewrite He, orb_true_r.
  - by rewrite (IH Hevs), orb_true_r.
Qed.

Section Claims.
Context {W : Type} `{!OS W}.
Implicit Types s : pstate W.

(** The scan of a file leaves the table as it is. *)
Lemma rounds_lines ctl fd name fs n : ∀ off win c s o e s',
  iter_nat n (fincore_fd_body ctl fd name fs) (off, win, 0, false, c) s
    = (o, e, s') →
  ps_lines s' = ps_lines s.
Proof.
  induction n as [| n IH]; intros off win c s o e s'.
  - intros Heq. by inversion Heq.
  - rewrite iter_nat_S. intros Hrun.
    destruct (fincore_fd_body ctl fd name fs (off, win, 0, false, c) s)
      as [[o1 e1] s1] eqn:Hbody.
    pose proof (fincore_fd_body_round _ _ _ _ _ _ _ _ _ _ _ Hbody) as Hround.
    unfold bind in Hrun. rewrite Hbody in Hrun.
    destruct Hround as [Hge | err w Hlt Hmmap | addr w err w' Hlt Hmmap Hmc
                        | addr w v w' Hlt Hmmap Hmc len k];
      cbn - [iter_nat] in Hrun.
    1-3: by inversion Hrun.
    destruct (iter_nat n _ _ _) as [[o2 e2] s2] eqn:Hrest in Hrun.
    apply IH in Hrest. by inversion Hrun; subst.
Qed.

Lemma fincore_fd_lines ctl fd name fs c s o e s' :
  fincore_fd ctl fd name fs c s = (o, e, s') → ps_lines s' = ps_lines s.
Proof.
  unfold fincore_fd. intros Hrun.
  apply while_inv in Hrun as (r & Hiter & _).
  by apply rounds_lines in Hiter.
Qed.

Lemma fincore_name_lines ctl name sb c s o e s' :
  fincore_name ctl name sb c s = (o, e, s') → ps_lines s' = ps_lines s.
Proof.
  unfold fincore_name. unfold bind at 1. unfold sys_open at 1.
  destruct (os_open name (ps_os s)) as [[fd | err] w1].
  - unfold bind at 1. unfold sys_fstat at 1. cbn [ps_os set_os].
    destruct (os_fstat fd w1) as [[st | err] w2].
    + unfold bind at 1.
      destruct (S_ISDIR (st_mode st)).
      * cbn. intros Heq. by inversion Heq.
      * destruct (Z.eqb_spec (st_size st) 0); cbn [negb].
        -- cbn. intros Heq. by inversion Heq.
        -- destruct (fincore_fd ctl fd name (st_size st) c
                       (set_os w2 (set_os w1 s))) as [[o1 e1] s3] eqn:Hfd.
           apply fincore_fd_lines in Hfd.
           destruct o1 as [[rc c'] | | |]; cbn;
             intros Heq; inversion Heq; subst; by rewrite ?Hfd.
    + cbn. intros Heq. by inversion Heq.
  - cbn. intros Heq. by inversion Heq.
Qed.

(** C3 (what the code does). A path that cannot be opened gets the
    diagnostic and leaves [rc] as it was, and the loop goes on; but
    [fincore_name] returns 0 for it, so [main] adds a line for it to the
    table: 0 pages, and as size the content of a [struct stat] that was
    never written. *)
Theorem open_failure_adds_row ctl name rc s err w1 w2 :
  os_open name (ps_os s) = (Err err, w1) →
  os_alloc NewLine w1 = (true, w2) →
  main_body ctl name rc s =
  (Ret rc,
   [EvOpen name (Err err); EvWarn FailedOpen name; EvScols NewLine true],
   {| ps_os := w2; ps_vec := ps_vec s;
      ps_lines := ps_lines s ++ [row ctl name Indeterminate 0] |}).
Proof.
  intros Hopen Halloc.
  unfold main_body, fincore_name. unfold bind at 1 2. unfold sys_open at 1.
  rewrite Hopen. cbn [warn emit bind ret app Z.eqb].
  unfold bind. rewrite add_output_data_run. cbn [ps_os set_os].
  by rewrite Halloc.
Qed.

(** The round of [main] for a file of size 0 that is not a directory. *)
Lemma main_body_empty_file ctl name rc s fd st w1 w2 :
  os_open name (ps_os s) = (Ok fd, w1) →
  os_fstat fd w1 = (Ok st, w2) →
  S_ISDIR (st_mode st) = false →
  st_size st = 0 →
  main_body ctl name rc s =
  match os_alloc NewLine (os_close fd w2) with
  | (true, w3) =>
      (Ret rc,
       [EvOpen name (Ok fd); EvFstat fd (Ok st); EvClose fd; EvScols NewLine true],
       {| ps_os := w3; ps_vec := ps_vec s;
          ps_lines := ps_lines s ++ [row ctl name (Val 0) 0] |})
  | (false, w3) =>
      (Exit EXIT_FAILURE,
       [EvOpen name (Ok fd); EvFstat fd (Ok st); EvClose fd;
        EvScols NewLine false; EvWarn FailedLine ""],
       {| ps_os := w3; ps_vec := ps_vec s; ps_lines := ps_lines s |})
  end.
Proof.
  intros Hopen Hfstat Hdir Hsize.
  unfold main_body, fincore_name. unfold bind at 1 2. unfold sys_open at 1.
  rewrite Hopen. unfold bind at 1. unfold sys_fstat at 1. cbn [ps_os set_os].
  rewrite Hfstat, Hdir. unfold bind at 1. rewrite Hsize.
  cbn [Z.eqb negb ret bind sys_close app].
  unfold bind. rewrite add_output_data_run. cbn [ps_os set_os sb_size].
  rewrite Hsize. by destruct (os_alloc NewLine (os_close fd w2)) as [[|] w3].
Qed.

(** The first events of a round tell what [open] and [fstat] answered. *)
Lemma main_body_probe ctl name rc s o e s' name' fd fd' st tl :
  main_body ctl name rc s = (o, e, s') →
  e = EvOpen name' (Ok fd) :: EvFstat fd' (Ok st) :: tl →
  ∃ w1 w2,
    os_open name (ps_os s) = (Ok fd, w1) ∧ os_fstat fd w1 = (Ok st, w2).
Proof.
  unfold main_body, fincore_name. unfold bind at 1 2. unfold sys_open at 1.
  destruct (os_open name (ps_os s)) as [[fd0 | err] w1] eqn:Hopen.
  - unfold bind at 1. unfold sys_fstat at 1. cbn [ps_os set_os].
    destruct (os_fstat fd0 w1) as [[st0 | err] w2] eqn:Hfstat.
    + match goal with
      | |- context [bind ?m ?f ?st] => destruct (bind m f st) as [[o1 e1] s1]
      end.
      destruct o1 as [a | c | |];
        [match goal with
         | |- context [?f s1] =>
             match type of (f s1) with
             | (outcome Z * list event * pstate W)%type =>
                 destruct (f s1) as [[o2 e2] s2]
             end
         end |..];
        cbn; intros Heq ->; inversion Heq; subst; by exists w1, w2.
    + cbn. intros Heq ->. inversion Heq.
  - cbn.
    destruct (bind (add_output_data ctl columns name Indeterminate 0)
                (λ _ : Z, ret rc) (set_os w1 s)) as [[o2 e2] s2].
    intros Heq ->. inversion Heq.
Qed.

(** A round adds lines to the table, or leaves it as it is. *)
Lemma main_body_lines_grow ctl name rc s o e s' :
  main_body ctl name rc s = (o, e, s') →
  ∃ more, ps_lines s' = ps_lines s ++ more.
Proof.
  unfold main_body. unfold bind at 1.
  destruct (fincore_name ctl name None 0 s) as [[o1 e1] s1] eqn:Hname.
  apply fincore_name_lines in Hname.
  destruct o1 as [[[r sb] c] | | |].
  - destruct (r =? 0).
    + unfold bind. rewrite add_output_data_run.
      destruct (os_alloc NewLine (ps_os s1)) as [[|] w];
        intros Heq; inversion Heq; subst; cbn; rewrite Hname.
      * by eexists.
      * exists []. by rewrite app_nil_r.
    + destruct (r =? 1); cbn; intros Heq; inversion Heq; subst;
        exists []; by rewrite app_nil_r.
  - intros Heq; inversion Heq; subst. exists []. by rewrite app_nil_r.
  - intros Heq; inversion Heq; subst. exists []. by rewrite app_nil_r.
  - intros Heq; inversion Heq; subst. exists []. by rewrite app_nil_r.
Qed.

Lemma main_loop_lines_grow ctl files : ∀ rc s o e s',
  main_loop ctl files rc s = (o, e, s') →
  ∃ more, ps_lines s' = ps_lines s ++ more.
Proof.
  induction files as [| name rest IH]; intros rc s o e s' Hrun.
  - inversion Hrun; subst. exists []. by rewrite app_nil_r.
  - simpl in Hrun. unfold bind in Hrun.
    destruct (main_body ctl name rc s) as [[o1 e1] s1] eqn:Hbody.
    apply main_body_lines_grow in Hbody as [more1 Hm1].
    destruct o1 as [rc1 | | |];
      [destruct (main_loop ctl rest rc1 s1) as [[o2 e2] s2] eqn:Hrest |..];
      inversion Hrun; subst; eauto.
    apply IH in Hrest as [more2 Hm2]. exists (more1 ++ more2).
    by rewrite Hm2, Hm1, app_assoc.
Qed.

(** A round opens its path, first of all and only once, and does
    something more. *)
Lemma main_body_opened ctl name rc s o e s' :
  main_body ctl name rc s = (o, e, s') →
  ∃ r t tl, e = EvOpen name r :: t :: tl ∧ opened (t :: tl) = [].
Proof.
  intros Hbody.
  assert (Hpath : ∀ pe r sb, path_run name pe r sb →
            ∃ r' t tl, pe = EvOpen name r' :: t :: tl ∧ opened (t :: tl) = []).
  { intros pe r sb Hpath.
    pose proof (path_run_opened _ _ _ _ Hpath) as Hopened.
    destruct Hpath as [err | fd err | fd st Hdir | fd st Hdir Hsize
                       | fd st evs rc' Hdir Hsize Hscan];
      eexists _, _, _; (split; [reflexivity |]);
      first [done | by injection Hopened]. }
  destruct (main_body_cases _ _ _ _ _ _ _ Hbody)
    as [(r & sb & pe & Hp & Hcase) | (-> & fd & st & evs & s1 & -> & Hfd)].
  - destruct (Hpath _ _ _ Hp) as (r' & t & tl & -> & Hopened).
    destruct Hcase as [(_ & _ & ->) | [(_ & _ & ->) | [(_ & _ & ->)
                      | (_ & _ & ->)]]];
      eexists r', t, _; (split; [reflexivity |]);
      rewrite ?app_comm_cons, ?opened_app, ?Hopened; done.
  - exists (Ok fd), (EvFstat fd (Ok st)), evs. split; [done |].
    apply fincore_fd_scan in Hfd. simpl in Hfd.
    by apply scan_opened in Hfd.
Qed.

(** In the loop of [main]: when a path is opened and [fstat] finds a file
    of size 0 that is not a directory, the round goes on with [close] and
    the new line of the table, and the line of the file is in the table
    when the loop ends. *)
Lemma main_loop_empty_file ctl name fd st files : ∀ rc s o e s' pre post,
  main_loop ctl files rc s = (o, e, s') →
  existsb is_alloc_failure e = false →
  e = pre ++ EvOpen name (Ok fd) :: EvFstat fd (Ok st) :: post →
  S_ISDIR (st_mode st) = false →
  st_size st = 0 →
  In name files ∧
  In (row ctl name (Val 0) 0) (ps_lines s') ∧
  ∃ post', post = EvClose fd :: EvScols NewLine true :: post'.
Proof.
  induction files as [| name0 rest IH];
    intros rc s o e s' pre post Hrun Halloc He Hdir Hsize.
  - inversion Hrun; subst. by destruct pre.
  - simpl in Hrun. unfold bind in Hrun.
    destruct (main_body ctl name0 rc s) as [[o1 e1] s1] eqn:Hbody.
    assert (Hnext : ∃ e2, e = e1 ++ e2 ∧
              ((∃ rc1, o1 = Ret rc1 ∧ main_loop ctl rest rc1 s1 = (o, e2, s')) ∨
               (e2 = [] ∧ (∀ rc1, o1 ≠ Ret rc1) ∧ s' = s1))).
    { destruct o1 as [rc1 | | |];
        [destruct (main_loop ctl rest rc1 s1) as [[o2 e2] s2] eqn:Hrest |..];
        inversion Hrun; subst.
      - exists e2. split; [done |]. left. by exists rc1.
      - exists []. rewrite app_nil_r. split; [done |]. by right.
      - exists []. rewrite app_nil_r. split; [done |]. by right.
      - exists []. rewrite app_nil_r. split; [done |]. by right. }
    clear Hrun. destruct Hnext as (e2 & -> & Hnext).
    rewrite existsb_app in Halloc. apply orb_false_elim in Halloc as [Halloc1 Halloc2].
    destruct (main_body_opened _ _ _ _ _ _ _ Hbody) as (r & t & tl & -> & Hopened).
    destruct pre as [| p pre].
    + (* the round of this path *)
      simpl in He. injection He as -> -> -> Hpost.
      destruct (main_body_probe _ _ _ _ _ _ _ _ _ _ _ _ Hbody eq_refl)
        as (w1 & w2 & Hopen & Hfstat).
      rewrite (main_body_empty_file _ _ _ _ _ _ _ _ Hopen Hfstat Hdir Hsize)
        in Hbody.
      destruct (os_alloc NewLine (os_close fd w2)) as [[|] w3];
        inversion Hbody; subst; [| done].
      split; [by left |]. split; [| by eexists].
      destruct Hnext as [(rc1 & _ & Hrest) | (_ & Hne & _)];
        [| by destruct (Hne rc)].
      apply main_loop_lines_grow in Hrest as [more ->]. simpl.
      apply in_or_app. left. apply in_or_app. right. by left.
    + (* a round after it *)
      simpl in He. injection He as <- He.
      destruct (opened_split _ _ _ _ _ _ Hopened He) as (pre2 & -> & He2).
      destruct Hnext as [(rc1 & _ & Hrest) | (-> & _)]; [| by destruct pre2].
      destruct (IH _ _ _ _ _ _ _ Hrest Halloc2 He2 Hdir Hsize)
        as (Hin & Hrow & Hpost).
      split; [by right | by split].
Qed.


(** C7. In a run of [main], when the files met leave room for a window
    before [off_t] ends and libsmartcols can allocate: whenever a path of
    the argument list is opened and [fstat] finds a file of size 0 that is
    not a directory, the next events are the [close] of the file and the
    new line of the table: no window is mapped and no residency is queried
    for it.  [main] returns, and the table it prints, the last thing it
    does, has the line of the file: 0 pages, size 0, the path. *)
Theorem empty_file_row page files s o e s' pre name fd st post :
  valid_page page →
  main page files s = (o, e, s') →
  forallb (size_ok {| pagesize := page; bytes := false |}) e = true →
  existsb is_alloc_failure e = false →
  e = pre ++ EvOpen name (Ok fd) :: EvFstat fd (Ok st) :: post →
  S_ISDIR (st_mode st) = false →
  st_size st = 0 →
  In name files ∧
  ∃ post' lines rc,
    e = pre ++ [EvOpen name (Ok fd); EvFstat fd (Ok st); EvClose fd;
                EvScols NewLine true] ++ post' ∧
    o = Ret rc ∧
    last e = Some (EvPrintTable lines) ∧
    In [CellDec (Val 0); CellHuman (Val 0); CellName name] lines.
Proof.
  intros Hpage Hrun Hsizes Halloc He Hdir Hsize.
  assert (Hfiles : files ≠ []).
  { intros ->. cbn in Hrun. injection Hrun as _ <- _.
    destruct pre as [| p [| q pre]]; discriminate. }
  destruct (main_cases _ _ _ _ _ _ Hpage Hfiles Hrun Hsizes)
    as [(_ & _ & _ & _ & _ & _ & _ & Ho) | (_ & Habs)]; [| congruence].
  revert Hrun. unfold main.
  destruct files as [| name0 rest]; [done |].
  set (files := name0 :: rest). set (ctl := {| pagesize := page; bytes := false |}).
  unfold bind at 1. unfold scols_alloc at 1.
  destruct (os_alloc NewTable (ps_os s)) as [[|] w0]; cbn [negb].
  2: { cbn. intros Heq. injection Heq as Heq _ _. congruence. }
  unfold bind at 1.
  destruct (new_columns columns (set_os w0 s)) as [[o1 e1] s1] eqn:Hcols.
  apply new_columns_cases in Hcols as [[-> ->] | (-> & Hfail & _)].
  2: { intros Heq. injection Heq as Heq _ _. congruence. }
  unfold bind at 1.
  destruct (main_loop ctl files EXIT_SUCCESS s1) as [[o2 e2] s2] eqn:Hloop.
  intros Hrun.
  destruct o2 as [rc2 | | |]; cbn in Hrun; injection Hrun as Hout Hev Hst;
    try congruence.
  subst s2. clear Ho.
  change (EvScols NewTable true
          :: EvScols (NewColumn COL_PAGES) true
             :: EvScols (NewColumn COL_SIZE) true
                :: EvScols (NewColumn COL_FILE) true
                   :: e2 ++ [EvPrintTable (ps_lines s')])
    with (setup_events ++ e2 ++ [EvPrintTable (ps_lines s')]) in Hev.
  rewrite He in Hev.
  destruct (opened_split setup_events _ _ _ _ _ eq_refl Hev) as (pre2 & Hpre & He2).
  change (pre2 ++ EvOpen name (Ok fd) :: EvFstat fd (Ok st) :: post)
    with (pre2 ++ [EvOpen name (Ok fd)] ++ EvFstat fd (Ok st) :: post) in He2.
  rewrite app_assoc in He2.
  apply snoc_split in He2 as (post2 & Hpost & He2); [| done].
  rewrite <- app_assoc in He2. simpl in He2.
  assert (Halloc2 : existsb is_alloc_failure e2 = false).
  { rewrite He, <- Hev, !existsb_app in Halloc.
    apply orb_false_elim in Halloc as [_ Halloc].
    by apply orb_false_elim in Halloc as [Halloc _]. }
  destruct (main_loop_empty_file _ _ _ _ _ _ _ _ _ _ _ _ Hloop Halloc2 He2 Hdir Hsize)
    as (Hin & Hrow & post' & Hpost2).
  split; [done |].
  exists (post' ++ [EvPrintTable (ps_lines s')]), (ps_lines s'), rc2.
  split; [| split; [done | split]].
  - by rewrite He, Hpost, Hpost2.
  - rewrite He, <- Hev. rewrite app_assoc. apply last_snoc.
  - exact Hrow.
Qed.

(** C5. When an [mmap] fails during the round of [main] for a path: the
    failed call is the last [mmap] of the round, followed only by its
    diagnostic, the one diagnostic of the round, and by [close]; no line
    is added to the table; [rc] becomes [EXIT_FAILURE]; and the loop goes
    on with the paths that follow. *)
Theorem mmap_failure_fails_the_file ctl name rest rc s o e s' :
  main_body ctl name rc s = (o, e, s') →
  existsb is_mmap_failure e = true →
  o = Ret EXIT_FAILURE ∧
  (∃ pre fd hint len off err,
     e = pre ++ [EvMmap hint len fd off (Err err); EvWarn FailedMmap name;
                 EvClose fd] ∧
     existsb is_mmap_failure pre = false ∧
     existsb is_diagnostic pre = false) ∧
  count_of is_diagnostic e = 1%nat ∧
  existsb is_new_line e = false ∧
  ps_lines s' = ps_lines s ∧
  main_loop ctl (name :: rest) rc s =
    (let '(o', e', s'') := main_loop ctl rest EXIT_FAILURE s' in
     (o', e ++ e', s'')).
Proof.
  intros Hbody Hfail.
  assert (Hshape : o = Ret EXIT_FAILURE ∧ ∃ r sb, r < 0 ∧ path_run name e r sb).
  { destruct (main_body_cases _ _ _ _ _ _ _ Hbody)
      as [(r & sb & pe & Hpath & Hcase) | (-> & fd & st & evs & s1 & -> & Hfd)].
    - destruct (path_run_fatal _ _ _ _ Hpath) as [[Hrc Hfatal] | [Hrc Hfatal]].
      + exfalso.
        assert (Hpe : existsb is_mmap_failure pe = true).
        { destruct Hcase as [(_ & _ & ->) | [(_ & _ & ->) | [(_ & _ & ->)
                            | (_ & _ & ->)]]]; try done;
            rewrite existsb_app in Hfail; simpl in Hfail;
            by rewrite orb_false_r in Hfail. }
        apply mmap_failure_is_fatal in Hpe. congruence.
      + destruct Hcase as [(-> & _) | [(-> & _) | [(-> & _) | (_ & -> & ->)]]];
          try lia.
        split; [done |]. by exists r, sb.
    - exfalso. apply fincore_fd_scan in Hfd. simpl in Hfail.
      by destruct (scan_mmap_failure _ _ _ _ Hfd Hfail) as [? _]. }
  destruct Hshape as (-> & r & sb & Hneg & Hpath).
  assert (Hlines : ps_lines s' = ps_lines s).
  { unfold main_body in Hbody. unfold bind at 1 in Hbody.
    destruct (fincore_name ctl name None 0 s) as [[o1 e1] s1] eqn:Hname.
    apply fincore_name_lines in Hname.
    destruct (path_run_no_alloc _ _ _ _ Hpath) as [Hline _].
    destruct o1 as [[[r1 sb1] c1] | | |]; try done.
    destruct (Z.eqb_spec r1 0);
      [| destruct (Z.eqb_spec r1 1); cbn in Hbody; by inversion Hbody; subst].
    unfold bind in Hbody. rewrite add_output_data_run in Hbody.
    destruct (os_alloc NewLine (ps_os s1)) as [[|] w]; inversion Hbody; subst;
      rewrite existsb_app in Hline; simpl in Hline;
      by rewrite orb_true_r in Hline. }
  assert (Hdecomp : ∃ pre fd hint len off err,
            e = pre ++ [EvMmap hint len fd off (Err err); EvWarn FailedMmap name;
                        EvClose fd] ∧
            existsb is_mmap_failure pre = false ∧
            existsb is_diagnostic pre = false).
  { destruct Hpath as [err | fd err | fd st Hdir | fd st Hdir Hsize
                       | fd st evs rc' Hdir Hsize Hscan]; try done.
    simpl in Hfail. rewrite existsb_app in Hfail. simpl in Hfail.
    rewrite orb_false_r in Hfail.
    destruct (scan_mmap_failure _ _ _ _ Hscan Hfail)
      as (_ & pre & hint & len & off & err & -> & Hpre & Hdiag).
    exists (EvOpen name (Ok fd) :: EvFstat fd (Ok st) :: pre), fd, hint, len, off, err.
    split; [| by split].
    simpl. by rewrite <- app_assoc. }
  split; [done |]. split; [exact Hdecomp |].
  destruct (path_run_no_alloc _ _ _ _ Hpath) as [Hline _].
  repeat split; try done.
  - destruct Hdecomp as (pre & fd & hint & len & off & err & -> & _ & Hdiag).
    by rewrite count_of_app, (count_of_none _ _ Hdiag).
  - simpl. unfold bind. by rewrite Hbody.
Qed.

(** C8 (amended). With at least one argument, when the files met leave
    room for a window before [off_t] ends, the process ends with an exit
    status: [EXIT_FAILURE] when a [fstat], an [mmap] or a [mincore] failed
    or libsmartcols could not allocate, [EXIT_SUCCESS] otherwise.  A
    directory or a path that cannot be opened is no such failure. *)
Theorem exit_status_fatal_only page files s o e s' :
  valid_page page → files ≠ [] →
  main page files s = (o, e, s') →
  forallb (size_ok {| pagesize := page; bytes := false |}) e = true →
  exit_status o =
  Some (if existsb is_fatal e || existsb is_alloc_failure e
        then EXIT_FAILURE else EXIT_SUCCESS).
Proof.
  intros Hpage Hfiles Hrun Hsizes.
  destruct (main_cases _ _ _ _ _ _ Hpage Hfiles Hrun Hsizes)
    as [(segs & vs & lines & _ & _ & Halloc & _ & ->) | (-> & Halloc)].
  - rewrite Halloc, orb_false_r. simpl. by destruct (existsb is_fatal e).
  - by rewrite Halloc, orb_true_r.
Qed.


End Claims.

(** ** The window that is not released *)

Section Release.
Context {W : Type} `{!OS W}.
Implicit Types s : pstate W.

(** When no [mincore] fails, every window that was mapped is released
    before the next is mapped and before [fincore_fd] returns. *)
Lemma fincore_fd_releases ctl fd name fs c s o e s' :
  fincore_fd ctl fd name fs c s = (o, e, s') →
  existsb is_mincore_failure e = false →
  leaked e = [].
Proof.
  intros Hrun Hok. apply fincore_fd_scan in Hrun.
  assert (Hscan : ∃ r, scan fd name e r).
  { destruct o as [[rc c'] | | |]; try done; eauto. }
  destruct Hscan as [r Hscan]. apply scan_leaked in Hscan.
  by rewrite Hok in Hscan.
Qed.

(** C4 (what the code does). When a [mincore] fails, [fincore_fd] leaves
    the loop with [break] before [munmap]: the window whose query failed
    is still mapped when the function returns, the diagnostic being the
    last thing the scan does. *)
Theorem mincore_failure_leaks_window ctl fd name fs c s o e s' :
  fincore_fd ctl fd name fs c s = (o, e, s') →
  existsb is_mincore_failure e = true →
  ∃ hint len off addr err,
    leaked e = [(addr, len)] ∧
    last e = Some (EvWarn FailedMincore name) ∧
    In (EvMmap hint len fd off (Ok addr)) e ∧
    In (EvMincore addr len (Err err)) e.
Proof.
  intros Hrun Hfail. apply fincore_fd_scan in Hrun.
  assert (Hscan : ∃ r, scan fd name e r).
  { destruct o as [[rc c'] | | |]; try done; eauto. }
  destruct Hscan as [r Hscan]. apply scan_leaked in Hscan.
  by rewrite Hfail in Hscan.
Qed.

End Release.

(** ** Pages of 64 KiB *)

Lemma window_size_64k : window_size Toy.ctl64k = 2 ^ 64 - 2 ^ 31.
Proof. reflexivity. Qed.

Section Overflow.
Context {W : Type} `{!OS W}.
Implicit Types s : pstate W.

(** With pages of 64 KiB, on every kernel: once the first window of a
    file of one byte is mapped and queried, the loop of [fincore_fd] goes
    round again and asks [mmap] for 2^31 + 1 bytes at offset -2^31. *)
Lemma second_window_at_64k fd name s o e s' addr w v w' :
  os_mmap 0 1 fd 0 (ps_os s) = (Ok addr, w) →
  os_mincore addr 1 (ps_vec s) w = (Ok v, w') →
  fincore_fd Toy.ctl64k fd name 1 0 s = (o, e, s') →
  ∃ rest, mmap_windows e = (0, 1) :: (-2147483648, 2147483649) :: rest.
Proof.
  intros Hmmap Hmc. unfold fincore_fd. intros Hrun.
  apply while_inv in Hrun as (r & Hiter & _).
  pose proof loop_bound_nat as Hbound.
  destruct (Pos.to_nat LOOP_BOUND) as [| [| m]];
    [simpl in Hbound; lia | simpl in Hbound; lia | clear Hbound].
  rewrite iter_nat_S in Hiter.
  destruct (fincore_fd_body Toy.ctl64k fd name 1 (0, 0, 0, false, 0) s)
    as [[o1 e1] s1] eqn:Hfirst.
  pose proof (fincore_fd_body_round _ _ _ _ _ _ _ _ _ _ _ Hfirst) as Hround.
  unfold bind in Hiter. rewrite Hfirst in Hiter. clear Hfirst.
  destruct Hround as [Hge | err w1 Hlt Hmmap1 | addr1 w1 err w1' Hlt Hmmap1 Hmc1
                      | addr1 w1 v1 w1' Hlt Hmmap1 Hmc1 len1 n1];
    [lia | | |]; try (subst len1; clearbody n1);
    change (window_len Toy.ctl64k 1 0) with 1 in *;
    change (next_offset Toy.ctl64k 0) with (-2147483648) in *.
  { congruence. }
  { rewrite Hmmap in Hmmap1. inversion Hmmap1; subst. congruence. }
  rewrite Hmmap in Hmmap1. inversion Hmmap1; subst addr1 w1. clear Hmmap1.
  cbn [continue_with] in Hiter.
  match type of Hiter with
  | context [iter_nat (S m) ?body ?vars ?st] =>
      destruct (iter_nat (S m) body vars st) as [[o2 e2] s2] eqn:Hsecond
  end.
  assert (Hwin : ∃ res rest2,
            e2 = EvMmap addr 2147483649 fd (-2147483648) res :: rest2).
  { rewrite iter_nat_S in Hsecond. unfold bind in Hsecond.
    match type of Hsecond with
    | context [fincore_fd_body ?c ?f ?n ?fs ?vars ?st] =>
        destruct (fincore_fd_body c f n fs vars st) as [[o3 e3] s3] eqn:Hbody
    end.
    pose proof (fincore_fd_body_round _ _ _ _ _ _ _ _ _ _ _ Hbody) as Hround.
    clear Hbody.
    destruct Hround as [Hge | err w2 Hlt2 Hmmap2 | addr2 w2 err w2' Hlt2 Hmmap2 Hmc2
                        | addr2 w2 v2 w2' Hlt2 Hmmap2 Hmc2 len2 n2];
      [lia | | |]; try (subst len2; clearbody n2);
      change (window_len Toy.ctl64k 1 (-2147483648)) with 2147483649 in *.
    - injection Hsecond as _ <- _. eauto.
    - injection Hsecond as _ <- _. eauto.
    - cbn [continue_with] in Hsecond.
      match type of Hsecond with
      | context [iter_nat m ?body ?vars ?st] =>
          destruct (iter_nat m body vars st) as [[o4 e4] s4]
      end.
      injection Hsecond as _ <- _. by eexists _, _. }
  destruct Hwin as (res & rest2 & ->).
  injection Hiter as _ <- _.
  exists (mmap_windows rest2).
  unfold mmap_windows. cbn [flat_map app]. rewrite !flat_map_app.
  fold (mmap_windows (vec_events n1 v1)).
  rewrite mmap_windows_vec_events. reflexivity.
Qed.

End Overflow.

(** ** The count of a whole scan *)

Lemma count_reads_vec_events n (v : list Z) :
  count_of is_resident_read (vec_events n v) = counted n v.
Proof.
  induction n as [| n IH]; [done |].
  rewrite counted_S. cbn [vec_events]. unfold count_of in *.
  cbn [List.filter is_resident_read].
  destruct (resident (vec_at v n)); simpl; rewrite IH; lia.
Qed.

Lemma length_vec_reads_vec_events n (v : list Z) :
  length (vec_reads (vec_events n v)) = n.
Proof. by rewrite vec_reads_vec_events, length_rev, length_seq. Qed.

Lemma vec_reads_app e1 e2 : vec_reads (e1 ++ e2) = vec_reads e1 ++ vec_reads e2.
Proof. apply flat_map_app. Qed.

Lemma vec_writes_app e1 e2 : vec_writes (e1 ++ e2) = vec_writes e1 ++ vec_writes e2.
Proof. apply flat_map_app. Qed.

Section Count.
Context {W : Type} `{!OS W}.
Implicit Types s : pstate W.

Lemma rounds_count ctl fd name fs n : ∀ off win c s o e s' c',
  iter_nat n (fincore_fd_body ctl fd name fs) (off, win, 0, false, c) s
    = (o, e, s') →
  0 ≤ c → c + Z.of_nat (length (vec_reads e)) ≤ OFF_MAX →
  count_left o = Some c' →
  c' = c + Z.of_nat (count_of is_resident_read e).
Proof.
  induction n as [| n IH]; intros off win c s o e s' c'.
  - intros Heq. inversion Heq; subst. simpl. intros _ _ [= <-].
    unfold count_of. simpl. lia.
  - rewrite iter_nat_S. intros Hrun Hc Hmax Hleft.
    destruct (fincore_fd_body ctl fd name fs (off, win, 0, false, c) s)
      as [[o1 e1] s1] eqn:Hbody.
    pose proof (fincore_fd_body_round _ _ _ _ _ _ _ _ _ _ _ Hbody) as Hround.
    unfold bind in Hrun. rewrite Hbody in Hrun.
    destruct Hround as [Hge | err w Hlt Hmmap | addr w err w' Hlt Hmmap Hmc
                        | addr w v w' Hlt Hmmap Hmc len k];
      cbn - [iter_nat] in Hrun.
    1-3: inversion Hrun; subst; simpl in Hleft; injection Hleft as <-;
      unfold count_of; simpl; lia.
    destruct (iter_nat n _ _ _) as [[o2 e2] s2] eqn:Hrest in Hrun.
    inversion Hrun; subst o e s'. clear Hrun.
    assert (Hreads : length (vec_reads
              (EvMmap win len fd off (Ok addr) :: EvMincore addr len (Ok tt)
               :: (vec_events k v ++ [EvMunmap addr len]) ++ e2))
            = (k + length (vec_reads e2))%nat).
    { change (vec_reads (_ :: _ :: ?l)) with (vec_reads l).
      rewrite !vec_reads_app, !length_app, length_vec_reads_vec_events.
      simpl. lia. }
    assert (Hcount : count_of is_resident_read
              (EvMmap win len fd off (Ok addr) :: EvMincore addr len (Ok tt)
               :: (vec_events k v ++ [EvMunmap addr len]) ++ e2)
            = (counted k v + count_of is_resident_read e2)%nat).
    { change (count_of is_resident_read (_ :: _ :: ?l))
        with (count_of is_resident_read l).
      rewrite !count_of_app, count_reads_vec_events.
      change (count_of is_resident_read [EvMunmap addr len]) with 0%nat. lia. }
    rewrite Hreads in Hmax. rewrite Hcount.
    pose proof (counted_le k v) as Hle.
    assert (Hval : count_value k c v = c + Z.of_nat (counted k v))
      by (apply count_value_counted; lia).
    rewrite (IH _ _ _ _ _ _ _ c' Hrest); [lia | lia | lia | done].
Qed.

Lemma fincore_fd_count ctl fd name fs c s rc c' e s' :
  fincore_fd ctl fd name fs c s = (Ret (rc, c'), e, s') →
  0 ≤ c → c + Z.of_nat (length (vec_reads e)) ≤ OFF_MAX →
  c' = c + Z.of_nat (count_of is_resident_read e).
Proof.
  unfold fincore_fd. intros Hrun Hc Hmax.
  apply while_inv in Hrun as (r & Hiter & Hr).
  assert (Hleft : count_left r = Some c').
  { clear Hiter.
    destruct r as [[[[[[off2 win2] rc2] wo2] c2] | [rc2 c2]] | | |];
      try discriminate Hr.
    by injection Hr as _ <-. }
  exact (rounds_count _ _ _ _ _ _ _ _ _ _ _ _ _ Hiter Hc Hmax Hleft).
Qed.

(** X5. Without overflow of [off_t], the count that [fincore_fd] returns
    is the count it was called with plus the number of reads of [vec] that
    found the lowest bit set, over all the windows of the scan, whether
    the scan succeeded or was cut short. *)
Theorem scan_count_is_resident_reads ctl fd name fs c s rc c' e s' :
  fincore_fd ctl fd name fs c s = (Ret (rc, c'), e, s') →
  0 ≤ c → c + Z.of_nat (length (vec_reads e)) ≤ OFF_MAX →
  c' = c + Z.of_nat (count_of is_resident_read e).
Proof. apply fincore_fd_count. Qed.

End Count.

(** ** Scans that meet no failure *)

Lemma counted_all n (v : list Z) :
  (∀ i, (i < n)%nat → resident (vec_at v i) = true) → counted n v = n.
Proof.
  induction n as [| n IH]; intros Hall; [done |].
  rewrite counted_S, (Hall n) by lia. rewrite IH; [lia |].
  intros i Hi. apply Hall. lia.
Qed.

Lemma tiles_prefix_aligned wsize size off ws :
  0 < wsize → (wsize | off) →
  tiles_prefix wsize size off ws → Forall (λ w, (wsize | w.1)) ws.
Proof.
  intros Hw. revert off. induction ws as [| [o len] rest IH]; intros off Hoff.
  - constructor.
  - simpl. intros (-> & Hlt & Hlen & Hrest). constructor; [done |].
    destruct (Z.le_gt_cases wsize (size - off)) as [Hfull | Hlast].
    + rewrite Z.min_l in Hlen by done. subst len.
      apply (IH (off + wsize)); [| done].
      by apply Z.divide_add_r; [| apply Z.divide_refl].
    + rewrite Z.min_r in Hlen by lia. subst len.
      assert (rest = []) as -> by (eapply tiles_prefix_end; [| exact Hrest]; lia).
      constructor.
Qed.

Lemma no_fatal_no_mincore_failure e :
  existsb is_fatal e = false → existsb is_mincore_failure e = false.
Proof.
  induction e as [| x e IH]; [done |]. simpl.
  intros [Hx He]%orb_false_elim. rewrite (IH He), orb_false_r.
  unfold is_fatal in Hx. apply orb_false_elim in Hx as [_ Hx]. done.
Qed.

Section Scan2.
Context {W : Type} `{!OS W}.
Implicit Types s : pstate W.

(** With a kernel that never refuses and reports every page resident, the
    rounds of the loop leave it with return code 0 only, and every page
    from [off] on is counted. *)
Lemma rounds_cached ctl fd name fs :
  valid_page (pagesize ctl) → fs ≤ OFF_MAX - window_size ctl →
  mmap_answers fd → all_resident →
  ∀ n off win c s o e s',
    0 ≤ off → 0 ≤ c →
    c + ceil_div (Z.max 0 (fs - off)) (pagesize ctl) ≤ OFF_MAX →
    iter_nat n (fincore_fd_body ctl fd name fs) (off, win, 0, false, c) s
      = (o, e, s') →
    match o with
    | Ret (inr (rc, c')) =>
        rc = 0 ∧ c' = c + ceil_div (Z.max 0 (fs - off)) (pagesize ctl)
    | Ret (inl (off', _, _, _, c')) =>
        0 ≤ off' ∧ 0 ≤ c' ∧
        c' + ceil_div (Z.max 0 (fs - off')) (pagesize ctl)
        = c + ceil_div (Z.max 0 (fs - off)) (pagesize ctl)
    | _ => False
    end.
Proof.
  intros Hpage Hfs Hmmap Hres.
  pose proof (window_size_valid ctl Hpage) as HW.
  assert (Hps : 0 < pagesize ctl) by apply Hpage.
  assert (HWpos : 0 < window_size ctl)
    by (rewrite HW; unfold N_PAGES_IN_WINDOW; lia).
  assert (HWmax : window_size ctl ≤ INT_MAX) by (rewrite HW; apply Hpage).
  intros n. induction n as [| n IH]; intros off win c s o e s' Hoff Hc Hcmax.
  - simpl. intros Heq. inversion Heq; subst. done.
  - rewrite iter_nat_S. intros Hrun.
    destruct (fincore_fd_body ctl fd name fs (off, win, 0, false, c) s)
      as [[o1 e1] s1] eqn:Hbody.
    pose proof (fincore_fd_body_round _ _ _ _ _ _ _ _ _ _ _ Hbody) as Hround.
    unfold bind in Hrun. rewrite Hbody in Hrun. clear Hbody.
    destruct Hround as [Hge | err w Hlt Hm | addr w err w' Hlt Hm Hmc
                        | addr w v w' Hlt Hm Hmc len k].
    + cbn in Hrun. inversion Hrun; subst. split; [done |].
      rewrite Z.max_l by lia. rewrite ceil_div_0 by done. lia.
    + exfalso.
      assert (Hlen : 0 < window_len ctl fs off).
      { rewrite window_len_valid; [lia | done | lia |].
        unfold INT_MAX, OFF_MAX in *. lia. }
      destruct (Hmmap win _ off (ps_os s) ltac:(lia) Hlen) as (a & w0 & Heq).
      congruence.
    + exfalso.
      destruct (Hres addr (window_len ctl fs off) (ps_vec s) w)
        as (v0 & w0 & Heq & _).
      congruence.
    + assert (Hlendef : len = Z.min (window_size ctl) (fs - off)).
      { subst len. apply window_len_valid; [done | lia |].
        unfold INT_MAX, OFF_MAX in *. lia. }
      assert (Hkdef : k = Z.to_nat (page_count ctl len)) by done.
      clearbody k len.
      assert (Hlen : 0 < len ≤ N_PAGES_IN_WINDOW * pagesize ctl)
        by (rewrite <- HW; lia).
      destruct (page_count_ceil ctl len Hps) as [Hn Hnmax];
        [unfold INT_MAX in *; lia | lia |].
      pose proof (pages_split (pagesize ctl) (fs - off) Hps ltac:(lia)) as Hsplit.
      rewrite <- HW, <- Hlendef in Hsplit.
      rewrite (Z.max_r 0 (fs - off)) in Hcmax |- * by lia.
      pose proof (ceil_div_bounds (Z.max 0 (fs - off - window_size ctl))
                    (pagesize ctl) Hps ltac:(lia)) as [Hrest _].
      assert (Hkz : Z.of_nat k = ceil_div len (pagesize ctl))
        by (rewrite Hkdef, Z2Nat.id; lia).
      assert (Hcounted : counted k v = k).
      { apply counted_all. intros i Hi.
        destruct (Hres addr (window_len ctl fs off) (ps_vec s) w)
          as (v0 & w0 & Heq & Hbits).
        rewrite Hmc in Heq. injection Heq as <- _.
        rewrite resident_testbit. apply Hbits. lia. }
      assert (Hval : count_value k c v = c + Z.of_nat k).
      { rewrite count_value_counted by lia. by rewrite Hcounted. }
      rewrite (next_offset_valid ctl fs off) in Hrun by (done || lia).
      cbn [continue_with] in Hrun.
      destruct (iter_nat n _ _ _) as [[o2 e2] s2] eqn:Hnext in Hrun.
      apply IH in Hnext; [| lia | lia |].
      2: { replace (fs - (off + window_size ctl))
             with (fs - off - window_size ctl) by lia. lia. }
      replace (fs - (off + window_size ctl))
        with (fs - off - window_size ctl) in Hnext by lia.
      injection Hrun as <- _ _.
      destruct o2 as [[[[[[off2 win2] rc2] wo2] c2] | [rc2 c2]] | | |];
        try done.
      * destruct Hnext as (? & ? & ?). repeat split; lia.
      * destruct Hnext as (? & ?). split; lia.
Qed.

(** Every access to [vec] during the rounds is inside the array. *)
Lemma rounds_in_bounds ctl fd name fs :
  valid_page (pagesize ctl) → fs ≤ OFF_MAX - window_size ctl →
  ∀ n off win c s o e s',
    0 ≤ off →
    iter_nat n (fincore_fd_body ctl fd name fs) (off, win, 0, false, c) s
      = (o, e, s') →
    Forall (λ i, Z.of_nat i < N_PAGES_IN_WINDOW) (vec_reads e) ∧
    Forall (λ iv, Z.of_nat iv.1 < N_PAGES_IN_WINDOW ∧ iv.2 = 0) (vec_writes e).
Proof.
  intros Hpage Hfs.
  pose proof (window_size_valid ctl Hpage) as HW.
  assert (Hps : 0 < pagesize ctl) by apply Hpage.
  assert (HWpos : 0 < window_size ctl)
    by (rewrite HW; unfold N_PAGES_IN_WINDOW; lia).
  assert (HWmax : window_size ctl ≤ INT_MAX) by (rewrite HW; apply Hpage).
  intros n. induction n as [| n IH]; intros off win c s o e s' Hoff.
  - simpl. intros Heq. inversion Heq; subst. by split.
  - rewrite iter_nat_S. intros Hrun.
    destruct (fincore_fd_body ctl fd name fs (off, win, 0, false, c) s)
      as [[o1 e1] s1] eqn:Hbody.
    pose proof (fincore_fd_body_round _ _ _ _ _ _ _ _ _ _ _ Hbody) as Hround.
    unfold bind in Hrun. rewrite Hbody in Hrun. clear Hbody.
    destruct Hround as [Hge | err w Hlt Hm | addr w err w' Hlt Hm Hmc
                        | addr w v w' Hlt Hm Hmc len k].
    1-3: cbn in Hrun; inversion Hrun; subst; by split.
    assert (Hlendef : len = Z.min (window_size ctl) (fs - off)).
    { subst len. apply window_len_valid; [done | lia |].
      unfold INT_MAX, OFF_MAX in *. lia. }
    assert (Hkdef : k = Z.to_nat (page_count ctl len)) by done.
    clearbody k len.
    assert (Hlen : 0 < len ≤ N_PAGES_IN_WINDOW * pagesize ctl)
      by (rewrite <- HW; lia).
    destruct (page_count_ceil ctl len Hps) as [Hn Hnmax];
      [unfold INT_MAX in *; lia | lia |].
    rewrite (next_offset_valid ctl fs off) in Hrun by (done || lia).
    cbn [continue_with] in Hrun.
    destruct (iter_nat n _ _ _) as [[o2 e2] s2] eqn:Hnext in Hrun.
    apply IH in Hnext as [Hr2 Hw2]; [| lia].
    injection Hrun as _ <- _.
    change (vec_reads (_ :: _ :: ?l)) with (vec_reads l).
    change (vec_writes (_ :: _ :: ?l)) with (vec_writes l).
    rewrite !vec_reads_app, !vec_writes_app.
    change (vec_reads [EvMunmap addr len]) with (@nil nat).
    change (vec_writes [EvMunmap addr len]) with (@nil (nat * Z)).
    rewrite !app_nil_r, vec_reads_vec_events, vec_writes_vec_events.
    split.
    + apply Forall_app. split; [| done].
      apply Forall_forall. intros i Hi.
      apply list_elem_of_In, in_rev, in_seq in Hi. lia.
    + apply Forall_app. split; [| done].
      apply Forall_forall. intros [i z] Hi.
      apply list_elem_of_In, in_map_iff in Hi as (j & Heq & Hj).
      injection Heq as <- <-. apply filter_In in Hj as [Hj _].
      apply in_rev, in_seq in Hj. simpl. lia.
Qed.


(** X1. For a page size below 64 KiB and a file that ends a window before
    [off_t] does, [fincore_fd] returns; the windows it hands to [mmap]
    begin a tiling of [\[0, size)] by windows of [N_PAGES_IN_WINDOW] pages,
    each at an offset that is a multiple of the page size; and when it
    returns 0 they are the whole tiling, [ceil(size / window size)]
    windows. *)
Theorem windows_tile_the_file ctl fd name fs s o e s' :
  valid_page (pagesize ctl) →
  0 < fs ≤ OFF_MAX - N_PAGES_IN_WINDOW * pagesize ctl →
  fincore_fd ctl fd name fs 0 s = (o, e, s') →
  let wsize := N_PAGES_IN_WINDOW * pagesize ctl in
  ∃ rc count,
    o = Ret (rc, count) ∧
    tiles_prefix wsize fs 0 (mmap_windows e) ∧
    Forall (λ w, (pagesize ctl | w.1)) (mmap_windows e) ∧
    (rc = 0 →
     tiles wsize fs 0 (mmap_windows e) ∧
     Z.of_nat (length (mmap_windows e)) = ceil_div fs wsize).
Proof.
  intros Hpage Hfs Hrun wsize. subst wsize.
  pose proof (window_size_valid ctl Hpage) as HW.
  assert (Hps : 0 < pagesize ctl) by apply Hpage.
  assert (HWpos : 0 < window_size ctl)
    by (rewrite HW; unfold N_PAGES_IN_WINDOW; lia).
  rewrite <- HW in Hfs |- *.
  destruct (fincore_fd_tiles _ _ _ _ _ _ _ _ Hpage Hfs Hrun)
    as (_ & rc & count & -> & Hpre & Htiles).
  exists rc, count. repeat split; try done; try (by apply Htiles).
  eapply Forall_impl;
    [apply (tiles_prefix_aligned (window_size ctl) fs 0);
       [done | apply Z.divide_0_r | done] |].
  intros [off len] Hdiv. simpl in *.
  etransitivity; [| exact Hdiv]. rewrite HW. by exists N_PAGES_IN_WINDOW.
Qed.

(** X3. For a page size below 64 KiB and a file that ends a window before
    [off_t] does, whatever the kernel answers: every read and every write
    of [vec] during [fincore_fd] has an index below [N_PAGES_IN_WINDOW],
    the size of the array, and every write stores 0. *)
Theorem scan_accesses_in_bounds ctl fd name fs c s o e s' :
  valid_page (pagesize ctl) →
  fs ≤ OFF_MAX - N_PAGES_IN_WINDOW * pagesize ctl →
  fincore_fd ctl fd name fs c s = (o, e, s') →
  Forall (λ i, Z.of_nat i < N_PAGES_IN_WINDOW) (vec_reads e) ∧
  Forall (λ iv, Z.of_nat iv.1 < N_PAGES_IN_WINDOW ∧ iv.2 = 0) (vec_writes e).
Proof.
  intros Hpage Hfs. rewrite <- (window_size_valid ctl Hpage) in Hfs.
  unfold fincore_fd. intros Hrun.
  apply while_inv in Hrun as (r & Hiter & _).
  exact (rounds_in_bounds ctl fd name fs Hpage Hfs _ _ _ _ _ _ _ _
           (Z.le_refl 0) Hiter).
Qed.

(** On such a kernel a scan that returns returns 0 and the number of
    pages of the file. *)
Lemma fincore_fd_cached ctl fd name fs s rc c' e s' :
  valid_page (pagesize ctl) → 0 < fs ≤ OFF_MAX - window_size ctl →
  mmap_answers fd → all_resident →
  fincore_fd ctl fd name fs 0 s = (Ret (rc, c'), e, s') →
  rc = 0 ∧ c' = ceil_div fs (pagesize ctl).
Proof.
  intros Hpage Hfs Hmmap Hres.
  assert (Hps : 0 < pagesize ctl) by apply Hpage.
  pose proof (ceil_div_le_self fs (pagesize ctl) Hps ltac:(lia)) as Hle.
  assert (HWpos : 0 < window_size ctl).
  { rewrite (window_size_valid ctl Hpage). unfold N_PAGES_IN_WINDOW. lia. }
  unfold fincore_fd. intros Hrun.
  apply while_inv in Hrun as (r & Hiter & Hr).
  assert (Hcached := rounds_cached ctl fd name fs Hpage ltac:(lia) Hmmap Hres
                       (Pos.to_nat LOOP_BOUND) 0 0 0 s r e s'
                       (Z.le_refl 0) (Z.le_refl 0)).
  rewrite Z.sub_0_r, Z.max_r in Hcached by lia.
  specialize (Hcached ltac:(lia) Hiter). clear Hiter.
  destruct r as [[[[[[off2 win2] rc2] wo2] c2] | [rc2 c2]] | | |];
    try discriminate Hr; try done.
  injection Hr as <- <-. destruct Hcached as [-> ->]. split; lia.
Qed.

(** X2. For a page size below 64 KiB and a file that ends a window before
    [off_t] does, on a kernel that maps every window and reports every
    page resident: [fincore_fd] returns 0 with the count
    [ceil(size / pagesize)], every page of the file; the windows it mapped
    tile [\[0, size)]; and none is left mapped. *)
Theorem cached_file_counts_every_page ctl fd name fs s :
  valid_page (pagesize ctl) →
  0 < fs ≤ OFF_MAX - N_PAGES_IN_WINDOW * pagesize ctl →
  mmap_answers fd → all_resident →
  ∃ e s',
    fincore_fd ctl fd name fs 0 s =
      (Ret (0, ceil_div fs (pagesize ctl)), e, s') ∧
    tiles (N_PAGES_IN_WINDOW * pagesize ctl) fs 0 (mmap_windows e) ∧
    leaked e = [].
Proof.
  intros Hpage Hfs Hmmap Hres.
  pose proof (window_size_valid ctl Hpage) as HW. rewrite <- HW in Hfs |- *.
  assert (Hps : 0 < pagesize ctl) by apply Hpage.
  pose proof (ceil_div_le_self fs (pagesize ctl) Hps ltac:(lia)) as Hle.
  assert (HWpos : 0 < window_size ctl)
    by (rewrite HW; unfold N_PAGES_IN_WINDOW; lia).
  destruct (fincore_fd_returns ctl fd name fs 0 s Hpage)
    as (rc & c' & e & s' & Hrun & _ & Htiles & _);
    [lia | done | rewrite Z.max_r by lia; lia |].
  assert (Hrc : rc = 0 ∧ c' = ceil_div fs (pagesize ctl)).
  { exact (fincore_fd_cached ctl fd name fs s rc c' e s' Hpage ltac:(lia)
             Hmmap Hres Hrun). }
  destruct Hrc as [-> ->]. exists e, s'. split; [done |]. split; [auto |].
  eapply fincore_fd_releases; [exact Hrun |].
  apply no_fatal_no_mincore_failure.
  apply fincore_fd_scan in Hrun. simpl in Hrun.
  by destruct (scan_fatal _ _ _ _ Hrun) as [_ ->].
Qed.

(** X4. When no [mincore] fails, every window that [fincore_fd] mapped
    is unmapped, with the address [mmap] gave and the length it was mapped
    with, before the function returns: also when a later [mmap] fails. *)
Theorem windows_released_without_mincore_failure ctl fd name fs c s o e s' :
  fincore_fd ctl fd name fs c s = (o, e, s') →
  existsb is_mincore_failure e = false →
  leaked e = [].
Proof. apply fincore_fd_releases. Qed.

End Scan2.

(** ** Pages of 64 KiB, every file *)

Section Overflow2.
Context {W : Type} `{!OS W}.
Implicit Types s : pstate W.


End Overflow2.

(** ** The other rounds of the loop *)

Lemma fd_step_quiet evs live :
  existsb is_fd_event evs = false →
  fold_left fd_step evs live = live ∧ fstat_failed_fds evs = [].
Proof.
  revert live. induction evs as [| e evs IH]; intros live; [done |].
  simpl. intros [He Hevs]%orb_false_elim.
  destruct (IH (fd_step live e) Hevs) as [-> Hf].
  unfold fstat_failed_fds in *. simpl. rewrite Hf.
  by destruct e.
Qed.

Lemma mincore_failure_is_fatal evs :
  existsb is_mincore_failure evs = true → existsb is_fatal evs = true.
Proof.
  induction evs as [| e evs IH]; [done |]. simpl.
  intros [He | Hevs]%orb_prop.
  - unfold is_fatal. by rewrite He, orb_true_r.
  - by rewrite (IH Hevs), orb_true_r.
Qed.

(** A failed [mincore] ends the scan: it follows the [mmap] of its
    window, the one diagnostic of the scan follows it, and the return code
    is the negated [errno]. *)
Lemma scan_mincore_failure fd name e r :
  scan fd name e r →
  existsb is_mincore_failure e = true →
  ∃ pre hint len off addr err,
    r = Some (- Z.pos err) ∧
    e = pre ++ [EvMmap hint len fd off (Ok addr); EvMincore addr len (Err err);
                EvWarn FailedMincore name] ∧
    existsb is_mincore_failure pre = false ∧
    existsb is_diagnostic pre = false.
Proof.
  induction 1 as [| | hint len off err | hint len off addr err
                  | hint len off addr vevs rest r Hvec Hscan IH];
    try done.
  - intros _. by exists [], hint, len, off, addr, err.
  - assert (Hex : ∀ p, p (EvMmap hint len fd off (Ok addr)) = false →
              p (EvMincore addr len (Ok tt)) = false →
              p (EvMunmap addr len) = false →
              (∀ e, is_vec_event e = true → p e = false) →
              ∀ rest', existsb p
                    (EvMmap hint len fd off (Ok addr)
                     :: EvMincore addr len (Ok tt)
                     :: vevs ++ EvMunmap addr len :: rest')
                  = existsb p rest').
    { intros p H1 H2 H3 H4 rest'. simpl. rewrite H1, H2, existsb_app. simpl.
      by rewrite H3, (existsb_vec p vevs). }
    rewrite Hex; [| done | done | done | by intros []].
    intros Hfail.
    destruct (IH Hfail) as (pre & h & l & o & a & err & -> & -> & Hpre & Hdiag).
    exists (EvMmap hint len fd off (Ok addr) :: EvMincore addr len (Ok tt)
            :: vevs ++ EvMunmap addr len :: pre), h, l, o, a, err.
    split; [done |]. split; [| split].
    + simpl. by rewrite <- app_assoc.
    + rewrite Hex; [done | done | done | done | by intros []].
    + rewrite Hex; [done | done | done | done | by intros []].
Qed.

Lemma path_run_fds name e r sb :
  path_run name e r sb → open_fds e = fstat_failed_fds e.
Proof.
  destruct 1 as [err | fd err | fd st Hdir | fd st Hdir Hsize
                 | fd st evs rc Hdir Hsize Hscan].
  - done.
  - done.
  - unfold open_fds, fstat_failed_fds. simpl. by rewrite Z.eqb_refl.
  - unfold open_fds, fstat_failed_fds. simpl. by rewrite Z.eqb_refl.
  - assert (Hquiet : existsb is_fd_event evs = false)
      by (apply (scan_quiet _ _ _ _ is_fd_event Hscan); done).
    unfold open_fds, fstat_failed_fds. simpl.
    rewrite fold_left_app, flat_map_app.
    destruct (fd_step_quiet evs [fd] Hquiet) as [-> Hf].
    unfold fstat_failed_fds in Hf. rewrite Hf. simpl.
    by rewrite Z.eqb_refl.
Qed.

Section Paths2.
Context {W : Type} `{!OS W}.
Implicit Types s : pstate W.

(** X11. When [fincore_name] returns, the descriptors it opened and did
    not close are those on which [fstat] failed: the descriptor is closed
    on every other path, also after a failed [mmap] or [mincore]. *)
Theorem descriptor_stays_open_only_after_fstat_failure ctl name s r e s' :
  fincore_name ctl name None 0 s = (Ret r, e, s') →
  open_fds e = fstat_failed_fds e.
Proof.
  intros Hrun. apply fincore_name_cases in Hrun.
  destruct r as [[rc sb] c]. by eapply path_run_fds.
Qed.

Lemma main_loop_step ctl name rest rc s rc1 e1 s1 :
  main_body ctl name rc s = (Ret rc1, e1, s1) →
  main_loop ctl (name :: rest) rc s =
    (let '(o', e', s'') := main_loop ctl rest rc1 s1 in (o', e1 ++ e', s'')).
Proof. intros Hbody. simpl. unfold bind. by rewrite Hbody. Qed.

(** X7. A path that is opened and that [fstat] reports to be a directory,
    whatever its size: the round of [main] is [open], [fstat], [close];
    there is no diagnostic, no window and no line of the table; [rc] stays
    as it was; and the loop goes on with the paths that follow. *)
Theorem directory_is_skipped ctl name rest rc s fd st w1 w2 :
  os_open name (ps_os s) = (Ok fd, w1) →
  os_fstat fd w1 = (Ok st, w2) →
  S_ISDIR (st_mode st) = true →
  let round := [EvOpen name (Ok fd); EvFstat fd (Ok st); EvClose fd] in
  let s1 := {| ps_os := os_close fd w2; ps_vec := ps_vec s;
               ps_lines := ps_lines s |} in
  main_body ctl name rc s = (Ret rc, round, s1) ∧
  main_loop ctl (name :: rest) rc s =
    (let '(o', e', s'') := main_loop ctl rest rc s1 in (o', round ++ e', s'')).
Proof.
  intros Hopen Hfstat Hdir round s1.
  assert (Hbody : main_body ctl name rc s = (Ret rc, round, s1)).
  { unfold main_body, fincore_name. unfold bind at 1 2. unfold sys_open at 1.
    rewrite Hopen. unfold bind at 1. unfold sys_fstat at 1. cbn [ps_os set_os].
    rewrite Hfstat, Hdir. reflexivity. }
  split; [done |]. by apply main_loop_step.
Qed.

(** X8. A path that is opened and whose [fstat] fails: the round of
    [main] is [open], [fstat] and the diagnostic; the descriptor is not
    closed; no line is added to the table; [rc] becomes [EXIT_FAILURE];
    and the loop goes on with the paths that follow. *)
Theorem fstat_failure_fails_the_file ctl name rest rc s fd err w1 w2 :
  os_open name (ps_os s) = (Ok fd, w1) →
  os_fstat fd w1 = (Err err, w2) →
  let round := [EvOpen name (Ok fd); EvFstat fd (Err err);
                EvWarn FailedFstat name] in
  let s1 := {| ps_os := w2; ps_vec := ps_vec s; ps_lines := ps_lines s |} in
  main_body ctl name rc s = (Ret EXIT_FAILURE, round, s1) ∧
  main_loop ctl (name :: rest) rc s =
    (let '(o', e', s'') := main_loop ctl rest EXIT_FAILURE s1 in
     (o', round ++ e', s'')) ∧
  open_fds round = [fd].
Proof.
  intros Hopen Hfstat round s1.
  assert (Hbody : main_body ctl name rc s = (Ret EXIT_FAILURE, round, s1)).
  { unfold main_body, fincore_name. unfold bind at 1 2. unfold sys_open at 1.
    rewrite Hopen. unfold bind at 1. unfold sys_fstat at 1. cbn [ps_os set_os].
    rewrite Hfstat. reflexivity. }
  split; [done |]. split; [by apply main_loop_step | done].
Qed.

(** X10. A path that is opened, is not a directory, has a size that is
    not 0, and whose scan returns 0 with count [c]: the round of [main] is
    [open], [fstat], the events of the scan, [close] and the new line of
    the table; the line is [c] pages, the size [fstat] gave, the path;
    [rc] stays as it was; and the loop goes on with the paths that
    follow. *)
Theorem scanned_file_row ctl name rest rc s fd st w1 w2 c evs s1 w3 :
  os_open name (ps_os s) = (Ok fd, w1) →
  os_fstat fd w1 = (Ok st, w2) →
  S_ISDIR (st_mode st) = false →
  st_size st ≠ 0 →
  fincore_fd ctl fd name (st_size st) 0 (set_os w2 s) = (Ret (0, c), evs, s1) →
  os_alloc NewLine (os_close fd (ps_os s1)) = (true, w3) →
  let round := EvOpen name (Ok fd) :: EvFstat fd (Ok st) :: evs ++
               [EvClose fd; EvScols NewLine true] in
  let s2 := {| ps_os := w3; ps_vec := ps_vec s1;
               ps_lines := ps_lines s ++ [row ctl name (Val (st_size st)) c] |} in
  main_body ctl name rc s = (Ret rc, round, s2) ∧
  main_loop ctl (name :: rest) rc s =
    (let '(o', e', s'') := main_loop ctl rest rc s2 in (o', round ++ e', s'')).
Proof.
  intros Hopen Hfstat Hdir Hsize Hscan Halloc round s2.
  assert (Hbody : main_body ctl name rc s = (Ret rc, round, s2)).
  { pose proof (fincore_fd_lines _ _ _ _ _ _ _ _ _ Hscan) as Hlines.
    unfold main_body, fincore_name. unfold bind at 1 2. unfold sys_open at 1.
    rewrite Hopen. unfold bind at 1. unfold sys_fstat at 1. cbn [ps_os set_os].
    rewrite Hfstat, Hdir. unfold bind at 1.
    destruct (Z.eqb_spec (st_size st) 0) as [? | _]; [done |]. cbn [negb].
    change (set_os w2 (set_os w1 s)) with (set_os w2 s). rewrite Hscan.
    cbn [Z.eqb negb ret bind sys_close app].
    unfold bind. rewrite add_output_data_run. cbn [ps_os set_os sb_size].
    rewrite Halloc. cbn [ps_lines set_os set_lines ps_vec] in *.
    unfold round, s2. rewrite Hlines. cbn.
    by rewrite <- app_assoc. }
  split; [done |]. by apply main_loop_step.
Qed.

Lemma main_body_fatal ctl name rc s o e s' :
  main_body ctl name rc s = (o, e, s') →
  existsb is_fatal e = true →
  o = Ret EXIT_FAILURE ∧ ps_lines s' = ps_lines s ∧
  ∃ r sb, r < 0 ∧ path_run name e r sb.
Proof.
  intros Hbody Hfail.
  assert (Hshape : o = Ret EXIT_FAILURE ∧ ∃ r sb, r < 0 ∧ path_run name e r sb).
  { destruct (main_body_cases _ _ _ _ _ _ _ Hbody)
      as [(r & sb & pe & Hpath & Hcase) | (-> & fd & st & evs & s1 & -> & Hfd)].
    - destruct (path_run_fatal _ _ _ _ Hpath) as [[Hrc Hfatal] | [Hrc Hfatal]].
      + exfalso.
        destruct Hcase as [(_ & _ & ->) | [(_ & _ & ->) | [(_ & _ & ->)
                          | (_ & _ & ->)]]];
          rewrite ?existsb_app in Hfail; simpl in Hfail;
          rewrite ?orb_false_r in Hfail; congruence.
      + destruct Hcase as [(-> & _) | [(-> & _) | [(-> & _) | (_ & -> & ->)]]];
          try lia.
        split; [done |]. by exists r, sb.
    - exfalso. apply fincore_fd_scan in Hfd. simpl in Hfd, Hfail.
      apply scan_fatal in Hfd. congruence. }
  destruct Hshape as (-> & r & sb & Hneg & Hpath).
  split; [done |]. split; [| by exists r, sb].
  unfold main_body in Hbody. unfold bind at 1 in Hbody.
  destruct (fincore_name ctl name None 0 s) as [[o1 e1] s1] eqn:Hname.
  apply fincore_name_lines in Hname.
  destruct (path_run_no_alloc _ _ _ _ Hpath) as [Hline _].
  destruct o1 as [[[r1 sb1] c1] | | |]; try done.
  destruct (Z.eqb_spec r1 0);
    [| destruct (Z.eqb_spec r1 1); cbn in Hbody; by inversion Hbody; subst].
  unfold bind in Hbody. rewrite add_output_data_run in Hbody.
  destruct (os_alloc NewLine (ps_os s1)) as [[|] w]; inversion Hbody; subst;
    rewrite existsb_app in Hline; simpl in Hline;
    by rewrite orb_true_r in Hline.
Qed.

(** X9. When a [mincore] fails during the round of [main] for a path: the
    round ends with the [mmap] of the window, the failed [mincore], its
    diagnostic, the one diagnostic of the round, and [close]; no line is
    added to the table; [rc] becomes [EXIT_FAILURE]; and the loop goes on
    with the paths that follow. *)
Theorem mincore_failure_fails_the_file ctl name rest rc s o e s' :
  main_body ctl name rc s = (o, e, s') →
  existsb is_mincore_failure e = true →
  o = Ret EXIT_FAILURE ∧
  (∃ pre fd hint len off addr err,
     e = pre ++ [EvMmap hint len fd off (Ok addr); EvMincore addr len (Err err);
                 EvWarn FailedMincore name; EvClose fd] ∧
     existsb is_mincore_failure pre = false ∧
     existsb is_diagnostic pre = false) ∧
  count_of is_diagnostic e = 1%nat ∧
  existsb is_new_line e = false ∧
  ps_lines s' = ps_lines s ∧
  main_loop ctl (name :: rest) rc s =
    (let '(o', e', s'') := main_loop ctl rest EXIT_FAILURE s' in
     (o', e ++ e', s'')).
Proof.
  intros Hbody Hfail.
  destruct (main_body_fatal _ _ _ _ _ _ _ Hbody (mincore_failure_is_fatal _ Hfail))
    as (-> & Hlines & r & sb & Hneg & Hpath).
  assert (Hdecomp : ∃ pre fd hint len off addr err,
            e = pre ++ [EvMmap hint len fd off (Ok addr);
                        EvMincore addr len (Err err);
                        EvWarn FailedMincore name; EvClose fd] ∧
            existsb is_mincore_failure pre = false ∧
            existsb is_diagnostic pre = false).
  { destruct Hpath as [err | fd err | fd st Hdir | fd st Hdir Hsize
                       | fd st evs rc' Hdir Hsize Hscan]; try done.
    simpl in Hfail. rewrite existsb_app in Hfail. simpl in Hfail.
    rewrite orb_false_r in Hfail.
    destruct (scan_mincore_failure _ _ _ _ Hscan Hfail)
      as (pre & hint & len & off & addr & err & _ & -> & Hpre & Hdiag).
    exists (EvOpen name (Ok fd) :: EvFstat fd (Ok st) :: pre),
      fd, hint, len, off, addr, err.
    split; [| by split].
    simpl. by rewrite <- app_assoc. }
  split; [done |]. split; [exact Hdecomp |].
  destruct (path_run_no_alloc _ _ _ _ Hpath) as [Hline _].
  repeat split; try done.
  - destruct Hdecomp as (pre & fd & hint & len & off & addr & err & -> & _ & Hdiag).
    by rewrite count_of_app, (count_of_none _ _ Hdiag).
  - by apply main_loop_step.
Qed.

End Paths2.

(** ** The table *)

Section Out2.
Context {W : Type} `{!OS W}.
Implicit Types s : pstate W.

Lemma set_lines_same s : set_lines (ps_lines s) s = s.
Proof. by destruct s. Qed.

Lemma fill_line_cells ctl name fsz c cols : ∀ s l ln,
  Forall (λ id, 0 ≤ id < N_INFOS) cols →
  ps_lines s = l ++ [ln] →
  fill_line ctl cols name fsz c s =
  (Ret 0, [], set_lines (l ++ [ln ++ List.map (cell_of ctl name fsz c) cols]) s).
Proof.
  induction cols as [| id cols IH]; intros s l ln Hcols Hl.
  - simpl. unfold ret. by rewrite app_nil_r, <- Hl, set_lines_same.
  - apply Forall_cons in Hcols as [Hid Hcols].
    cbn [fill_line]. unfold get_column_id.
    destruct (Z.ltb_spec id N_INFOS) as [_ | ?]; [| lia].
    rewrite bind_ret_l.
    assert (Hstep : ∀ cl,
              bind (scols_line_set_data cl)
                (λ _, fill_line ctl cols name fsz c) s =
              (Ret 0, [],
               set_lines (l ++ [(ln ++ [cl]) ++ List.map (cell_of ctl name fsz c) cols]) s)).
    { intros cl. unfold bind.
      rewrite (scols_line_set_data_run cl s l ln Hl).
      by rewrite (IH _ l (ln ++ [cl])). }
    unfold cell_of at 1. cbn [List.map].
    unfold COL_FILE, COL_PAGES, COL_SIZE, N_INFOS in *.
    destruct (Z.eqb_spec id 2) as [-> | H2].
    + rewrite Hstep. by rewrite <- app_assoc.
    + destruct (Z.eqb_spec id 0) as [-> | H0].
      * rewrite Hstep. by rewrite <- app_assoc.
      * destruct (Z.eqb_spec id 1) as [-> | H1]; [| lia].
        rewrite Hstep. by rewrite <- app_assoc.
Qed.

(** X12. For every selection of columns with ids below [ARRAY_SIZE(infos)],
    when the line can be allocated: [add_output_data] returns 0 and adds
    one line at the end of the table, with one cell for each selected
    column, in the order of the selection: the path for [COL_FILE], the
    count in decimal for [COL_PAGES], and for [COL_SIZE] the size in
    decimal when [bytes] is set and in the human-readable form when it is
    not.  The lines before it stay as they were. *)
Theorem add_output_data_fills_selected_columns ctl cols name fsz c s w :
  Forall (λ id, 0 ≤ id < N_INFOS) cols →
  os_alloc NewLine (ps_os s) = (true, w) →
  add_output_data ctl cols name fsz c s =
  (Ret 0, [EvScols NewLine true],
   {| ps_os := w; ps_vec := ps_vec s;
      ps_lines := ps_lines s ++ [List.map (cell_of ctl name fsz c) cols] |}).
Proof.
  intros Hcols Halloc.
  unfold add_output_data, scols_table_new_line, scols_alloc.
  unfold bind at 1 2. rewrite Halloc.
  unfold modify_lines. cbn [negb fst snd app].
  unfold bind at 1. cbn [ret app negb].
  by rewrite (fill_line_cells _ _ _ _ _ _ (ps_lines s) []) by done.
Qed.

Lemma new_columns_lines s o e s' :
  new_columns columns s = (o, e, s') → ps_lines s' = ps_lines s.
Proof.
  unfold new_columns, columns, get_column_id, COL_PAGES, COL_SIZE, COL_FILE,
    N_INFOS, bind, ret, err, emit, exit_with, scols_alloc.
  cbn -[os_alloc].
  destruct (os_alloc (NewColumn 0) (ps_os s)) as [[|] w1]; cbn -[os_alloc];
    [| intros Heq; by inversion Heq; subst].
  destruct (os_alloc (NewColumn 1) w1) as [[|] w2]; cbn -[os_alloc];
    [| intros Heq; by inversion Heq; subst].
  destruct (os_alloc (NewColumn 2) w2) as [[|] w3]; cbn -[os_alloc];
    intros Heq; by inversion Heq; subst.
Qed.

(** A round adds the line of its path, or no line. *)
Lemma main_body_row ctl name rc s o e s' :
  main_body ctl name rc s = (o, e, s') →
  ps_lines s' = ps_lines s ∨
  ∃ sz c, ps_lines s' = ps_lines s ++ [row ctl name sz c].
Proof.
  unfold main_body. unfold bind at 1.
  destruct (fincore_name ctl name None 0 s) as [[o1 e1] s1] eqn:Hname.
  apply fincore_name_lines in Hname.
  destruct o1 as [[[r sb] c] | | |].
  - destruct (r =? 0).
    + unfold bind. rewrite add_output_data_run.
      destruct (os_alloc NewLine (ps_os s1)) as [[|] w];
        intros Heq; inversion Heq; subst; cbn; rewrite Hname.
      * right. by eexists _, _.
      * by left.
    + destruct (r =? 1); cbn; intros Heq; inversion Heq; subst; by left.
  - intros Heq; inversion Heq; subst. by left.
  - intros Heq; inversion Heq; subst. by left.
  - intros Heq; inversion Heq; subst. by left.
Qed.

Lemma main_loop_rows ctl files : ∀ rc s o e s',
  main_loop ctl files rc s = (o, e, s') →
  ∃ picks,
    ps_lines s' = ps_lines s ++ List.map (λ p, row ctl p.1.1 p.1.2 p.2) picks ∧
    sublist (List.map (λ p, p.1.1) picks) files.
Proof.
  induction files as [| name rest IH]; intros rc s o e s' Hrun.
  - inversion Hrun; subst. exists []. by rewrite app_nil_r.
  - simpl in Hrun. unfold bind in Hrun.
    destruct (main_body ctl name rc s) as [[o1 e1] s1] eqn:Hbody.
    apply main_body_row in Hbody.
    assert (Hfirst : ∃ picks1,
              ps_lines s1 = ps_lines s ++ List.map (λ p, row ctl p.1.1 p.1.2 p.2) picks1 ∧
              sublist (List.map (λ p, p.1.1) picks1) [name]).
    { destruct Hbody as [-> | (sz & c & ->)].
      - exists []. rewrite app_nil_r. split; [done |]. apply sublist_nil_l.
      - exists [(name, sz, c)]. by split. }
    destruct Hfirst as (picks1 & Hl1 & Hs1).
    destruct o1 as [rc1 | | |];
      [destruct (main_loop ctl rest rc1 s1) as [[o2 e2] s2] eqn:Hrest |..];
      inversion Hrun; subst.
    2-4: exists picks1; split; [done |];
      change (name :: rest) with ([name] ++ rest);
      by apply sublist_inserts_r.
    apply IH in Hrest as (picks2 & Hl2 & Hs2).
    exists (picks1 ++ picks2). split.
    + by rewrite Hl2, Hl1, List.map_app, app_assoc.
    + rewrite List.map_app. change (name :: rest) with ([name] ++ rest).
      by apply sublist_app.
Qed.

(** X13. When [main] returns, the last thing it did is to print the
    table, which was empty when [main] started.  Every line of the
    printed table has three cells: a count in decimal, a size in the
    human-readable form ([main] never sets [bytes]) and a path; and the
    paths of the lines, in the order of the lines, are paths of the
    argument list in the order of the list, each argument giving at most
    one line. *)
Theorem printed_table_rows page files s rc e s' :
  main page files s = (Ret rc, e, s') →
  ps_lines s = [] →
  ∃ picks,
    last e = Some (EvPrintTable (human_rows picks)) ∧
    sublist (List.map (λ p, p.1.1) picks) files.
Proof.
  unfold main.
  destruct files as [| name0 rest]; [done |].
  set (files := name0 :: rest). set (ctl := {| pagesize := page; bytes := false |}).
  unfold bind at 1. unfold scols_alloc at 1.
  destruct (os_alloc NewTable (ps_os s)) as [[|] w0]; cbn [negb]; [| done].
  unfold bind at 1.
  destruct (new_columns columns (set_os w0 s)) as [[o1 e1] s1] eqn:Hcols.
  pose proof (new_columns_lines _ _ _ _ Hcols) as Hl1.
  destruct o1 as [[] | | |]; try done.
  unfold bind at 1.
  destruct (main_loop ctl files EXIT_SUCCESS s1) as [[o2 e2] s2] eqn:Hloop.
  destruct o2 as [rc2 | | |]; try done.
  cbn. intros Heq Hlines. injection Heq as _ <- <-.
  apply main_loop_rows in Hloop as (picks & Hl2 & Hsub).
  exists picks. split; [| done].
  rewrite Hl2, Hl1. cbn [set_os ps_lines]. rewrite Hlines.
  rewrite !app_comm_cons, !app_assoc. rewrite last_snoc. done.
Qed.

End Out2.

(** ** Column names *)

Lemma tolower_NUL c : tolower c = NUL → c = NUL.
Proof.
  unfold tolower.
  destruct ((65 <=? N_of_ascii c)%N && (N_of_ascii c <=? 90)%N) eqn:Hup; [| done].
  apply andb_prop in Hup as [H1%N.leb_le H2%N.leb_le].
  intros Heq. apply (f_equal N_of_ascii) in Heq.
  rewrite N_ascii_embedding in Heq by lia. simpl in Heq. lia.
Qed.

Lemma code_diff c1 c2 :
  Z.of_N (N_of_ascii c1) - Z.of_N (N_of_ascii c2) = 0 → c1 = c2.
Proof.
  intros Heq. assert (N_of_ascii c1 = N_of_ascii c2) as Hn by lia.
  apply (f_equal ascii_of_N) in Hn. by rewrite !ascii_N_embedding in Hn.
Qed.

Lemma strlen_lower s : strlen (lower s) = strlen s.
Proof.
  induction s as [| c r IH]; [done |]. simpl.
  destruct (Ascii.eqb_spec c NUL) as [-> | Hc]; [done |].
  destruct (Ascii.eqb_spec (tolower c) NUL) as [Hn | _].
  - by apply tolower_NUL in Hn.
  - by rewrite IH.
Qed.

Lemma length_lower s : String.length (lower s) = String.length s.
Proof. induction s as [| c r IH]; simpl; congruence. Qed.

(** One column: for a length within the name given, the comparison finds
    no difference only if the column name is at least as long, and the
    column is taken exactly when the bytes given are its name up to
    case. *)
Lemma strncasecmp_prefix name cn n :
  (n ≤ strlen name)%nat →
  strncasecmp name cn n = 0 →
  lower (substring 0 n name) = lower (substring 0 n cn) ∧
  (n ≤ strlen cn)%nat.
Proof.
  revert name cn. induction n as [| n IH]; intros name cn Hn.
  - intros _. split; [by destruct name, cn | lia].
  - destruct name as [| c r]; [simpl in Hn; lia |].
    simpl in Hn. destruct (Ascii.eqb_spec c NUL) as [-> | Hc]; [lia |].
    cbn [strncasecmp first_byte after_first].
    destruct (Ascii.eqb_spec (tolower c) (tolower (first_byte cn))) as [Heq | Hne];
      cbn [negb].
    + destruct (Ascii.eqb_spec c NUL) as [? | _]; [done |].
      intros Hrest. apply IH in Hrest as [Hlow Hlen]; [| lia].
      destruct cn as [| d r2].
      * simpl in Heq. by apply tolower_NUL in Heq.
      * cbn [first_byte] in Heq. cbn [after_first] in Hlow, Hlen.
        cbn [substring lower strlen]. rewrite Heq, Hlow.
        destruct (Ascii.eqb_spec d NUL) as [-> | _]; [| split; [done | lia]].
        by apply tolower_NUL in Heq.
    + intros Hdiff. by apply code_diff in Hdiff.
Qed.

Lemma strncasecmp_equal name cn n :
  (n ≤ strlen name)%nat → (n ≤ strlen cn)%nat →
  lower (substring 0 n name) = lower (substring 0 n cn) →
  strncasecmp name cn n = 0.
Proof.
  revert name cn. induction n as [| n IH]; intros name cn Hn Hc; [done |].
  destruct name as [| c r]; [simpl in Hn; lia |].
  destruct cn as [| d r2]; [simpl in Hc; lia |].
  simpl in Hn, Hc.
  destruct (Ascii.eqb_spec c NUL) as [-> | Hcn]; [lia |].
  destruct (Ascii.eqb_spec d NUL) as [-> | Hdn]; [lia |].
  simpl. intros Heq. injection Heq as Hhd Htl.
  rewrite Hhd, Ascii.eqb_refl. cbn [negb].
  destruct (Ascii.eqb_spec c NUL) as [? | _]; [done |].
  apply IH; [lia | lia | done].
Qed.

Lemma char_at_end cn n :
  strlen cn = String.length cn → (n ≤ strlen cn)%nat →
  ∃ c, char_at cn n = Some c ∧ (c = NUL ↔ n = String.length cn).
Proof.
  revert n. induction cn as [| d r IH]; intros n Hnul Hn.
  - simpl in Hn. assert (n = O) as -> by lia. by exists NUL.
  - simpl in Hnul, Hn. destruct (Ascii.eqb_spec d NUL) as [-> | Hd]; [done |].
    destruct n as [| n].
    + exists d. split; [done |]. simpl. split; [done | lia].
    + destruct (IH n) as (c & Hc & Hiff); [lia | lia |].
      exists c. split; [done |]. simpl. rewrite Hiff. lia.
Qed.

Lemma substring_all s : substring 0 (String.length s) s = s.
Proof. induction s as [| c r IH]; [done |]. simpl. by rewrite IH. Qed.

Lemma substring_length s n :
  (n ≤ String.length s)%nat → String.length (substring 0 n s) = n.
Proof.
  revert n. induction s as [| c r IH]; intros [| n] Hn; simpl in *; try done.
  - lia.
  - rewrite IH; lia.
Qed.

Lemma strlen_le_length s : (strlen s ≤ String.length s)%nat.
Proof.
  induction s as [| c r IH]; [done |]. simpl.
  destruct (Ascii.eqb c NUL); lia.
Qed.

(** The step of the loop at a column whose name holds no NUL. *)
Lemma column_search_step cn rest i name n :
  strlen cn = String.length cn → (n ≤ strlen name)%nat →
  column_search (cn :: rest) i name n =
  if decide (lower (substring 0 n name) = lower cn)
  then ColumnId i else column_search rest (i + 1) name n.
Proof.
  intros Hnul Hn. cbn [column_search].
  destruct (Z.eqb_spec (strncasecmp name cn n) 0) as [Hcmp | Hcmp].
  - destruct (strncasecmp_prefix _ _ _ Hn Hcmp) as [Hlow Hlen].
    destruct (char_at_end cn n Hnul Hlen) as (c & -> & Hiff).
    destruct (Ascii.eqb_spec c NUL) as [Hc | Hc].
    + apply Hiff in Hc. subst n. rewrite substring_all in Hlow.
      by rewrite decide_True.
    + rewrite decide_False; [done |]. intros Heq.
      apply Hc, Hiff.
      apply (f_equal String.length) in Heq.
      rewrite !length_lower, substring_length in Heq; [done |].
      pose proof (strlen_le_length name). lia.
  - rewrite decide_False; [done |]. intros Heq. apply Hcmp.
    assert (Hlen : n = String.length cn).
    { apply (f_equal String.length) in Heq.
      rewrite !length_lower, substring_length in Heq; [done |].
      pose proof (strlen_le_length name). lia. }
    apply strncasecmp_equal; [done | lia |].
    subst n. by rewrite (substring_all cn).
Qed.

Lemma column_search_spec cols : ∀ i name n,
  Forall (λ cn, strlen cn = String.length cn) cols →
  (n ≤ strlen name)%nat →
  match column_search cols i name n with
  | ColumnId id =>
      ∃ cn, i ≤ id ∧ cols !! Z.to_nat (id - i) = Some cn ∧
            lower (substring 0 n name) = lower cn
  | UnknownColumn name' =>
      name' = name ∧ Forall (λ cn, lower (substring 0 n name) ≠ lower cn) cols
  | ReadOutside _ _ => False
  end.
Proof.
  induction cols as [| cn rest IH]; intros i name n Hcols Hn.
  - simpl. by split.
  - apply Forall_cons in Hcols as [Hcn Hrest].
    rewrite column_search_step by done.
    destruct (decide (lower (substring 0 n name) = lower cn)) as [Heq | Hne].
    + exists cn. rewrite Z.sub_diag. by repeat split.
    + specialize (IH (i + 1) name n Hrest Hn).
      destruct (column_search rest (i + 1) name n) as [id | name' | id k].
      * destruct IH as (cn' & Hle & Hlook & Heq).
        exists cn'. split; [lia |]. split; [| done].
        replace (id - i) with (Z.succ (id - (i + 1))) by lia.
        rewrite Z2Nat.inj_succ by lia. done.
      * destruct IH as [-> Hall]. split; [done |]. by constructor.
      * done.
Qed.

Lemma infos_no_NUL : Forall (λ cn, strlen cn = String.length cn) infos.
Proof. repeat constructor. Qed.

(** X14. [column_name_to_id(name, namesz)] with [namesz] no more than
    [strlen(name)] never reads outside the name of a column.  It returns
    the id of a column exactly when the first [namesz] bytes of [name] are
    the whole name of that column, up to the case of the letters; a proper
    prefix of a column name is not enough.  In every other case it warns
    and returns -1. *)
Theorem column_name_to_id_matches name namesz :
  (namesz ≤ strlen name)%nat →
  match column_name_to_id name namesz with
  | ColumnId id =>
      ∃ cn, 0 ≤ id < N_INFOS ∧ infos !! Z.to_nat id = Some cn ∧
            lower (substring 0 namesz name) = lower cn
  | UnknownColumn name' =>
      name' = name ∧
      Forall (λ cn, lower (substring 0 namesz name) ≠ lower cn) infos
  | ReadOutside _ _ => False
  end.
Proof.
  intros Hn. unfold column_name_to_id.
  pose proof (column_search_spec infos 0 name namesz infos_no_NUL Hn) as Hspec.
  destruct (column_search infos 0 name namesz) as [id | name' | id k];
    [| done | done].
  destruct Hspec as (cn & Hid & Hlook & Heq). rewrite Z.sub_0_r in Hlook.
  exists cn. split; [| done].
  apply lookup_lt_Some in Hlook. simpl in Hlook. unfold N_INFOS. lia.
Qed.

Lemma substring_app s rest :
  substring 0 (String.length s) (s ++ rest) = s.
Proof. induction s as [| c r IH]; simpl; [by destruct rest | by rewrite IH]. Qed.

Lemma strlen_app s rest :
  strlen s = String.length s → (String.length s ≤ strlen (s ++ rest))%nat.
Proof.
  induction s as [| c r IH]; simpl; [lia |].
  destruct (Ascii.eqb c NUL); [done |]. intros [= Hr]. specialize (IH Hr). lia.
Qed.

Lemma lower_no_NUL s cn :
  lower s = lower cn → strlen cn = String.length cn →
  strlen s = String.length s.
Proof.
  intros Heq Hcn.
  rewrite <- (strlen_lower s), <- (length_lower s), Heq.
  by rewrite strlen_lower, length_lower.
Qed.

(** X15. The name of each column, in any mix of upper and lower case and
    followed by anything ([rest]), is found: [column_name_to_id] called
    with the length of the name returns the id of the column. *)
Theorem column_name_to_id_own_name i cn spelling rest :
  infos !! i = Some cn →
  lower spelling = lower cn →
  column_name_to_id (spelling ++ rest) (String.length spelling)
  = ColumnId (Z.of_nat i).
Proof.
  intros Hi Hlow.
  assert (Hcn : strlen cn = String.length cn).
  { pose proof infos_no_NUL as Hall. rewrite Forall_lookup in Hall.
    by apply (Hall i). }
  pose proof (lower_no_NUL _ _ Hlow Hcn) as Hsp.
  pose proof (strlen_app spelling rest Hsp) as Hlen.
  unfold column_name_to_id, infos in *.
  rewrite !column_search_step by done.
  rewrite substring_app, Hlow.
  destruct i as [| [| [| i]]]; simpl in Hi; try done;
    injection Hi as <-; reflexivity.
Qed.

Lemma char_at_outside cn n :
  (String.length cn < n)%nat → char_at cn n = None.
Proof.
  revert n. induction cn as [| d r IH]; intros [| n] Hn; simpl in *; try lia.
  - done.
  - apply IH. lia.
Qed.

(** When the length given goes beyond the end of the name given, the
    comparison finds no difference exactly when the whole name given is
    the column name up to case. *)
Lemma strncasecmp_whole name cn n :
  strlen cn = String.length cn → (strlen name < n)%nat →
  strncasecmp name cn n = 0 ↔
  lower (substring 0 (strlen name) name) = lower cn.
Proof.
  revert name cn. induction n as [| n IH]; intros name cn Hcn Hn; [lia |].
  cbn [strncasecmp].
  destruct name as [| c r].
  - cbn [first_byte strlen substring lower].
    destruct cn as [| d r2].
    + by rewrite Ascii.eqb_refl.
    + cbn [first_byte]. simpl in Hcn.
      destruct (Ascii.eqb_spec d NUL) as [-> | Hd]; [done |].
      destruct (Ascii.eqb_spec (tolower NUL) (tolower d)) as [Heq | Hne].
      * symmetry in Heq. change (tolower NUL) with NUL in Heq.
        by apply tolower_NUL in Heq.
      * cbn [negb]. split; [| done]. intros Hdiff.
        by apply code_diff in Hdiff.
  - cbn [first_byte after_first strlen] in *.
    destruct (Ascii.eqb_spec c NUL) as [-> | Hc].
    + cbn [substring lower].
      destruct cn as [| d r2].
      * cbn [first_byte]. by rewrite Ascii.eqb_refl.
      * cbn [first_byte]. simpl in Hcn.
        destruct (Ascii.eqb_spec d NUL) as [-> | Hd]; [done |].
        destruct (Ascii.eqb_spec (tolower NUL) (tolower d)) as [Heq | Hne].
        -- symmetry in Heq. change (tolower NUL) with NUL in Heq.
           by apply tolower_NUL in Heq.
        -- cbn [negb]. split; [| done]. intros Hdiff.
           by apply code_diff in Hdiff.
    + cbn [substring lower].
      destruct cn as [| d r2].
      * cbn [first_byte].
        destruct (Ascii.eqb_spec (tolower c) (tolower NUL)) as [Heq | Hne].
        -- change (tolower NUL) with NUL in Heq. by apply tolower_NUL in Heq.
        -- cbn [negb]. split; [| done]. intros Hdiff.
           by apply code_diff in Hdiff.
      * cbn [first_byte after_first lower]. simpl in Hcn.
        destruct (Ascii.eqb_spec d NUL) as [-> | Hd]; [done |].
        destruct (Ascii.eqb_spec (tolower c) (tolower d)) as [Heq | Hne];
          cbn [negb].
        -- rewrite (IH r r2) by lia. rewrite Heq.
           split; [by intros -> | by intros [= ->]].
        -- split; [intros Hdiff; by apply code_diff in Hdiff |].
           by intros [= ? _].
Qed.

Lemma substring_strlen_length s :
  String.length (substring 0 (strlen s) s) = strlen s.
Proof. apply substring_length, strlen_le_length. Qed.

(** X16. When [namesz] is more than [strlen(name)] and [name] is the name
    of a column up to case, [column_name_to_id] reads the byte at index
    [namesz] of the column name in [infos], which lies outside that array
    (the name and its NUL). *)
Theorem column_name_to_id_reads_outside i cn name namesz :
  infos !! i = Some cn →
  lower (substring 0 (strlen name) name) = lower cn →
  (strlen name < namesz)%nat →
  column_name_to_id name namesz = ReadOutside (Z.of_nat i) namesz.
Proof.
  intros Hi Hlow Hn.
  assert (Hlen : String.length cn = strlen name).
  { apply (f_equal String.length) in Hlow.
    by rewrite !length_lower, substring_strlen_length in Hlow. }
  assert (Hcmp : ∀ cn', strlen cn' = String.length cn' →
            (strncasecmp name cn' namesz =? 0) =
            bool_decide (lower cn = lower cn')).
  { intros cn' Hcn'.
    pose proof (strncasecmp_whole name cn' namesz Hcn' Hn) as Hiff.
    rewrite Hlow in Hiff.
    destruct (Z.eqb_spec (strncasecmp name cn' namesz) 0) as [Hz | Hz].
    - by rewrite bool_decide_eq_true_2 by (by apply Hiff).
    - rewrite bool_decide_eq_false_2; [done |]. intros Heq. by apply Hz, Hiff. }
  assert (Hout : char_at cn namesz = None) by (apply char_at_outside; lia).
  unfold column_name_to_id, infos in *. cbn [column_search].
  rewrite !Hcmp by done.
  destruct i as [| [| [| i]]]; simpl in Hi; try done;
    injection Hi as <-; rewrite Hout; reflexivity.
Qed.

(** * Runs *)

Local Open Scope string_scope.
Local Open Scope list_scope.
Local Open Scope Z_scope.

(** A run on files of every kind: a file of three pages, two of them
    resident; a path that does not exist; a directory; an empty file. *)
Example run_mixed :
  Toy.observe Toy.mixed_run =
  (Ret EXIT_SUCCESS,
   setup_events ++
   [EvOpen "a" (Ok 3); EvFstat 3 (Ok {| st_mode := 33188; st_size := 10000 |});
    EvMmap 0 10000 3 0 (Ok Toy.MAP_BASE);
    EvMincore Toy.MAP_BASE 10000 (Ok tt); EvMunmap Toy.MAP_BASE 10000;
    EvClose 3; EvScols NewLine true;
    EvOpen "missing" (Err Toy.ENOENT); EvWarn FailedOpen "missing";
    EvScols NewLine true;
    EvOpen "d" (Ok 3); EvFstat 3 (Ok {| st_mode := 16877; st_size := 4096 |});
    EvClose 3;
    EvOpen "e" (Ok 3); EvFstat 3 (Ok {| st_mode := 33188; st_size := 0 |});
    EvClose 3; EvScols NewLine true;
    EvPrintTable
      [[CellDec (Val 2); CellHuman (Val 10000); CellName "a"];
       [CellDec (Val 0); CellHuman Indeterminate; CellName "missing"];
       [CellDec (Val 0); CellHuman (Val 0); CellName "e"]]],
   [[CellDec (Val 2); CellHuman (Val 10000); CellName "a"];
    [CellDec (Val 0); CellHuman Indeterminate; CellName "missing"];
    [CellDec (Val 0); CellHuman (Val 0); CellName "e"]]).
Proof. vm_compute. reflexivity. Qed.

(** A run with the three fatal failures. *)
Example run_failures :
  Toy.observe Toy.failing_run =
  (Ret EXIT_FAILURE,
   setup_events ++
   [EvOpen "f" (Ok 3); EvFstat 3 (Err 5%positive); EvWarn FailedFstat "f";
    EvOpen "m" (Ok 4); EvFstat 4 (Ok {| st_mode := 33188; st_size := 5000 |});
    EvMmap 0 5000 4 0 (Err Toy.ENOMEM); EvWarn FailedMmap "m"; EvClose 4;
    EvOpen "q" (Ok 4); EvFstat 4 (Ok {| st_mode := 33188; st_size := 5000 |});
    EvMmap 0 5000 4 0 (Ok Toy.MAP_BASE);
    EvMincore Toy.MAP_BASE 5000 (Err Toy.ENOMEM); EvWarn FailedMincore "q";
    EvClose 4;
    EvOpen "e" (Ok 4); EvFstat 4 (Ok {| st_mode := 33188; st_size := 0 |});
    EvClose 4; EvScols NewLine true;
    EvPrintTable [[CellDec (Val 0); CellHuman (Val 0); CellName "e"]]],
   [[CellDec (Val 0); CellHuman (Val 0); CellName "e"]]).
Proof. vm_compute. reflexivity. Qed.

(** C1 (what the code does). With pages of 64 KiB the product
    [N_PAGES_IN_WINDOW * ctl->pagesize] is 2^31 and does not fit the [int]
    it is computed in; wrapped, [window_size] is 2^64 - 2^31.  For a file
    of one byte the first window is \[0, 1), and [file_offset +=
    window_size] then gives -2^31, which is below the size of the file:
    the loop goes round again and asks [mmap] for 2^31 + 1 bytes at offset
    -2^31. The file is reported as failed. *)
Theorem window_size_overflows_at_64k :
  window_size Toy.ctl64k = 2 ^ 64 - 2 ^ 31 ∧
  next_offset Toy.ctl64k 0 = - 2 ^ 31 ∧
  Toy.observe
    (fincore_fd Toy.ctl64k 3 "a" 1 0
       (Toy.with_fd 65536 3 (Toy.regular 1 [1]) [0; 0; 0; 0])) =
  (Ret (- EINVAL, 1),
   [EvMmap 0 1 3 0 (Ok Toy.MAP_BASE); EvMincore Toy.MAP_BASE 1 (Ok tt);
    EvMunmap Toy.MAP_BASE 1;
    EvMmap Toy.MAP_BASE 2147483649 3 (-2147483648) (Err Toy.EINVAL);
    EvWarn FailedMmap "a"],
   []).
Proof. repeat split; vm_compute; reflexivity. Qed.

(** The query of a window of three pages, the first and the third
    resident, with flags of an earlier window left in [vec]: entries 2, 1
    and 0 are read, entries 2 and 0 are counted and cleared, entries 3 and
    4 are neither read nor written. *)
Example run_query :
  Toy.query_run =
  (Ret (0, 2),
   [EvMincore Toy.MAP_BASE 10000 (Ok tt);
    EvVecRead 2 3; EvVecWrite 2 0; EvVecRead 1 0;
    EvVecRead 0 1; EvVecWrite 0 0],
   set_vec [0; 0; 0; 9; 9] Toy.query_state).
Proof. vm_compute. reflexivity. Qed.

Lemma triple_eta {A B C} (x : A * B * C) : x = (x.1.1, x.1.2, x.2).
Proof. by destruct x as [[a b] c]. Qed.

Lemma valid_page_4k : valid_page 4096.
Proof. split; by vm_compute. Qed.

Lemma do_mincore_reads_page_count_witness :
  page_count Toy.ctl4k 10000 = 3 ∧
  ∃ c' e s',
    do_mincore Toy.ctl4k Toy.MAP_BASE 10000 "a" 0 Toy.query_state =
      (Ret (0, c'), EvMincore Toy.MAP_BASE 10000 (Ok tt) :: e, s') ∧
    forallb is_vec_event e = true ∧
    vec_reads e = [2; 1; 0]%nat ∧
    Forall (λ i, Z.of_nat i < 3) (vec_reads e).
Proof.
  apply (do_mincore_reads_page_count Toy.ctl4k Toy.MAP_BASE 10000 "a" 0
           Toy.query_state [1; 0; 3; 9; 9] (ps_os Toy.query_state)).
  - split; by vm_compute.
  - split; by vm_compute.
  - vm_compute. reflexivity.
Defined.

Lemma do_mincore_counts_low_bit_witness :
  ∃ e s',
    do_mincore Toy.ctl4k Toy.MAP_BASE 10000 "a" 0 Toy.query_state =
      (Ret (0, 2), e, s') ∧
    vec_writes e = [(2%nat, 0); (0%nat, 0)] ∧
    ∀ i, ps_vec s' !! i =
         (λ x, if (i <? 3)%nat && Z.testbit x 0 then 0 else x)
           <$> [1; 0; 3; 9; 9] !! i.
Proof.
  apply (do_mincore_counts_low_bit Toy.ctl4k Toy.MAP_BASE 10000 "a" 0
           Toy.query_state [1; 0; 3; 9; 9] (ps_os Toy.query_state)).
  - split; by vm_compute.
  - split; by vm_compute.
  - vm_compute. reflexivity.
  - done.
  - by vm_compute.
Defined.

Lemma resident_count_bounded_witness :
  ∃ rc count,
    Toy.scan_run.1.1 = Ret (rc, count) ∧
    0 ≤ count ≤ ceil_div 10000 (pagesize Toy.ctl4k) ∧
    Forall (λ w, 0 ≤ w.1 ∧ 0 < w.2 ∧ w.1 + w.2 ≤ 10000)
      (mmap_windows Toy.scan_run.1.2).
Proof.
  apply (resident_count_bounded Toy.ctl4k 3 "a" 10000 Toy.scan_state
           Toy.scan_run.1.1 Toy.scan_run.1.2 Toy.scan_run.2).
  - exact valid_page_4k.
  - split; by vm_compute.
  - exact (triple_eta Toy.scan_run).
Defined.

Lemma mincore_failure_leaks_window_witness :
  ∃ hint len off addr err,
    leaked Toy.mincore_failure_run.1.2 = [(addr, len)] ∧
    last Toy.mincore_failure_run.1.2 = Some (EvWarn FailedMincore "q") ∧
    In (EvMmap hint len 3 off (Ok addr)) Toy.mincore_failure_run.1.2 ∧
    In (EvMincore addr len (Err err)) Toy.mincore_failure_run.1.2.
Proof.
  apply (mincore_failure_leaks_window Toy.ctl4k 3 "q" 5000 0
           Toy.mincore_failure_state Toy.mincore_failure_run.1.1
           Toy.mincore_failure_run.1.2 Toy.mincore_failure_run.2).
  - exact (triple_eta Toy.mincore_failure_run).
  - vm_compute. reflexivity.
Defined.

(** The scan whose query fails, as it runs: the window stays mapped. *)
Example run_mincore_failure :
  Toy.observe Toy.mincore_failure_run =
  (Ret (-12, 0),
   [EvMmap 0 5000 3 0 (Ok Toy.MAP_BASE);
    EvMincore Toy.MAP_BASE 5000 (Err Toy.ENOMEM);
    EvWarn FailedMincore "q"],
   []) ∧
  leaked Toy.mincore_failure_run.1.2 = [(Toy.MAP_BASE, 5000)].
Proof. split; vm_compute; reflexivity. Qed.

Lemma open_failure_adds_row_witness :
  ∃ w,
    main_body Toy.ctl4k "missing" EXIT_SUCCESS Toy.example =
    (Ret EXIT_SUCCESS,
     [EvOpen "missing" (Err Toy.ENOENT); EvWarn FailedOpen "missing";
      EvScols NewLine true],
     {| ps_os := w; ps_vec := ps_vec Toy.example;
        ps_lines := ps_lines Toy.example
                    ++ [row Toy.ctl4k "missing" Indeterminate 0] |}).
Proof.
  eexists.
  eapply (open_failure_adds_row Toy.ctl4k "missing" EXIT_SUCCESS Toy.example).
  - vm_compute. reflexivity.
  - vm_compute. reflexivity.
Defined.

Lemma empty_file_row_witness :
  In "e" ["d"; "e"] ∧
  ∃ post' lines rc,
    Toy.empty_file_run.1.2 =
      (setup_events ++
       [EvOpen "d" (Ok 3); EvFstat 3 (Ok {| st_mode := 16877; st_size := 4096 |});
        EvClose 3]) ++
      [EvOpen "e" (Ok 3); EvFstat 3 (Ok {| st_mode := 33188; st_size := 0 |});
       EvClose 3; EvScols NewLine true] ++ post' ∧
    Toy.empty_file_run.1.1 = Ret rc ∧
    last Toy.empty_file_run.1.2 = Some (EvPrintTable lines) ∧
    In [CellDec (Val 0); CellHuman (Val 0); CellName "e"] lines.
Proof.
  apply (empty_file_row 4096 ["d"; "e"] Toy.example
           Toy.empty_file_run.1.1 Toy.empty_file_run.1.2 Toy.empty_file_run.2
           (setup_events ++
            [EvOpen "d" (Ok 3);
             EvFstat 3 (Ok {| st_mode := 16877; st_size := 4096 |}); EvClose 3])
           "e" 3 {| st_mode := 33188; st_size := 0 |}
           [EvClose 3; EvScols NewLine true;
            EvPrintTable [[CellDec (Val 0); CellHuman (Val 0); CellName "e"]]]).
  - exact valid_page_4k.
  - exact (triple_eta Toy.empty_file_run).
  - vm_compute. reflexivity.
  - vm_compute. reflexivity.
  - vm_compute. reflexivity.
  - vm_compute. reflexivity.
  - reflexivity.
Defined.

(** The run of the witness, as it is: the directory gives no line, the
    empty file the line (0, 0, "e"). *)
Example run_empty_file :
  Toy.observe Toy.empty_file_run =
  (Ret EXIT_SUCCESS,
   setup_events ++
   [EvOpen "d" (Ok 3); EvFstat 3 (Ok {| st_mode := 16877; st_size := 4096 |});
    EvClose 3;
    EvOpen "e" (Ok 3); EvFstat 3 (Ok {| st_mode := 33188; st_size := 0 |});
    EvClose 3; EvScols NewLine true;
    EvPrintTable [[CellDec (Val 0); CellHuman (Val 0); CellName "e"]]],
   [[CellDec (Val 0); CellHuman (Val 0); CellName "e"]]).
Proof. vm_compute. reflexivity. Qed.

Lemma mmap_failure_fails_the_file_witness :
  Toy.mmap_failure_round.1.1 = Ret EXIT_FAILURE ∧
  (∃ pre fd hint len off err,
     Toy.mmap_failure_round.1.2 =
       pre ++ [EvMmap hint len fd off (Err err); EvWarn FailedMmap "m";
               EvClose fd] ∧
     existsb is_mmap_failure pre = false ∧
     existsb is_diagnostic pre = false) ∧
  count_of is_diagnostic Toy.mmap_failure_round.1.2 = 1%nat ∧
  existsb is_new_line Toy.mmap_failure_round.1.2 = false ∧
  ps_lines Toy.mmap_failure_round.2 = ps_lines Toy.example ∧
  main_loop Toy.ctl4k ["m"; "a"] EXIT_SUCCESS Toy.example =
    (let '(o', e', s'') :=
       main_loop Toy.ctl4k ["a"] EXIT_FAILURE Toy.mmap_failure_round.2 in
     (o', Toy.mmap_failure_round.1.2 ++ e', s'')).
Proof.
  apply (mmap_failure_fails_the_file Toy.ctl4k "m" ["a"] EXIT_SUCCESS Toy.example
           Toy.mmap_failure_round.1.1 Toy.mmap_failure_round.1.2
           Toy.mmap_failure_round.2).
  - exact (triple_eta Toy.mmap_failure_round).
  - vm_compute. reflexivity.
Defined.

Lemma exit_status_fatal_only_witness :
  exit_status Toy.failing_run.1.1 =
  Some (if existsb is_fatal Toy.failing_run.1.2
           || existsb is_alloc_failure Toy.failing_run.1.2
        then EXIT_FAILURE else EXIT_SUCCESS).
Proof.
  apply (exit_status_fatal_only 4096 ["f"; "m"; "q"; "e"] Toy.example
           Toy.failing_run.1.1 Toy.failing_run.1.2 Toy.failing_run.2).
  - exact valid_page_4k.
  - done.
  - exact (triple_eta Toy.failing_run).
  - vm_compute. reflexivity.
Defined.


(** C8 as it is stated fails on a path that cannot be opened: the exit
    status is 0, and the path was neither scanned nor a directory. *)
Lemma exit_status_open_failure_counterexample :
  ¬ (exit_status Toy.missing_run.1.1 = Some EXIT_SUCCESS ↔
     Forall (λ name, was_scanned name Toy.missing_run.1.2 ∨
                     was_directory name Toy.missing_run.1.2) ["missing"]).
Proof.
  intros [Hall _].
  assert (Hexit : exit_status Toy.missing_run.1.1 = Some EXIT_SUCCESS)
    by (vm_compute; reflexivity).
  specialize (Hall Hexit). apply Forall_inv in Hall.
  assert (Hopen : ∀ fd, ¬ In (EvOpen "missing" (Ok fd)) Toy.missing_run.1.2).
  { intros fd Hin. vm_compute in Hin.
    repeat (destruct Hin as [Hin | Hin]; [discriminate Hin |]). done. }
  destruct Hall as [(fd & _ & Hin & _) | (fd & _ & Hin & _)];
    by apply (Hopen fd).
Qed.

(** ** More runs *)

Lemma windows_tile_the_file_witness :
  ∃ rc count,
    Toy.scan_run.1.1 = Ret (rc, count) ∧
    tiles_prefix (N_PAGES_IN_WINDOW * 4096) 10000 0 (mmap_windows Toy.scan_run.1.2) ∧
    Forall (λ w, (4096 | w.1)) (mmap_windows Toy.scan_run.1.2) ∧
    (rc = 0 →
     tiles (N_PAGES_IN_WINDOW * 4096) 10000 0 (mmap_windows Toy.scan_run.1.2) ∧
     Z.of_nat (length (mmap_windows Toy.scan_run.1.2))
     = ceil_div 10000 (N_PAGES_IN_WINDOW * 4096)).
Proof.
  apply (windows_tile_the_file Toy.ctl4k 3 "a" 10000 Toy.scan_state
           Toy.scan_run.1.1 Toy.scan_run.1.2 Toy.scan_run.2).
  - exact valid_page_4k.
  - split; by vm_compute.
  - exact (triple_eta Toy.scan_run).
Defined.

Lemma scan_accesses_in_bounds_witness :
  Forall (λ i, Z.of_nat i < N_PAGES_IN_WINDOW) (vec_reads Toy.scan_run.1.2) ∧
  Forall (λ iv, Z.of_nat iv.1 < N_PAGES_IN_WINDOW ∧ iv.2 = 0)
    (vec_writes Toy.scan_run.1.2).
Proof.
  apply (scan_accesses_in_bounds Toy.ctl4k 3 "a" 10000 0 Toy.scan_state
           Toy.scan_run.1.1 Toy.scan_run.1.2 Toy.scan_run.2).
  - exact valid_page_4k.
  - by vm_compute.
  - exact (triple_eta Toy.scan_run).
Defined.

Lemma cached_file_counts_every_page_witness :
  ∃ e s',
    fincore_fd Toy.ctl4k 3 "a" 10000 0 Cached.start = (Ret (0, 3), e, s') ∧
    tiles (N_PAGES_IN_WINDOW * 4096) 10000 0 (mmap_windows e) ∧
    leaked e = [].
Proof.
  apply (cached_file_counts_every_page Toy.ctl4k 3 "a" 10000 Cached.start).
  - exact valid_page_4k.
  - split; by vm_compute.
  - intros hint len off w _ _. by eexists _, _.
  - intros addr len vec w. eexists _, _. split; [reflexivity |].
    intros i Hi. unfold vec_at.
    rewrite lookup_replicate_2 by lia. reflexivity.
Defined.


Lemma descriptor_stays_open_only_after_fstat_failure_witness :
  open_fds (fincore_name Toy.ctl4k "f" None 0 Toy.example).1.2 =
  fstat_failed_fds (fincore_name Toy.ctl4k "f" None 0 Toy.example).1.2.
Proof.
  apply (descriptor_stays_open_only_after_fstat_failure Toy.ctl4k "f" Toy.example
           (-5, None, 0) _ (fincore_name Toy.ctl4k "f" None 0 Toy.example).2).
  etransitivity; [apply triple_eta |]. do 2 f_equal.
Defined.

Lemma directory_is_skipped_witness :
  ∃ s1,
    main_body Toy.ctl4k "d" EXIT_SUCCESS Toy.example =
      (Ret EXIT_SUCCESS,
       [EvOpen "d" (Ok 3); EvFstat 3 (Ok {| st_mode := 16877; st_size := 4096 |});
        EvClose 3], s1) ∧
    main_loop Toy.ctl4k ["d"; "e"] EXIT_SUCCESS Toy.example =
      (let '(o', e', s'') := main_loop Toy.ctl4k ["e"] EXIT_SUCCESS s1 in
       (o', [EvOpen "d" (Ok 3);
             EvFstat 3 (Ok {| st_mode := 16877; st_size := 4096 |});
             EvClose 3] ++ e', s'')).
Proof.
  eexists.
  eapply (directory_is_skipped Toy.ctl4k "d" ["e"] EXIT_SUCCESS Toy.example 3
            {| st_mode := 16877; st_size := 4096 |}).
  - vm_compute. reflexivity.
  - vm_compute. reflexivity.
  - reflexivity.
Defined.

Lemma fstat_failure_fails_the_file_witness :
  ∃ s1,
    main_body Toy.ctl4k "f" EXIT_SUCCESS Toy.example =
      (Ret EXIT_FAILURE,
       [EvOpen "f" (Ok 3); EvFstat 3 (Err 5%positive); EvWarn FailedFstat "f"],
       s1) ∧
    main_loop Toy.ctl4k ["f"; "e"] EXIT_SUCCESS Toy.example =
      (let '(o', e', s'') := main_loop Toy.ctl4k ["e"] EXIT_FAILURE s1 in
       (o', [EvOpen "f" (Ok 3); EvFstat 3 (Err 5%positive);
             EvWarn FailedFstat "f"] ++ e', s'')) ∧
    open_fds [EvOpen "f" (Ok 3); EvFstat 3 (Err 5%positive);
              EvWarn FailedFstat "f"] = [3].
Proof.
  eexists.
  eapply (fstat_failure_fails_the_file Toy.ctl4k "f" ["e"] EXIT_SUCCESS
            Toy.example 3 5%positive).
  - vm_compute. reflexivity.
  - vm_compute. reflexivity.
Defined.

Lemma mincore_failure_fails_the_file_witness :
  (main_body Toy.ctl4k "q" EXIT_SUCCESS Toy.example).1.1 = Ret EXIT_FAILURE ∧
  (∃ pre fd hint len off addr err,
     (main_body Toy.ctl4k "q" EXIT_SUCCESS Toy.example).1.2 =
       pre ++ [EvMmap hint len fd off (Ok addr); EvMincore addr len (Err err);
               EvWarn FailedMincore "q"; EvClose fd] ∧
     existsb is_mincore_failure pre = false ∧
     existsb is_diagnostic pre = false) ∧
  count_of is_diagnostic (main_body Toy.ctl4k "q" EXIT_SUCCESS Toy.example).1.2
    = 1%nat ∧
  existsb is_new_line (main_body Toy.ctl4k "q" EXIT_SUCCESS Toy.example).1.2
    = false ∧
  ps_lines (main_body Toy.ctl4k "q" EXIT_SUCCESS Toy.example).2
    = ps_lines Toy.example ∧
  main_loop Toy.ctl4k ["q"; "a"] EXIT_SUCCESS Toy.example =
    (let '(o', e', s'') :=
       main_loop Toy.ctl4k ["a"] EXIT_FAILURE
         (main_body Toy.ctl4k "q" EXIT_SUCCESS Toy.example).2 in
     (o', (main_body Toy.ctl4k "q" EXIT_SUCCESS Toy.example).1.2 ++ e', s'')).
Proof.
  apply (mincore_failure_fails_the_file Toy.ctl4k "q" ["a"] EXIT_SUCCESS
           Toy.example).
  - apply triple_eta.
  - vm_compute. reflexivity.
Defined.

Lemma scanned_file_row_witness :
  ∃ evs w3 v,
    main_body Toy.ctl4k "a" EXIT_SUCCESS Toy.example =
      (Ret EXIT_SUCCESS,
       EvOpen "a" (Ok 3) :: EvFstat 3 (Ok {| st_mode := 33188; st_size := 10000 |})
       :: evs ++ [EvClose 3; EvScols NewLine true],
       {| ps_os := w3; ps_vec := v;
          ps_lines := [] ++ [[CellDec (Val 2); CellHuman (Val 10000); CellName "a"]] |}) ∧
    main_loop Toy.ctl4k ["a"; "e"] EXIT_SUCCESS Toy.example =
      (let '(o', e', s'') :=
         main_loop Toy.ctl4k ["e"] EXIT_SUCCESS
           {| ps_os := w3; ps_vec := v;
              ps_lines := [] ++ [[CellDec (Val 2); CellHuman (Val 10000);
                                  CellName "a"]] |} in
       (o', (EvOpen "a" (Ok 3)
             :: EvFstat 3 (Ok {| st_mode := 33188; st_size := 10000 |})
             :: evs ++ [EvClose 3; EvScols NewLine true]) ++ e', s'')).
Proof.
  eexists _, _, _.
  eapply (scanned_file_row Toy.ctl4k "a" ["e"] EXIT_SUCCESS Toy.example 3
            {| st_mode := 33188; st_size := 10000 |} _ _ 2).
  - vm_compute. reflexivity.
  - vm_compute. reflexivity.
  - reflexivity.
  - done.
  - etransitivity; [apply triple_eta |]. do 2 f_equal.
  - vm_compute. reflexivity.
Defined.

Lemma add_output_data_fills_selected_columns_witness :
  ∃ w,
    add_output_data Toy.ctl4k [COL_FILE; COL_PAGES] "a" (Val 10000) 2 Toy.example =
    (Ret 0, [EvScols NewLine true],
     {| ps_os := w; ps_vec := ps_vec Toy.example;
        ps_lines := ps_lines Toy.example ++ [[CellName "a"; CellDec (Val 2)]] |}).
Proof.
  eexists.
  eapply (add_output_data_fills_selected_columns Toy.ctl4k [COL_FILE; COL_PAGES]
            "a" (Val 10000) 2 Toy.example).
  - repeat constructor; unfold COL_FILE, COL_PAGES, N_INFOS; lia.
  - vm_compute. reflexivity.
Defined.

Lemma printed_table_rows_witness :
  ∃ picks,
    last Toy.mixed_run.1.2 = Some (EvPrintTable (human_rows picks)) ∧
    sublist (List.map (λ p, p.1.1) picks) ["a"; "missing"; "d"; "e"].
Proof.
  apply (printed_table_rows 4096 ["a"; "missing"; "d"; "e"] Toy.example
           EXIT_SUCCESS Toy.mixed_run.1.2 Toy.mixed_run.2).
  - etransitivity; [exact (triple_eta Toy.mixed_run) |].
    do 2 f_equal.
  - reflexivity.
Defined.

Lemma column_name_to_id_matches_witness :
  ∃ cn, 0 ≤ 1 < N_INFOS ∧ infos !! Z.to_nat 1 = Some cn ∧
        lower (substring 0 4 "size,pages") = lower cn.
Proof.
  apply (column_name_to_id_matches "size,pages" 4). vm_compute. lia.
Defined.

Lemma column_name_to_id_own_name_witness :
  column_name_to_id "Pages,size" 5 = ColumnId 0.
Proof.
  apply (column_name_to_id_own_name 0 "PAGES" "Pages" ",size"); reflexivity.
Defined.

Lemma column_name_to_id_reads_outside_witness :
  column_name_to_id "size" 6 = ReadOutside 1 6.
Proof.
  apply (column_name_to_id_reads_outside 1 "SIZE" "size" 6).
  - reflexivity.
  - reflexivity.
  - vm_compute. lia.
Defined.

Lemma scan_count_is_resident_reads_witness :
  2 = 0 + Z.of_nat (count_of is_resident_read Toy.scan_run.1.2).
Proof.
  apply (scan_count_is_resident_reads Toy.ctl4k 3 "a" 10000 0 Toy.scan_state
           0 2 Toy.scan_run.1.2 Toy.scan_run.2).
  - etransitivity; [exact (triple_eta Toy.scan_run) |]. do 2 f_equal.
  - done.
  - by vm_compute.
Defined.

Lemma windows_released_without_mincore_failure_witness :
  leaked Toy.scan_run.1.2 = [].
Proof.
  apply (windows_released_without_mincore_failure Toy.ctl4k 3 "a" 10000 0
           Toy.scan_state Toy.scan_run.1.1 Toy.scan_run.1.2 Toy.scan_run.2).
  - exact (triple_eta Toy.scan_run).
  - vm_compute. reflexivity.
Defined.
